(** * Screener pipeline and alert processor: a shallow embedding

    The development follows the JavaScript sources of the API gateway:

    - [validator.service.js]  (DSL validator, [Module Validator];
                               alert processor, [Module Alerts])
    - [compiler.service.js]   (DSL to SQL compiler, [Module Compiler])
    - [marketController.js]   (natural-language translator,
                               [Module Regex] and [Module Translator])

    [Module Run] adds the exceptions of the runtime to the validator and
    the compiler: a message that cannot be built, a call stack that is
    too small.

    JavaScript values are modelled by the type [JS.value].  Numbers are
    exact rationals plus [VNaN]; binary floating point rounding is not
    modelled.  Strings are ASCII strings. *)

From Stdlib Require Import String Ascii List ZArith QArith Bool Lia Arith Permutation.
From Stdlib Require Import DecimalString.
Import ListNotations.
Open Scope string_scope.
Open Scope list_scope.

(* ================================================================== *)
(** * JavaScript values *)
(* ================================================================== *)

Module JS.

(** A JavaScript value as it reaches the services: the result of
    [JSON.parse], or an object literal built by the translator.  [VFun]
    stands for a function object; the only ones the program can meet are
    the methods an array inherits ([Array.prototype.filter], [sort]).
    An object holds its own properties in enumeration order, each key
    once. *)
#[warnings="-register-all"] Inductive value : Type :=
| VUndef
| VNull
| VBool (b : bool)
| VNaN
| VNum (q : Q)
| VStr (s : string)
| VArr (items : list value)
| VObj (props : list (string * value))
| VFun.

Inductive jstype := TUndefined | TObject | TBoolean | TNumber | TString | TFunction.

Definition jstype_eqb (a b : jstype) : bool :=
  match a, b with
  | TUndefined, TUndefined | TObject, TObject | TBoolean, TBoolean
  | TNumber, TNumber | TString, TString | TFunction, TFunction => true
  | _, _ => false
  end.

(** [typeof v] *)
Definition typeof (v : value) : jstype :=
  match v with
  | VUndef => TUndefined
  | VNull => TObject
  | VBool _ => TBoolean
  | VNaN | VNum _ => TNumber
  | VStr _ => TString
  | VArr _ | VObj _ => TObject
  | VFun => TFunction
  end.

(** ToBoolean: what [if (v)], [!v], [v && w] and [v || w] test. *)
Definition truthy (v : value) : bool :=
  match v with
  | VUndef | VNull | VNaN => false
  | VBool b => b
  | VNum q => negb (Qeq_bool q 0)
  | VStr s => negb (String.eqb s "")
  | VArr _ | VObj _ | VFun => true
  end.

(** [v || w] *)
Definition or_else (v w : value) : value := if truthy v then v else w.

(** [v === undefined] *)
Definition is_undefined (v : value) : bool :=
  match v with VUndef => true | _ => false end.

(** [v] is [null] or [undefined]: reading a property of it throws. *)
Definition nullish (v : value) : bool :=
  match v with VUndef | VNull => true | _ => false end.

(** [Array.isArray(v)] *)
Definition isArray (v : value) : bool :=
  match v with VArr _ => true | _ => false end.

(** [v === s] for a string literal [s]. *)
Definition is_str (v : value) (s : string) : bool :=
  match v with VStr t => String.eqb t s | _ => false end.

Fixpoint str_in (s : string) (l : list string) : bool :=
  match l with
  | [] => false
  | x :: r => String.eqb s x || str_in s r
  end.

(** [l.includes(v)] for an array [l] of string literals: only a string
    is strictly equal to one of them. *)
Definition includes (l : list string) (v : value) : bool :=
  match v with VStr s => str_in s l | _ => false end.

Fixpoint assoc (k : string) (props : list (string * value)) : value :=
  match props with
  | [] => VUndef
  | (k', v) :: r => if String.eqb k k' then v else assoc k r
  end.

(** Property read [o.k], for the property names the program reads
    ([filter], [sort], [limit], [and], [or], [not], [field], [operator],
    [value], ...).  Of these an array inherits [filter] and [sort]; on a
    primitive the read gives [undefined].  The caller guards against
    [null] and [undefined] receivers (see [nullish]). *)
Definition get (o : value) (k : string) : value :=
  match o with
  | VObj props => assoc k props
  | VArr _ => if String.eqb k "filter" || String.eqb k "sort" then VFun else VUndef
  | _ => VUndef
  end.

Fixpoint assoc_set (k : string) (v : value) (props : list (string * value))
  : list (string * value) :=
  match props with
  | [] => [(k, v)]
  | (k', v') :: r =>
      if String.eqb k k' then (k, v) :: r else (k', v') :: assoc_set k v r
  end.

Fixpoint assoc_del (k : string) (props : list (string * value))
  : list (string * value) :=
  match props with
  | [] => []
  | (k', v') :: r =>
      if String.eqb k k' then assoc_del k r else (k', v') :: assoc_del k r
  end.

(** [o.k = v] on an object: an existing property keeps its place, a new
    one goes last. *)
Definition set (o : value) (k : string) (v : value) : value :=
  match o with
  | VObj props => VObj (assoc_set k v props)
  | _ => o
  end.

(** [delete o.k] *)
Definition del (o : value) (k : string) : value :=
  match o with
  | VObj props => VObj (assoc_del k props)
  | _ => o
  end.

(** Decimal rendering of a counter or an array index. *)
Definition string_of_nat (n : nat) : string :=
  NilEmpty.string_of_uint (Nat.to_uint n).

(** ASCII case mapping, as [toLowerCase] and [toUpperCase] act on the
    texts of this program. *)
Definition lower_ascii (c : ascii) : ascii :=
  let n := nat_of_ascii c in
  if (65 <=? n)%nat && (n <=? 90)%nat then ascii_of_nat (n + 32) else c.

Definition upper_ascii (c : ascii) : ascii :=
  let n := nat_of_ascii c in
  if (97 <=? n)%nat && (n <=? 122)%nat then ascii_of_nat (n - 32) else c.

Fixpoint toLowerCase (s : string) : string :=
  match s with
  | EmptyString => EmptyString
  | String c r => String (lower_ascii c) (toLowerCase r)
  end.

Fixpoint toUpperCase (s : string) : string :=
  match s with
  | EmptyString => EmptyString
  | String c r => String (upper_ascii c) (toUpperCase r)
  end.

(** [s.includes(sub)] on strings. *)
Fixpoint str_contains (sub s : string) : bool :=
  String.prefix sub s ||
  match s with
  | EmptyString => false
  | String _ r => str_contains sub r
  end.

(** [l.join(sep)] on an array of strings. *)
Fixpoint join (sep : string) (l : list string) : string :=
  match l with
  | [] => ""
  | [x] => x
  | x :: r => x ++ sep ++ join sep r
  end.

(** Exceptions the services raise. *)
Inductive exn :=
| TypeError                       (** a property read or a call on a value that has none *)
| UnknownField (field : value)    (** [Error('Unknown field: ' + field)] *)
| UnknownComparisonField (v : value)  (** [Error('Unknown comparison field: ' + v)] *)
| UnsupportedOperator (op : value)    (** [Error('Unsupported operator: ' + op)] *)
| RangeError.                     (** the call stack has no room for another call *)

(** The result of running a piece of the program: a value, an exception,
    [Beyond] where the source goes on with the text of a non-string
    value (a coercion outside this model), or [NoFuel] where the
    recursion bound of the model was too small. *)
Inductive outcome (A : Type) : Type :=
| Ok (a : A)
| Throw (e : exn)
| Beyond
| NoFuel.
Arguments Ok {A} a.
Arguments Throw {A} e.
Arguments Beyond {A}.
Arguments NoFuel {A}.

Definition obind {A B} (m : outcome A) (f : A -> outcome B) : outcome B :=
  match m with
  | Ok a => f a
  | Throw e => Throw e
  | Beyond => Beyond
  | NoFuel => NoFuel
  end.

(** Names every object literal inherits from [Object.prototype]: the
    read [map[k]] of such a key finds the inherited member. *)
Definition prototype_keys : list string :=
  [ "constructor"; "hasOwnProperty"; "isPrototypeOf"; "propertyIsEnumerable";
    "toLocaleString"; "toString"; "valueOf"; "__proto__";
    "__defineGetter__"; "__defineSetter__"; "__lookupGetter__"; "__lookupSetter__" ].

(** ** Numbers and comparisons *)

(** The result of ToNumber. *)
Inductive num := NaN | Fin (q : Q).

Definition is_space (c : ascii) : bool :=
  let n := nat_of_ascii c in
  (n =? 32)%nat || ((9 <=? n)%nat && (n <=? 13)%nat).

Definition is_digit (c : ascii) : bool :=
  let n := nat_of_ascii c in (48 <=? n)%nat && (n <=? 57)%nat.

Definition digit_val (c : ascii) : Z := Z.of_nat (nat_of_ascii c - 48).

Fixpoint ltrim (s : string) : string :=
  match s with
  | String c r => if is_space c then ltrim r else s
  | EmptyString => EmptyString
  end.

Fixpoint rtrim (s : string) : string :=
  match s with
  | EmptyString => EmptyString
  | String c r =>
      match rtrim r with
      | EmptyString => if is_space c then EmptyString else String c EmptyString
      | r' => String c r'
      end
  end.

(** [s.trim()] *)
Definition trim (s : string) : string := rtrim (ltrim s).

(** Leading decimal digits of [s]: their value from the accumulator
    [acc], how many they are, and the rest of the text. *)
Fixpoint digits (s : string) (acc : Z) (count : nat) : Z * nat * string :=
  match s with
  | String c r => if is_digit c then digits r (acc * 10 + digit_val c)%Z (S count)
                  else (acc, count, s)
  | EmptyString => (acc, count, s)
  end.

(** The longest prefix of [s] of the form digits, or digits [.] digits
    with at least one digit: its value and the rest. *)
Definition decimal_prefix (s : string) : option (Q * string) :=
  let '(ip, ni, r1) := digits s 0%Z 0%nat in
  match r1 with
  | String "."%char r2 =>
      let '(fp, nf, r3) := digits r2 ip 0%nat in
      if ((ni + nf) =? 0)%nat then None
      else Some (Qred (Qmake fp (Z.to_pos (10 ^ Z.of_nat nf))), r3)
  | _ => if (ni =? 0)%nat then None else Some (inject_Z ip, r1)
  end.

(** ToNumber on a string, for the plain decimal texts a numeric column
    or a JSON field holds: an optional sign, digits, an optional
    fraction.  The empty text is 0.  Other texts (exponents, hex,
    [Infinity], or no number at all) are left to [Beyond]. *)
Definition StringToNumber (s : string) : outcome num :=
  let t := trim s in
  match t with
  | EmptyString => Ok (Fin 0)
  | String c r =>
      let '(neg, body) :=
        if Ascii.eqb c "-" then (true, r)
        else if Ascii.eqb c "+" then (false, r) else (false, t) in
      match decimal_prefix body with
      | Some (q, EmptyString) => Ok (Fin (if neg then Qopp q else q))
      | _ => Beyond
      end
  end.

(** ToNumber, i.e. [Number(v)].  Arrays and objects go through their
    text first: outside the model. *)
Definition ToNumber (v : value) : outcome num :=
  match v with
  | VUndef => Ok NaN
  | VNull => Ok (Fin 0)
  | VBool b => Ok (Fin (if b then 1 else 0))
  | VNaN => Ok NaN
  | VNum q => Ok (Fin q)
  | VStr s => StringToNumber s
  | VFun => Ok NaN
  | VArr _ | VObj _ => Beyond
  end.

(** The relational comparison of [a] and [b]: [None] when a NaN makes
    every one of [<], [>], [<=], [>=] false.  Two strings compare as
    texts, everything else as numbers. *)
Definition js_compare (a b : value) : outcome (option comparison) :=
  match a, b with
  | VStr x, VStr y => Ok (Some (String.compare x y))
  | _, _ =>
      obind (ToNumber a) (fun na =>
      obind (ToNumber b) (fun nb =>
        match na, nb with
        | Fin x, Fin y => Ok (Some (Qcompare x y))
        | _, _ => Ok None
        end))
  end.

Definition js_gt (a b : value) : outcome bool :=
  obind (js_compare a b) (fun c => Ok match c with Some Gt => true | _ => false end).
Definition js_ge (a b : value) : outcome bool :=
  obind (js_compare a b) (fun c => Ok match c with Some Gt | Some Eq => true | _ => false end).
Definition js_lt (a b : value) : outcome bool :=
  obind (js_compare a b) (fun c => Ok match c with Some Lt => true | _ => false end).
Definition js_le (a b : value) : outcome bool :=
  obind (js_compare a b) (fun c => Ok match c with Some Lt | Some Eq => true | _ => false end).

(** [a === b] for values that do not share an object: a number equals
    the same number, [NaN] nothing, an array or object only itself. *)
Definition strict_eq (a b : value) : bool :=
  match a, b with
  | VUndef, VUndef | VNull, VNull => true
  | VBool x, VBool y => Bool.eqb x y
  | VNum x, VNum y => Qeq_bool x y
  | VStr x, VStr y => String.eqb x y
  | _, _ => false
  end.

(** Nesting depth of a value, the recursion bound of the compiler model. *)
Fixpoint vdepth (v : value) : nat :=
  match v with
  | VArr items => S (fold_right (fun x m => Nat.max (vdepth x) m) 0%nat items)
  | VObj props => S (fold_right (fun kv m => Nat.max (vdepth (snd kv)) m) 0%nat props)
  | _ => 0%nat
  end.

End JS.

Import JS.

(* ================================================================== *)
(** * DSL validator ([validator.service.js]) *)
(* ================================================================== *)

Module Validator.

Definition ALLOWED_FIELDS : list string :=
  [ "ticker"; "name"; "market_cap"; "sector"; "industry"; "exchange";
    "next_earnings_date"; "last_buyback_date"; "promoter_holding";
    "open"; "high"; "low"; "close"; "volume";
    "revenue"; "net_income"; "eps"; "operating_margin"; "roe"; "roa";
    "pe_ratio"; "pb_ratio"; "peg_ratio"; "ebitda";
    "ebitda_margin"; "debt_to_equity"; "current_ratio";
    "total_assets"; "total_debt"; "free_cash_flow"; "operating_cash_flow";
    "revenue_growth_yoy"; "ebitda_growth_yoy";
    "debt_to_fcf";
    "short_term_debt"; "long_term_debt";
    "cfo"; "cfi"; "cff"; "capex";
    "eps_estimate"; "revenue_estimate";
    "price_target_low"; "price_target_avg"; "price_target_high" ].

Definition ALLOWED_OPERATORS : list string :=
  [ "<"; ">"; "<="; ">="; "="; "!="; "between"; "in"; "exists"; "all_quarters" ].

Definition ALLOWED_LOGICAL_OPERATORS : list string := [ "and"; "or"; "not" ].

Definition ALLOWED_AGGREGATIONS : list string :=
  [ "all"; "any"; "avg"; "sum"; "latest" ].

(** The entries of the [errors] array.  Each constructor stands for one
    message of the source; where the message quotes a value of the DSL,
    the constructor carries that value.  The functions of this module
    keep the value where the source builds a text, and follow the
    recursion of [_validateFilter] to its end.  Building the text of a
    message can throw, and so can a recursion too deep for the call
    stack: [Run] has the validator with both, and returns the results of
    this module where it returns. *)
Inductive verror :=
| EDslNotObject                  (** 'DSL must be an object' *)
| ENoFilter                      (** 'DSL must contain a filter property' *)
| EFilterNotObject               (** 'Filter must be an object' *)
| ELogicalNotArray (key : string) (** "Logical operator 'key' must contain an array" *)
| EInvalidConditionInFilter      (** 'Invalid condition in filter' *)
| EUnknownFilterOperator (key : string) (** 'Unknown filter operator: key' *)
| ECondNoField                   (** 'Condition must have a field property' *)
| EInvalidField (v : value)      (** 'Invalid field: v' *)
| ECondNoOperator                (** 'Condition must have an operator property' *)
| EInvalidOperator (v : value)   (** 'Invalid operator: v' *)
| ECondNoValue                   (** 'Condition must have a value property' *)
| ECrossFieldValue (v : value)   (** 'Cross-field comparison value must be an allowed field: v' *)
| EBetweenShape                  (** 'Between operator requires array of 2 values' *)
| EInShape                       (** 'In operator requires array of values' *)
| EExistsShape                   (** 'Exists operator requires boolean value' *)
| EPeriodNotObject               (** 'period must be an object' *)
| EPeriodType                    (** 'period.type must be "last_n_quarters"' *)
| EPeriodN                       (** 'period.n must be a number between 1 and 20' *)
| EInvalidAggregation (v : value) (** 'Invalid period aggregation: v' *)
| ESortNotArray                  (** 'Sort must be an array' *)
| ESortNoField                   (** 'Sort item must have a field property' *)
| EInvalidSortField (v : value)  (** 'Invalid sort field: v' *)
| EInvalidSortDirection (v : value) (** 'Invalid sort direction: v' *)
| ELimitRange.                   (** 'Limit must be a number between 1 and 1000' *)

(** The object [validate] returns. *)
Record result := mkResult {
  valid : bool;
  errors : list verror;
  sanitizedDSL : value
}.

(** [_isCondition(obj)]:
    [obj && typeof obj === 'object' && obj.field && obj.operator] *)
Definition _isCondition (obj : value) : bool :=
  truthy obj && jstype_eqb (typeof obj) TObject
  && truthy (get obj "field") && truthy (get obj "operator").

(** [x < lo || x > hi] on a value whose [typeof] is ['number']; every
    comparison with [NaN] is false. *)
Definition outside (x : value) (lo hi : Q) : bool :=
  match x with
  | VNum q => negb (Qle_bool lo q) || negb (Qle_bool q hi)
  | _ => false
  end.

(** The body of [if (condition.period) { ... }] in [_validateCondition],
    for the (truthy) period [p]. *)
Definition period_errors (p : value) : list verror :=
  if negb (jstype_eqb (typeof p) TObject) then [EPeriodNotObject]
  else
    (if negb (truthy (get p "type")) || negb (is_str (get p "type") "last_n_quarters")
     then [EPeriodType] else [])
    ++ (if negb (truthy (get p "n"))
           || negb (jstype_eqb (typeof (get p "n")) TNumber)
           || outside (get p "n") 1 20
        then [EPeriodN] else [])
    ++ (if truthy (get p "aggregation")
           && negb (includes ALLOWED_AGGREGATIONS (get p "aggregation"))
        then [EInvalidAggregation (get p "aggregation")] else []).

(** [_validateCondition(condition)]: the errors, and the condition as the
    call leaves it (a legacy [timeframe] is rewritten into a [period]). *)
Definition _validateCondition (condition : value) : list verror * value :=
  let field := get condition "field" in
  let operator := get condition "operator" in
  let val := get condition "value" in
  let period := get condition "period" in
  let timeframe := get condition "timeframe" in
  let e_field :=
    if negb (truthy field) then [ECondNoField]
    else if negb (includes ALLOWED_FIELDS field) then [EInvalidField field]
    else [] in
  let e_operator :=
    if negb (truthy operator) then [ECondNoOperator]
    else if negb (includes ALLOWED_OPERATORS operator) then [EInvalidOperator operator]
    else [] in
  let e_value :=
    if is_undefined val && negb (is_str operator "exists") then [ECondNoValue]
    else [] in
  let e_shape :=
    if truthy (get condition "value_is_field") then
      if negb (jstype_eqb (typeof val) TString) || negb (includes ALLOWED_FIELDS val)
      then [ECrossFieldValue val] else []
    else if is_str operator "between" then
      match val with
      | VArr items => if negb (length items =? 2)%nat then [EBetweenShape] else []
      | _ => [EBetweenShape]
      end
    else if is_str operator "in" then
      if negb (isArray val) then [EInShape] else []
    else if is_str operator "exists" then
      if negb (jstype_eqb (typeof val) TBoolean) then [EExistsShape] else []
    else [] in
  let e_period := if truthy period then period_errors period else [] in
  let condition' :=
    if truthy timeframe && negb (truthy period) then
      del (set condition "period"
             (VObj [ ("type", VStr "last_n_quarters");
                     ("n", or_else (get timeframe "period") (VNum 1));
                     ("aggregation", or_else (get timeframe "aggregation") (VStr "all")) ]))
          "timeframe"
    else condition in
  (e_field ++ e_operator ++ e_value ++ e_shape ++ e_period, condition').

(** The two loops of [_validateFilter], given the function itself for
    the nested filters. *)
Section FilterLoops.

Variable validateFilter : value -> list verror * value.

(** [for (const condition of filter[key]) { ... }] *)
Fixpoint conditions_loop (items : list value) : list verror * list value :=
  match items with
  | [] => ([], [])
  | condition :: more =>
      let '(ec, c') :=
        if _isCondition condition then _validateCondition condition
        else if jstype_eqb (typeof condition) TObject then validateFilter condition
        else ([EInvalidConditionInFilter], condition) in
      let '(em, more') := conditions_loop more in
      (ec ++ em, c' :: more')
  end.

(** The body of [for (const key of Object.keys(filter))] *)
Definition filter_key (key : string) (v : value) : list verror * value :=
  if str_in key ALLOWED_LOGICAL_OPERATORS then
    match v with
    | VArr items => let '(e, items') := conditions_loop items in (e, VArr items')
    | _ => ([ELogicalNotArray key], v)
    end
  else ([EUnknownFilterOperator key], v).

(** [for (const key of Object.keys(filter)) { ... }]: the loop reads
    [filter[key]] for each own key in turn, which is the loop over the
    properties. *)
Fixpoint keys_loop (props : list (string * value))
  : list verror * list (string * value) :=
  match props with
  | [] => ([], [])
  | (key, v) :: rest =>
      let '(e1, v') := filter_key key v in
      let '(e2, rest') := keys_loop rest in
      (e1 ++ e2, (key, v') :: rest')
  end.

End FilterLoops.

(** [_validateFilter(filter)]: the errors, and the filter as the call
    leaves it. *)
Fixpoint _validateFilter (filter : value) : list verror * value :=
  match filter with
  | VObj props =>
      let '(e, props') := keys_loop _validateFilter props in (e, VObj props')
  | VArr items =>
      (* the own keys of an array are its indices *)
      (map (fun i => EUnknownFilterOperator (string_of_nat i)) (seq 0 (length items)),
       filter)
  | _ => ([EFilterNotObject], filter)
  end.

(** [_validateSort(sort)].  Reading [sortItem.field] of [null] throws, and
    so does calling [toLowerCase] on a direction that is not a string. *)
Fixpoint sort_items (items : list value) : outcome (list verror) :=
  match items with
  | [] => Ok []
  | sortItem :: rest =>
      if nullish sortItem then Throw TypeError
      else
        let field := get sortItem "field" in
        let direction := get sortItem "direction" in
        let e1 :=
          if negb (truthy field) then [ESortNoField]
          else if negb (includes ALLOWED_FIELDS field) then [EInvalidSortField field]
          else [] in
        obind
          (if truthy direction then
             match direction with
             | VStr d =>
                 Ok (if negb (str_in (toLowerCase d) ["asc"; "desc"])
                     then [EInvalidSortDirection direction] else [])
             | _ => Throw TypeError
             end
           else Ok [])
          (fun e2 => obind (sort_items rest) (fun es => Ok (e1 ++ e2 ++ es)))
  end.

Definition _validateSort (sort : value) : outcome (list verror) :=
  match sort with
  | VArr items => sort_items items
  | _ => Ok [ESortNotArray]
  end.

(** [_validateLimit(limit)] *)
Definition _validateLimit (limit : value) : list verror :=
  if negb (jstype_eqb (typeof limit) TNumber) || outside limit 1 1000
  then [ELimitRange] else [].

(** [validate(dsl)] *)
Definition validate (dsl : value) : outcome result :=
  if negb (truthy dsl) || negb (jstype_eqb (typeof dsl) TObject) then
    Ok (mkResult false [EDslNotObject] VNull)
  else if negb (truthy (get dsl "filter")) then
    Ok (mkResult false [ENoFilter] VNull)
  else
    let '(filterErrors, filter') := _validateFilter (get dsl "filter") in
    let dsl' := set dsl "filter" filter' in
    obind (if truthy (get dsl "sort") then _validateSort (get dsl "sort") else Ok [])
      (fun sortErrors =>
         let limitErrors :=
           if negb (is_undefined (get dsl "limit"))
           then _validateLimit (get dsl "limit") else [] in
         let errors := filterErrors ++ sortErrors ++ limitErrors in
         Ok (mkResult (length errors =? 0)%nat errors
               (if (length errors =? 0)%nat then dsl' else VNull))).

(** The validator accepts [dsl]: it returns, with [valid] true. *)
Definition accepts (dsl : value) : bool :=
  match validate dsl with
  | Ok r => valid r
  | _ => false
  end.

End Validator.

(* ================================================================== *)
(** * DSL to SQL compiler ([compiler.service.js]) *)
(* ================================================================== *)

Module Compiler.

Local Open Scope string_scope.

(** An entry of [FIELD_TABLE_MAP]. *)
Record fieldInfo := mkField {
  table : string;
  column : string;
  derived : bool;
  sql : option (string -> string)
}.

Definition plain (t c : string) : fieldInfo := mkField t c false None.

Definition FIELD_TABLE_MAP : list (string * fieldInfo) :=
  [ ("ticker", plain "companies" "ticker");
    ("name", plain "companies" "name");
    ("market_cap", plain "companies" "market_cap");
    ("sector", plain "companies" "sector");
    ("industry", plain "companies" "industry");
    ("exchange", plain "companies" "exchange");
    ("next_earnings_date", plain "companies" "next_earnings_date");
    ("last_buyback_date", plain "companies" "last_buyback_date");
    ("promoter_holding", plain "companies" "promoter_holding");
    ("open", plain "price_history" "open");
    ("high", plain "price_history" "high");
    ("low", plain "price_history" "low");
    ("close", plain "price_history" "close");
    ("volume", plain "price_history" "volume");
    ("revenue", plain "fundamentals_quarterly" "revenue");
    ("net_income", plain "fundamentals_quarterly" "net_income");
    ("eps", plain "fundamentals_quarterly" "eps");
    ("operating_margin", plain "fundamentals_quarterly" "operating_margin");
    ("roe", plain "fundamentals_quarterly" "roe");
    ("roa", plain "fundamentals_quarterly" "roa");
    ("pe_ratio", plain "fundamentals_quarterly" "pe_ratio");
    ("pb_ratio", plain "fundamentals_quarterly" "pb_ratio");
    ("peg_ratio", plain "fundamentals_quarterly" "peg_ratio");
    ("ebitda", plain "fundamentals_quarterly" "ebitda");
    ("ebitda_margin", plain "fundamentals_quarterly" "ebitda_margin");
    ("debt_to_equity", plain "fundamentals_quarterly" "debt_to_equity");
    ("current_ratio", plain "fundamentals_quarterly" "current_ratio");
    ("total_assets", plain "fundamentals_quarterly" "total_assets");
    ("total_debt", plain "fundamentals_quarterly" "total_debt");
    ("free_cash_flow", plain "fundamentals_quarterly" "free_cash_flow");
    ("operating_cash_flow", plain "fundamentals_quarterly" "operating_cash_flow");
    ("revenue_growth_yoy", plain "fundamentals_quarterly" "revenue_growth_yoy");
    ("ebitda_growth_yoy", plain "fundamentals_quarterly" "ebitda_growth_yoy");
    ("short_term_debt", plain "debt_profile" "short_term_debt");
    ("long_term_debt", plain "debt_profile" "long_term_debt");
    ("cfo", plain "cashflow_statements" "cfo");
    ("cfi", plain "cashflow_statements" "cfi");
    ("cff", plain "cashflow_statements" "cff");
    ("capex", plain "cashflow_statements" "capex");
    ("eps_estimate", plain "analyst_estimates" "eps_estimate");
    ("revenue_estimate", plain "analyst_estimates" "revenue_estimate");
    ("price_target_low", plain "analyst_estimates" "price_target_low");
    ("price_target_avg", plain "analyst_estimates" "price_target_avg");
    ("price_target_high", plain "analyst_estimates" "price_target_high");
    ("debt_to_fcf",
     mkField "fundamentals_quarterly" "debt_to_fcf" true
       (Some (fun alias =>
          "(" ++ alias ++ ".total_debt::numeric / NULLIF(" ++ alias
              ++ ".free_cash_flow::numeric, 0))"))) ].

Definition PERIOD_CAPABLE_TABLES : list string := [ "fundamentals_quarterly" ].

Fixpoint find_field (k : string) (m : list (string * fieldInfo)) : option fieldInfo :=
  match m with
  | [] => None
  | (k', fi) :: r => if String.eqb k k' then Some fi else find_field k r
  end.

(** [FIELD_TABLE_MAP[key]]: [Ok None] when the read gives [undefined].
    A string reads its own entry; an array key is first turned into a
    text, and an inherited name finds a member of [Object.prototype]:
    both are outside the model.  No other value names an entry. *)
Definition lookup_field (key : value) : outcome (option fieldInfo) :=
  match key with
  | VStr s => if str_in s prototype_keys then Beyond else Ok (find_field s FIELD_TABLE_MAP)
  | VArr _ => Beyond
  | _ => Ok None
  end.

(** The [context] object of one [compile] call.  [requiredTables] is a
    [Set]: insertion order, no duplicates. *)
Record context := mkContext {
  params : list value;
  paramCounter : nat;
  requiredTables : list string;
  periodSubqueries : list string
}.

(** The value [compile] returns. *)
Record compiled := mkCompiled {
  sql_text : string;
  sql_params : list value;
  sql_tables : list string
}.

(** Code that reads and updates the context and may throw. *)
Definition M (A : Type) : Type := context -> outcome (A * context).

Definition ret {A} (a : A) : M A := fun c => Ok (a, c).

Definition bind {A B} (m : M A) (f : A -> M B) : M B :=
  fun c =>
    match m c with
    | Ok (a, c') => f a c'
    | Throw e => Throw e
    | Beyond => Beyond
    | NoFuel => NoFuel
    end.

Definition throw {A} (e : exn) : M A := fun _ => Throw e.
Definition beyond {A} : M A := fun _ => Beyond.
Definition lift {A} (o : outcome A) : M A :=
  fun c => obind o (fun a => Ok (a, c)).

Notation "x <- m ;; k" := (bind m (fun x => k))
  (at level 61, m at next level, right associativity).
Notation "m ;;; k" := (bind m (fun _ => k))
  (at level 61, right associativity).

(** [context.params.push(v)] *)
Definition push (v : value) : M unit :=
  fun c => Ok (tt, mkContext (params c ++ [v])%list (paramCounter c)
                     (requiredTables c) (periodSubqueries c)).

(** ['$' + context.paramCounter++] *)
Definition placeholder : M string :=
  fun c => Ok ("$" ++ string_of_nat (paramCounter c),
               mkContext (params c) (S (paramCounter c))
                 (requiredTables c) (periodSubqueries c)).

(** [context.paramCounter] *)
Definition counter : M nat := fun c => Ok (paramCounter c, c).

(** [context.requiredTables.add(t)] *)
Definition add_table (t : string) : M unit :=
  fun c => Ok (tt, mkContext (params c) (paramCounter c)
                     (if str_in t (requiredTables c) then requiredTables c
                      else (requiredTables c ++ [t])%list)
                     (periodSubqueries c)).

(** [items.map(f)] for an [f] that works on the context. *)
Fixpoint mapM {A B} (f : A -> M B) (items : list A) {struct items} : M (list B) :=
  match items with
  | [] => ret []
  | item :: more => y <- f item ;; ys <- mapM f more ;; ret (y :: ys)
  end.

(** The text of an operator spliced into the SQL; a value that is not a
    string would be turned into a text first. *)
Definition op_text (operator : value) : M string :=
  match operator with
  | VStr s => ret s
  | _ => beyond
  end.

(** [_getTableAlias(tableName)], on the table names of [FIELD_TABLE_MAP] *)
Definition _getTableAlias (tableName : string) : string :=
  if String.eqb tableName "companies" then "c"
  else if String.eqb tableName "fundamentals_quarterly" then "fq"
  else if String.eqb tableName "price_history" then "ph"
  else if String.eqb tableName "debt_profile" then "dp"
  else if String.eqb tableName "cashflow_statements" then "cs"
  else if String.eqb tableName "analyst_estimates" then "ae"
  else tableName.

(** [_invertOperator(op)]: [map[op] || op] *)
Definition _invertOperator (op : string) : string :=
  if String.eqb op ">" then "<="
  else if String.eqb op "<" then ">="
  else if String.eqb op ">=" then "<"
  else if String.eqb op "<=" then ">"
  else if String.eqb op "=" then "!="
  else if String.eqb op "!=" then "="
  else op.

(** [v[i]] for [i] = 0, 1 *)
Definition index (v : value) (i : nat) : M value :=
  match v with
  | VUndef | VNull => throw TypeError
  | VArr items => ret (nth i items VUndef)
  | VStr s => ret (match String.get i s with
                   | Some ch => VStr (String ch EmptyString)
                   | None => VUndef
                   end)
  | VObj props => ret (assoc (string_of_nat i) props)
  | _ => ret VUndef
  end.

(** [_compileOperator(colRef, condition, context)] *)
Definition _compileOperator (colRef : string) (condition : value) : M string :=
  let operator := get condition "operator" in
  let val := get condition "value" in
  match operator with
  | VStr op =>
      if str_in op ["<"; ">"; "<="; ">="; "="; "!="] then
        push val ;;;
        p <- placeholder ;;
        ret (colRef ++ " " ++ op ++ " " ++ p)
      else if String.eqb op "between" then
        v0 <- index val 0 ;;
        v1 <- index val 1 ;;
        push v0 ;;; push v1 ;;;
        p0 <- placeholder ;;
        p1 <- placeholder ;;
        ret (colRef ++ " BETWEEN " ++ p0 ++ " AND " ++ p1)
      else if String.eqb op "in" then
        match val with
        | VArr items =>
            placeholders <- mapM (fun _ => placeholder) items ;;
            mapM push items ;;;
            ret (colRef ++ " IN (" ++ join ", " placeholders ++ ")")
        | _ => throw TypeError
        end
      else if String.eqb op "exists" then
        ret (if truthy val then colRef ++ " IS NOT NULL" else colRef ++ " IS NULL")
      else throw (UnsupportedOperator operator)
  | _ => throw (UnsupportedOperator operator)
  end.

(** [_compilePeriodCondition(condition, fieldInfo, context)] *)
Definition _compilePeriodCondition (condition : value) (fi : fieldInfo) : M string :=
  let period := get condition "period" in
  let n := get period "n" in
  let aggregation :=
    if is_undefined (get period "aggregation") then VStr "all"
    else get period "aggregation" in
  let col := column fi in
  pc <- counter ;;
  let subAlias := "pq_" ++ string_of_nat pc in
  if is_str aggregation "all" then
    op <- op_text (get condition "operator") ;;
    (if str_in op prototype_keys then beyond else ret tt) ;;;
    let invertedOp := _invertOperator op in
    push (get condition "value") ;;;
    valParam <- placeholder ;;
    push n ;;;
    nParam <- placeholder ;;
    ret (join " "
      [ "NOT EXISTS (";
        "  SELECT 1 FROM (";
        "    SELECT " ++ col ++ " FROM fundamentals_quarterly";
        "    WHERE ticker = c.ticker AND " ++ col ++ " IS NOT NULL";
        "    ORDER BY id DESC LIMIT " ++ nParam;
        "  ) " ++ subAlias;
        "  WHERE " ++ subAlias ++ "." ++ col ++ " " ++ invertedOp ++ " " ++ valParam;
        ")" ])
  else if is_str aggregation "any" then
    op <- op_text (get condition "operator") ;;
    push (get condition "value") ;;;
    valParam <- placeholder ;;
    push n ;;;
    nParam <- placeholder ;;
    ret (join " "
      [ "EXISTS (";
        "  SELECT 1 FROM (";
        "    SELECT " ++ col ++ " FROM fundamentals_quarterly";
        "    WHERE ticker = c.ticker AND " ++ col ++ " IS NOT NULL";
        "    ORDER BY id DESC LIMIT " ++ nParam;
        "  ) " ++ subAlias;
        "  WHERE " ++ subAlias ++ "." ++ col ++ " " ++ op ++ " " ++ valParam;
        ")" ])
  else if is_str aggregation "avg" || is_str aggregation "sum" then
    op <- op_text (get condition "operator") ;;
    let aggFn := match aggregation with VStr a => toUpperCase a | _ => "" end in
    push n ;;;
    nParam <- placeholder ;;
    push (get condition "value") ;;;
    valParam <- placeholder ;;
    ret (join " "
      [ "(";
        "  SELECT " ++ aggFn ++ "(" ++ subAlias ++ "." ++ col ++ ") FROM (";
        "    SELECT " ++ col ++ " FROM fundamentals_quarterly";
        "    WHERE ticker = c.ticker AND " ++ col ++ " IS NOT NULL";
        "    ORDER BY id DESC LIMIT " ++ nParam;
        "  ) " ++ subAlias;
        ") " ++ op ++ " " ++ valParam ])
  else
    add_table (table fi) ;;;
    _compileOperator (_getTableAlias (table fi) ++ "." ++ col) condition.

(** [_compileCondition(condition, context)] *)
Definition _compileCondition (condition : value) : M string :=
  let field := get condition "field" in
  ofi <- lift (lookup_field field) ;;
  match ofi with
  | None => throw (UnknownField field)
  | Some fieldInfo =>
      if truthy (get condition "value_is_field") then
        oother <- lift (lookup_field (get condition "value")) ;;
        match oother with
        | None => throw (UnknownComparisonField (get condition "value"))
        | Some otherFieldInfo =>
            add_table (table fieldInfo) ;;;
            add_table (table otherFieldInfo) ;;;
            op <- op_text (get condition "operator") ;;
            ret (_getTableAlias (table fieldInfo) ++ "." ++ column fieldInfo
                 ++ " " ++ op ++ " "
                 ++ _getTableAlias (table otherFieldInfo) ++ "." ++ column otherFieldInfo)
        end
      else if includes ["sector"; "exchange"; "industry"] field then
        add_table (table fieldInfo) ;;;
        _compileOperator (_getTableAlias (table fieldInfo) ++ "." ++ column fieldInfo)
          condition
      else if includes ["last_buyback_date"; "next_earnings_date"] field
              && is_str (get condition "operator") "exists" then
        add_table (table fieldInfo) ;;;
        let colRef := _getTableAlias (table fieldInfo) ++ "." ++ column fieldInfo in
        ret (if truthy (get condition "value")
             then colRef ++ " IS NOT NULL" else colRef ++ " IS NULL")
      else if derived fieldInfo then
        add_table (table fieldInfo) ;;;
        match sql fieldInfo with
        | Some f => _compileOperator (f (_getTableAlias (table fieldInfo))) condition
        | None => throw TypeError
        end
      else if truthy (get condition "period")
              && str_in (table fieldInfo) PERIOD_CAPABLE_TABLES then
        _compilePeriodCondition condition fieldInfo
      else if String.eqb (table fieldInfo) "fundamentals_quarterly" then
        add_table (table fieldInfo) ;;;
        let col := column fieldInfo in
        let subRef :=
          "(SELECT fq_sub." ++ col
          ++ " FROM fundamentals_quarterly fq_sub"
          ++ " WHERE fq_sub.ticker = c.ticker AND fq_sub." ++ col ++ " IS NOT NULL"
          ++ " ORDER BY fq_sub.id DESC LIMIT 1)" in
        _compileOperator subRef condition
      else
        add_table (table fieldInfo) ;;;
        _compileOperator (_getTableAlias (table fieldInfo) ++ "." ++ column fieldInfo)
          condition
  end.

(** [_isCondition(obj)]: [obj && obj.field && obj.operator] *)
Definition _isCondition (obj : value) : bool :=
  truthy obj && truthy (get obj "field") && truthy (get obj "operator").

(** [_compileLogical(conditions, joiner, context)], given the function
    that compiles a nested filter. *)
Definition _compileLogical_with (compileFilter : value -> M string)
  (conditions : value) (joiner : string) : M string :=
  match conditions with
  | VArr items =>
      compiled <- mapM (fun cond =>
                    if _isCondition cond then _compileCondition cond
                    else s <- compileFilter cond ;; ret ("(" ++ s ++ ")")) items ;;
      let joined := join (" " ++ joiner ++ " ") compiled in
      ret (if String.eqb joiner "OR" then "(" ++ joined ++ ")" else joined)
  | _ => throw TypeError
  end.

(** [_compileFilter(filter, context)].  The source recurses through the
    properties it reads; [fuel] bounds that recursion (see [compile]). *)
Fixpoint _compileFilter (fuel : nat) (filter : value) : M string :=
  match fuel with
  | O => fun _ => NoFuel
  | S fuel' =>
      if negb (truthy filter) then ret "1=1"
      else if truthy (get filter "and") then
        _compileLogical_with (_compileFilter fuel') (get filter "and") "AND"
      else if truthy (get filter "or") then
        _compileLogical_with (_compileFilter fuel') (get filter "or") "OR"
      else if truthy (get filter "not") then
        s <- (if _isCondition (get filter "not")
              then _compileCondition (get filter "not")
              else _compileFilter fuel' (get filter "not")) ;;
        ret ("NOT (" ++ s ++ ")")
      else ret "1=1"
  end.

Definition _compileLogical (fuel : nat) : value -> string -> M string :=
  _compileLogical_with (_compileFilter fuel).

Definition nl : string := String (ascii_of_nat 10) EmptyString.

Definition lateral (tbl key alias : string) : string :=
  "LEFT JOIN LATERAL (" ++ nl ++
  "  SELECT * FROM " ++ tbl ++ nl ++
  "  WHERE ticker = c.ticker" ++ nl ++
  "  ORDER BY " ++ key ++ " DESC" ++ nl ++
  "  LIMIT 1" ++ nl ++
  ") " ++ alias ++ " ON true".

(** [_generateJoins(requiredTables)] *)
Definition _generateJoins (requiredTables : list string) : string :=
  join nl
    ((if str_in "fundamentals_quarterly" requiredTables
      then [lateral "fundamentals_quarterly" "id" "fq"] else [])
     ++ (if str_in "price_history" requiredTables
         then [lateral "price_history" "time" "ph"] else [])
     ++ (if str_in "debt_profile" requiredTables
         then [lateral "debt_profile" "id" "dp"] else [])
     ++ (if str_in "cashflow_statements" requiredTables
         then [lateral "cashflow_statements" "id" "cs"] else [])
     ++ (if str_in "analyst_estimates" requiredTables
         then [lateral "analyst_estimates" "estimate_date" "ae"] else []))%list.

(** [_compileSort(sort)] *)
Definition _compileSort (sort : value) : outcome string :=
  let items := match sort with VArr l => l | _ => [sort] end in
  obind
    ((fix each (l : list value) : outcome (list string) :=
        match l with
        | [] => Ok []
        | s :: r =>
            if nullish s then Throw TypeError
            else
              obind (lookup_field (get s "field")) (fun ofi =>
              match ofi with
              | None => Throw TypeError
              | Some fi =>
                  match or_else (get s "direction") (VStr "ASC") with
                  | VStr d =>
                      obind (each r) (fun rest =>
                        Ok ((_getTableAlias (table fi) ++ "." ++ column fi ++ " "
                             ++ toUpperCase d ++ " NULLS LAST") :: rest))
                  | _ => Throw TypeError
                  end
              end)
        end) items)
    (fun parts => Ok (join ", " parts)).

(** The helper [_fq] of [compile]. *)
Definition _fq (col : string) : string :=
  "  COALESCE(fq." ++ col ++ ", (SELECT _f." ++ col ++
  " FROM fundamentals_quarterly _f WHERE _f.ticker = c.ticker AND _f." ++
  col ++ " IS NOT NULL ORDER BY _f.id DESC LIMIT 1)) AS " ++ col ++ ",".

(** [compile(dsl)] with the recursion bound [fuel]. *)
Definition compile_with (fuel : nat) (dsl : value) : outcome compiled :=
  if nullish dsl then Throw TypeError
  else
    let context := mkContext [] 1 ["companies"] [] in
    obind
      ((whereClause <- _compileFilter fuel (get dsl "filter") ;;
        add_table "price_history" ;;;
        add_table "fundamentals_quarterly" ;;;
        ret whereClause) context)
      (fun '(whereClause, context) =>
         let joins := _generateJoins (requiredTables context) in
         let periodJoins := join (nl ++ "      ") (periodSubqueries context) in
         obind (if truthy (get dsl "sort") then _compileSort (get dsl "sort")
                else Ok "c.market_cap DESC NULLS LAST")
           (fun orderBy =>
              let limit := or_else (get dsl "limit") (VNum 100) in
              let sql :=
                join nl
                  (filter (fun s => negb (String.eqb s ""))
                     [ "SELECT DISTINCT";
                       "  c.ticker,";
                       "  c.name,";
                       "  c.sector,";
                       "  c.industry,";
                       "  c.exchange,";
                       "  c.market_cap,";
                       "  c.promoter_holding,";
                       "  c.next_earnings_date,";
                       "  c.last_buyback_date,";
                       _fq "pe_ratio";
                       _fq "pb_ratio";
                       _fq "roe";
                       _fq "roa";
                       _fq "revenue";
                       _fq "net_income";
                       _fq "eps";
                       _fq "operating_margin";
                       _fq "ebitda_margin";
                       _fq "peg_ratio";
                       _fq "ebitda";
                       _fq "debt_to_equity";
                       _fq "current_ratio";
                       _fq "total_debt";
                       _fq "total_assets";
                       _fq "free_cash_flow";
                       _fq "operating_cash_flow";
                       _fq "revenue_growth_yoy";
                       "  COALESCE(fq.ebitda_growth_yoy, (SELECT _f.ebitda_growth_yoy FROM fundamentals_quarterly _f WHERE _f.ticker = c.ticker AND _f.ebitda_growth_yoy IS NOT NULL ORDER BY _f.id DESC LIMIT 1)) AS ebitda_growth_yoy,";
                       "  ph.close AS current_price,";
                       "  ph.open,";
                       "  ph.high,";
                       "  ph.low,";
                       "  ph.volume";
                       "FROM companies c";
                       joins;
                       periodJoins;
                       "WHERE " ++ whereClause;
                       "ORDER BY " ++ orderBy;
                       "LIMIT $" ++ string_of_nat (paramCounter context) ]) in
              Ok (mkCompiled sql (params context ++ [limit])%list (requiredTables context))))
  .

(** [compile(dsl)] with all the room the document needs: the nesting
    depth of [dsl] bounds the recursion.  [Run.compile] is the call on a
    stack of a given size. *)
Definition compile (dsl : value) : outcome compiled :=
  compile_with (S (vdepth dsl)) dsl.

End Compiler.

(* ================================================================== *)
(** * Exceptions of the runtime: messages and the call stack *)
(* ================================================================== *)

(** [Validator] keeps each error as a constructor and follows the
    recursion of [_validateFilter] to its end; [Compiler.compile] gives
    [_compileFilter] all the room the document needs.  The program
    itself builds the text of each error where it is pushed, and recurses
    on a call stack of finite size.  This module has the validator and
    the compiler with both: a message that cannot be built throws a
    [TypeError], a call the stack has no room for throws a [RangeError].
    [stack] is the number of nested calls of the recursive function,
    each with the calls it makes in turn, that the stack has room for.
    [errors.push(...more)] is the append of two lists (the limit of the
    runtime on the number of arguments of one call is not modelled). *)
Module Run.

Import Validator Compiler.

(** The object has a property [k] of its own. *)
Fixpoint has_key (k : string) (props : list (string * value)) : bool :=
  match props with
  | [] => false
  | (k', _) :: r => String.eqb k k' || has_key k r
  end.

(** The text of an element of an array that is turned into text:
    [null] and [undefined] give the empty text; an object gives
    [[object Object]] unless it has a property [toString] of its own,
    which is no function and leaves the object without a text.  The text
    of an array inside the array is built by a recursion of the runtime's
    own, outside the model. *)
Definition quote_item (v : value) : outcome unit :=
  match v with
  | VObj props => if has_key "toString" props then Throw TypeError else Ok tt
  | VArr _ => Beyond
  | _ => Ok tt
  end.

Fixpoint quote_items (items : list value) : outcome unit :=
  match items with
  | [] => Ok tt
  | v :: more => obind (quote_item v) (fun _ => quote_items more)
  end.

(** ['...: ' + v]: whether the text of [v] can be built.  The text
    itself is not kept. *)
Definition quote (v : value) : outcome unit :=
  match v with
  | VObj props => if has_key "toString" props then Throw TypeError else Ok tt
  | VArr items => quote_items items
  | _ => Ok tt
  end.

(** Building the message of an error. *)
Definition message (e : verror) : outcome unit :=
  match e with
  | EInvalidField v | EInvalidOperator v | ECrossFieldValue v
  | EInvalidAggregation v | EInvalidSortField v | EInvalidSortDirection v => quote v
  | _ => Ok tt
  end.

(** Building the messages of the errors, in the order they are pushed. *)
Fixpoint messages (es : list verror) : outcome unit :=
  match es with
  | [] => Ok tt
  | e :: more => obind (message e) (fun _ => messages more)
  end.

(** [_validateCondition(condition)]: between two pushes the function
    only reads the condition, and it writes the legacy period after the
    last push; so the call ends at the first message that cannot be
    built, and otherwise returns what [Validator._validateCondition]
    computes. *)
Definition _validateCondition (condition : value) : outcome (list verror * value) :=
  obind (messages (fst (Validator._validateCondition condition)))
    (fun _ => Ok (Validator._validateCondition condition)).

Section FilterLoops.

Variable validateFilter : value -> outcome (list verror * value).

(** [for (const condition of filter[key]) { ... }] *)
Fixpoint conditions_loop (items : list value) : outcome (list verror * list value) :=
  match items with
  | [] => Ok ([], [])
  | condition :: more =>
      obind
        (if Validator._isCondition condition then _validateCondition condition
         else if jstype_eqb (typeof condition) TObject then validateFilter condition
         else Ok ([EInvalidConditionInFilter], condition))
        (fun '(ec, c') =>
           obind (conditions_loop more)
             (fun '(em, more') => Ok (ec ++ em, c' :: more')))
  end.

(** The body of [for (const key of Object.keys(filter))] *)
Definition filter_key (key : string) (v : value) : outcome (list verror * value) :=
  if str_in key ALLOWED_LOGICAL_OPERATORS then
    match v with
    | VArr items =>
        obind (conditions_loop items) (fun '(e, items') => Ok (e, VArr items'))
    | _ => Ok ([ELogicalNotArray key], v)
    end
  else Ok ([EUnknownFilterOperator key], v).

Fixpoint keys_loop (props : list (string * value))
  : outcome (list verror * list (string * value)) :=
  match props with
  | [] => Ok ([], [])
  | (key, v) :: rest =>
      obind (filter_key key v)
        (fun '(e1, v') =>
           obind (keys_loop rest)
             (fun '(e2, rest') => Ok (e1 ++ e2, (key, v') :: rest')))
  end.

End FilterLoops.

(** [_validateFilter(filter)] on a stack with room for [stack] nested
    calls of it. *)
Fixpoint _validateFilter (stack : nat) (filter : value)
  : outcome (list verror * value) :=
  match stack with
  | O => Throw RangeError
  | S room =>
      match filter with
      | VObj props =>
          obind (keys_loop (_validateFilter room) props)
            (fun '(e, props') => Ok (e, VObj props'))
      | VArr items =>
          Ok (map (fun i => EUnknownFilterOperator (string_of_nat i))
                (seq 0 (length items)),
              filter)
      | _ => Ok ([EFilterNotObject], filter)
      end
  end.

(** [_validateSort(sort)] *)
Fixpoint sort_items (items : list value) : outcome (list verror) :=
  match items with
  | [] => Ok []
  | sortItem :: rest =>
      if nullish sortItem then Throw TypeError
      else
        let field := get sortItem "field" in
        let direction := get sortItem "direction" in
        obind
          (if negb (truthy field) then Ok [ESortNoField]
           else if negb (includes ALLOWED_FIELDS field)
                then obind (quote field) (fun _ => Ok [EInvalidSortField field])
                else Ok [])
          (fun e1 =>
             obind
               (if truthy direction then
                  match direction with
                  | VStr d =>
                      Ok (if negb (str_in (toLowerCase d) ["asc"; "desc"])
                          then [EInvalidSortDirection direction] else [])
                  | _ => Throw TypeError
                  end
                else Ok [])
               (fun e2 => obind (sort_items rest) (fun es => Ok (e1 ++ e2 ++ es))))
  end.

Definition _validateSort (sort : value) : outcome (list verror) :=
  match sort with
  | VArr items => sort_items items
  | _ => Ok [ESortNotArray]
  end.

(** [validate(dsl)] *)
Definition validate (stack : nat) (dsl : value) : outcome result :=
  if negb (truthy dsl) || negb (jstype_eqb (typeof dsl) TObject) then
    Ok (mkResult false [EDslNotObject] VNull)
  else if negb (truthy (get dsl "filter")) then
    Ok (mkResult false [ENoFilter] VNull)
  else
    obind (_validateFilter stack (get dsl "filter"))
      (fun '(filterErrors, filter') =>
         let dsl' := set dsl "filter" filter' in
         obind (if truthy (get dsl "sort") then _validateSort (get dsl "sort")
                else Ok [])
           (fun sortErrors =>
              let limitErrors :=
                if negb (is_undefined (get dsl "limit"))
                then _validateLimit (get dsl "limit") else [] in
              let errors := filterErrors ++ sortErrors ++ limitErrors in
              Ok (mkResult (length errors =? 0)%nat errors
                    (if (length errors =? 0)%nat then dsl' else VNull)))).

(** The validator accepts [dsl]: it returns, with [valid] true. *)
Definition accepts (stack : nat) (dsl : value) : bool :=
  match validate stack dsl with
  | Ok r => valid r
  | _ => false
  end.

(** [compile(dsl)] on a stack with room for [stack] nested calls of
    [_compileFilter]. *)
Definition compile (stack : nat) (dsl : value) : outcome compiled :=
  match compile_with stack dsl with
  | NoFuel => Throw RangeError
  | o => o
  end.

End Run.

(* ================================================================== *)
(** * Alert processor ([AlertProcessor], second part of
      [validator.service.js]) *)
(* ================================================================== *)

Module Alerts.

(** A row of [alert_subscriptions].  Times are milliseconds; [None] is
    SQL [NULL]. *)
Record alert := mkAlert {
  id : nat;
  user_id : nat;
  ticker : option string;
  alert_name : string;
  alert_type : string;
  condition_json : value;
  is_active : bool;
  last_triggered : option Z;
  trigger_count : nat;
  last_evaluated : option Z
}.

(** The company metadata the evaluator reads.  The driver returns a date
    column as a [Date] object, modelled by its time value; [None] is
    [null]. *)
Record metadata := mkMetadata {
  next_earnings_date : option Z;
  last_buyback_date : option Z
}.

(** The [message] of a triggered alert; each constructor stands for one
    template of [evaluateAlert] and carries the values it quotes. *)
Inductive message :=
| MsgNone                                        (** [''] *)
| MsgPrice (price : value)                       (** [`Price reached ${quote.price}`] *)
| MsgEarnings (date : Z)                         (** [`Earnings report coming up on ...`] *)
| MsgBuyback (date : Z)                          (** [`Buyback announced on ...`] *)
| MsgFundamental (metricName : string) (fundamentals metric operator val : value).
    (** [`${metricName.toUpperCase()} is ${fundamentals[metric]} (${operator} ${val})`] *)

(** A row of [notifications]. *)
Record notification := mkNotification {
  n_user_id : nat;
  n_alert_id : nat;
  n_ticker : option string;
  n_title : string;
  n_message : message;
  triggered_at : Z
}.

(** The data store, and the clock every [NOW()] reads. *)
Record world := mkWorld {
  clock : Z;
  alert_subscriptions : list alert;
  notifications : list notification
}.

Definition day : Z := 86400000.

(** [this.checkInterval] *)
Definition checkInterval : Z := 60000.

(** [checkPriceThreshold(condition, currentPrice)] *)
Definition checkPriceThreshold (condition currentPrice : value) : outcome bool :=
  let operator := get condition "operator" in
  let val := get condition "value" in
  let threshold_percent := get condition "threshold_percent" in
  if truthy threshold_percent && negb (truthy val) then Ok false
  else if negb (truthy val) then Ok false
  else if is_str operator ">" then js_gt currentPrice val
  else if is_str operator ">=" then js_ge currentPrice val
  else if is_str operator "<" then js_lt currentPrice val
  else if is_str operator "<=" then js_le currentPrice val
  else if is_str operator "=" then Ok (strict_eq currentPrice val)
  else Ok false.

(** [Math.ceil(a / b)] and [Math.floor(a / b)] on whole milliseconds. *)
Definition ceil_div (a b : Z) : Z := (- ((- a) / b))%Z.
Definition floor_div (a b : Z) : Z := (a / b)%Z.

(** [checkEarningsUpcoming(condition, nextEarningsDate)], [today] being
    the time [new Date()] reads. *)
Definition checkEarningsUpcoming (today : Z) (condition : value) (nextEarningsDate : Z)
  : outcome bool :=
  if negb (truthy (get condition "days_before")) then Ok false
  else
    let diffTime := (nextEarningsDate - today)%Z in
    let diffDays := ceil_div diffTime day in
    obind (js_le (VNum (inject_Z diffDays)) (get condition "days_before"))
      (fun within => Ok ((0 <=? diffDays)%Z && within)).

(** [checkBuybackAnnounced(condition, lastBuybackDate)] *)
Definition checkBuybackAnnounced (today : Z) (condition : value) (lastBuybackDate : Z)
  : outcome bool :=
  if negb (truthy (get condition "days_lookback")) then Ok false
  else
    let diffTime := (today - lastBuybackDate)%Z in
    let diffDays := floor_div diffTime day in
    obind (js_le (VNum (inject_Z diffDays)) (get condition "days_lookback"))
      (fun within => Ok ((0 <=? diffDays)%Z && within)).

(** [fundamentals[metric]]: the own property, else the member inherited
    under that name; a key that is not text is first turned into one. *)
Definition read_metric (fundamentals metric : value) : outcome value :=
  match metric with
  | VStr k =>
      match get fundamentals k with
      | VUndef => Ok (if str_in k prototype_keys then VFun else VUndef)
      | v => Ok v
      end
  | _ => Beyond
  end.

Definition isNaN (n : num) : bool := match n with NaN => true | Fin _ => false end.

(** [checkFundamentalCondition(condition, fundamentals)] *)
Definition checkFundamentalCondition (condition fundamentals : value) : outcome bool :=
  let fundamental_metric := get condition "fundamental_metric" in
  let fundamental_operator := get condition "fundamental_operator" in
  let fundamental_value := get condition "fundamental_value" in
  if negb (truthy fundamental_metric) || negb (truthy fundamental_value)
     || negb (truthy fundamentals)
  then Ok false
  else
    obind (read_metric fundamentals fundamental_metric) (fun raw =>
    obind (ToNumber raw) (fun actualValue =>
      if isNaN actualValue then Ok false
      else
        obind (ToNumber fundamental_value) (fun targetValue =>
          match actualValue, targetValue with
          | Fin a, Fin t =>
              if is_str fundamental_operator "above" then Ok (negb (Qle_bool a t))
              else if is_str fundamental_operator "below" then Ok (negb (Qle_bool t a))
              else if is_str fundamental_operator "equals" then Ok (Qeq_bool a t)
              else Ok false
          | _, _ => Ok false
          end))).

(** The [switch] of [evaluateAlert]: the [triggered] flag and the
    message it computes from the fetched data. *)
Definition evaluation (today : Z) (a : alert) (quote : value) (meta : option metadata)
  (fundamentals : value) : outcome (bool * message) :=
  let condition := or_else (condition_json a) (VObj []) in
  let ty := alert_type a in
  if String.eqb ty "price_threshold" || String.eqb ty "price_below_buy_price" then
    if truthy quote then
      obind (checkPriceThreshold condition (get quote "price"))
        (fun t => Ok (t, MsgPrice (get quote "price")))
    else Ok (false, MsgNone)
  else if String.eqb ty "price_vs_analyst" then Ok (false, MsgNone)
  else if String.eqb ty "earnings_upcoming" then
    match meta with
    | Some (mkMetadata (Some d) _) =>
        obind (checkEarningsUpcoming today condition d) (fun t => Ok (t, MsgEarnings d))
    | _ => Ok (false, MsgNone)
    end
  else if String.eqb ty "buyback_announced" then
    match meta with
    | Some (mkMetadata _ (Some d)) =>
        obind (checkBuybackAnnounced today condition d) (fun t => Ok (t, MsgBuyback d))
    | _ => Ok (false, MsgNone)
    end
  else if String.eqb ty "fundamental_condition" then
    if truthy fundamentals then
      obind (checkFundamentalCondition condition fundamentals) (fun t =>
        match or_else (get condition "fundamental_metric") (VStr "Metric") with
        | VStr metricName =>
            Ok (t, MsgFundamental (toUpperCase metricName) fundamentals
                     (get condition "fundamental_metric")
                     (get condition "fundamental_operator")
                     (get condition "fundamental_value"))
        | _ => Throw TypeError
        end)
    else Ok (false, MsgNone)
  else Ok (false, MsgNone).

(** [triggerAlert(alert, triggerMessage, quote)]: the [INSERT] into
    [notifications] and the [UPDATE] of the alert's row, both at the
    clock's time.  Every statement sent to the store succeeds. *)
Definition triggerAlert (a : alert) (triggerMessage : message) (w : world) : world :=
  let now := clock w in
  mkWorld now
    (map (fun r =>
            if (id r =? id a)%nat then
              mkAlert (id r) (user_id r) (ticker r) (alert_name r) (alert_type r)
                (condition_json r) (is_active r) (Some now) (S (trigger_count r))
                (Some now)
            else r)
         (alert_subscriptions w))
    (notifications w ++
       [mkNotification (user_id a) (id a) (ticker a) ("Alert: " ++ alert_name a)
          triggerMessage now]).

(** Whether [evaluateAlert] goes on to trigger the alert: [triggered] as
    it stands at [if (triggered)]; an exception on the way is caught and
    logged, and nothing is triggered. *)
Definition triggered (today : Z) (a : alert) (quote : value) (meta : option metadata)
  (fundamentals : value) : outcome bool :=
  match evaluation today a quote meta fundamentals with
  | Ok (t, _) => Ok t
  | Throw _ => Ok false
  | Beyond => Beyond
  | NoFuel => NoFuel
  end.

(** [evaluateAlert(alert, quote, metadata, fundamentals)] *)
Definition evaluateAlert (a : alert) (quote : value) (meta : option metadata)
  (fundamentals : value) (w : world) : outcome world :=
  match evaluation (clock w) a quote meta fundamentals with
  | Ok (true, msg) => Ok (triggerAlert a msg w)
  | Ok (false, _) => Ok w
  | Throw _ => Ok w
  | Beyond => Beyond
  | NoFuel => NoFuel
  end.

(** The rows of the query of [processAlerts]:
    [is_active = true AND (last_triggered IS NULL
       OR last_triggered < NOW() - INTERVAL '1 day')] *)
Definition due (now : Z) (a : alert) : bool :=
  is_active a &&
  match last_triggered a with
  | None => true
  | Some t => (t <? now - day)%Z
  end.

Definition select_due (w : world) : list alert :=
  filter (due (clock w)) (alert_subscriptions w).

(** [alerts.reduce(...)]: the alerts with a ticker, grouped under it, in
    the order the tickers first appear.  A ticker that spells a name
    every object inherits ([constructor], ...) finds the inherited member
    where a group is looked up, and the call ends in the [catch] of
    [processAlerts] before any alert is evaluated; tickers are taken to
    be exchange symbols, and such a ticker is not modelled. *)
Fixpoint group_add (t : string) (a : alert) (acc : list (string * list alert))
  : list (string * list alert) :=
  match acc with
  | [] => [(t, [a])]
  | (t', l) :: r =>
      if String.eqb t t' then (t', l ++ [a]) :: r else (t', l) :: group_add t a r
  end.

Definition alertsByTicker (alerts : list alert) : list (string * list alert) :=
  fold_left (fun acc a =>
               match ticker a with
               | Some t => if String.eqb t "" then acc else group_add t a acc
               | None => acc
               end)
    alerts [].

(** A key that [Object.entries] lists as an array index: a canonical
    numeral below 2^32 - 1. *)
Fixpoint all_digits (s : string) : bool :=
  match s with
  | EmptyString => true
  | String c r => is_digit c && all_digits r
  end.

Definition index_key (s : string) : option Z :=
  match s with
  | EmptyString => None
  | String c r =>
      if all_digits s && (negb (Ascii.eqb c "0") || String.eqb r "") then
        let '(n, _, _) := digits s 0%Z 0%nat in
        if (n <? 4294967295)%Z then Some n else None
      else None
  end.

Fixpoint insert_index (n : Z) (g : string * list alert)
  (l : list (Z * (string * list alert))) : list (Z * (string * list alert)) :=
  match l with
  | [] => [(n, g)]
  | (m, h) :: r => if (n <? m)%Z then (n, g) :: l else (m, h) :: insert_index n g r
  end.

(** [Object.entries(alertsByTicker)]: index-like keys first, ascending,
    then the other keys in insertion order. *)
Definition entries (groups : list (string * list alert)) : list (string * list alert) :=
  map snd
    (fold_left (fun acc g => match index_key (fst g) with
                             | Some n => insert_index n g acc
                             | None => acc
                             end) groups [])
  ++ filter (fun g => match index_key (fst g) with Some _ => false | None => true end)
       groups.

(** One turn of the loop over the ticker groups: the three fetches have
    returned [quote], [metadata] and [fundamentals] ([null] where a fetch
    failed), and the alerts of the group are evaluated in turn. *)
Definition process_group (tickerAlerts : list alert) (quote : value)
  (meta : option metadata) (fundamentals : value) (w : world) : outcome world :=
  if negb (truthy quote) && match meta with None => true | Some _ => false end
     && negb (truthy fundamentals)
  then Ok w
  else fold_left (fun ow a => obind ow (evaluateAlert a quote meta fundamentals))
         tickerAlerts (Ok w).

(** A call of [processAlerts] that has run its query and still has the
    listed ticker groups to go through. *)
Definition cycle := list (string * list alert).

(** The processor at work: the store, the calls of [processAlerts] in
    flight, and the time the interval timer next fires. *)
Record system := mkSystem {
  store : world;
  running : list (nat * cycle);
  timer_due : Z
}.

(** What happens next.  [processAlerts] is asynchronous: it gives up
    control at its query and at the fetches of each ticker group, and
    the timer set by [start] calls it again every [checkInterval]
    whether or not the previous call has returned.
    - [Tick d]: [d] milliseconds pass;
    - [Begin c]: the timer fires and call [c] of [processAlerts] runs its
      query;
    - [Group c q m f]: the fetches of call [c] for its next ticker return
      [q], [m], [f], and the alerts of that ticker are evaluated. *)
Inductive event :=
| Tick (d : Z)
| Begin (c : nat)
| Group (c : nat) (quote : value) (meta : option metadata) (fundamentals : value).

Fixpoint take_group (c : nat) (rs : list (nat * cycle))
  : option (list alert * list (nat * cycle)) :=
  match rs with
  | [] => None
  | (c', groups) :: rest =>
      if (c =? c')%nat then
        match groups with
        | [] => None
        | (_, tickerAlerts) :: more => Some (tickerAlerts, (c', more) :: rest)
        end
      else
        match take_group c rest with
        | Some (g, rest') => Some (g, (c', groups) :: rest')
        | None => None
        end
  end.

(** One event; an event that cannot happen in the state leaves it as it
    is. *)
Definition step (s : system) (e : event) : outcome system :=
  match e with
  | Tick d =>
      if (0 <=? d)%Z then
        Ok (mkSystem (mkWorld (clock (store s) + d) (alert_subscriptions (store s))
                        (notifications (store s)))
              (running s) (timer_due s))
      else Ok s
  | Begin c =>
      if (timer_due s <=? clock (store s))%Z then
        Ok (mkSystem (store s)
              (running s ++ [(c, entries (alertsByTicker (select_due (store s))))])
              (timer_due s + checkInterval))
      else Ok s
  | Group c q m f =>
      match take_group c (running s) with
      | Some (tickerAlerts, running') =>
          obind (process_group tickerAlerts q m f (store s))
            (fun w => Ok (mkSystem w running' (timer_due s)))
      | None => Ok s
      end
  end.

Definition run (s : system) (trace : list event) : outcome system :=
  fold_left (fun os e => obind os (fun s => step s e)) trace (Ok s).

(** [start()] at time [t0]: the first call is made at once. *)
Definition started (t0 : Z) (rows : list alert) : system :=
  mkSystem (mkWorld t0 rows []) [] t0.

End Alerts.

(* ================================================================== *)
(** * Regular expressions, as the translator uses them *)
(* ================================================================== *)

Module Regex.

(** A character class. *)
Inductive cls :=
| Any                       (** [.]: any character but a line terminator *)
| Chr (c : ascii)
| Space                     (** [\s] *)
| Digit                     (** [\d] *)
| Word                      (** [\w] *)
| Range (lo hi : ascii)     (** [lo-hi] inside brackets *)
| Union (a b : cls)
| Neg (a : cls).            (** [[^...]] *)

(** A pattern.  [Group i a] is the [i]-th capturing group; a
    non-capturing group is its body.  [Star true a] is [a*],
    [Star false a] is [a*?]. *)
Inductive re :=
| Eps
| One (c : cls)
| Seq (a b : re)
| Alt (a b : re)
| Star (greedy : bool) (a : re)
| Group (i : nat) (a : re)
| Bol                       (** [^] *)
| Eol                       (** [$] *)
| WordB.                    (** [\b] *)

Definition is_word (c : ascii) : bool :=
  let n := nat_of_ascii c in
  is_digit c || ((65 <=? n)%nat && (n <=? 90)%nat)
  || ((97 <=? n)%nat && (n <=? 122)%nat) || (n =? 95)%nat.

Definition swap_case (c : ascii) : ascii :=
  if Ascii.eqb (lower_ascii c) c then upper_ascii c else lower_ascii c.

Fixpoint in_cls (k : cls) (c : ascii) : bool :=
  match k with
  | Any => negb ((nat_of_ascii c =? 10)%nat || (nat_of_ascii c =? 13)%nat)
  | Chr x => Ascii.eqb x c
  | Space => is_space c
  | Digit => is_digit c
  | Word => is_word c
  | Range lo hi => (nat_of_ascii lo <=? nat_of_ascii c)%nat
                   && (nat_of_ascii c <=? nat_of_ascii hi)%nat
  | Union a b => in_cls a c || in_cls b c
  | Neg a => negb (in_cls a c)
  end.

(** With the [i] flag a character matches in either case. *)
Definition accepts_char (icase : bool) (k : cls) (c : ascii) : bool :=
  in_cls k c || (icase && in_cls k (swap_case c)).

(** Where a match attempt stands: the text already passed (latest
    character first), the text ahead, and the groups captured so far. *)
Record st := mkSt {
  before : list ascii;
  rest : list ascii;
  caps : list (nat * string)
}.

Definition at_boundary (s : st) : bool :=
  let l := match before s with c :: _ => is_word c | [] => false end in
  let r := match rest s with c :: _ => is_word c | [] => false end in
  xorb l r.

(** The backtracking matcher: [m icase r s k] matches [r] at [s] and
    hands each way of doing so, in the order of preference, to the
    continuation [k], until one is accepted.  An iteration of a star that
    passes no character is not taken. *)
Fixpoint m (icase : bool) (r : re) (s : st) (k : st -> option st) {struct r}
  : option st :=
  match r with
  | Eps => k s
  | One c =>
      match rest s with
      | x :: xs => if accepts_char icase c x
                   then k (mkSt (x :: before s) xs (caps s)) else None
      | [] => None
      end
  | Seq a b => m icase a s (fun s' => m icase b s' k)
  | Alt a b =>
      match m icase a s k with
      | Some out => Some out
      | None => m icase b s k
      end
  | Star greedy a =>
      (fix loop (n : nat) (s : st) {struct n} : option st :=
         match n with
         | O => k s
         | S n' =>
             let again :=
               m icase a s (fun s' =>
                 if (length (rest s') <? length (rest s))%nat
                 then loop n' s' else None) in
             if greedy then
               match again with Some out => Some out | None => k s end
             else
               match k s with Some out => Some out | None => again end
         end) (S (length (rest s))) s
  | Group i a =>
      m icase a s (fun s' =>
        k (mkSt (before s') (rest s')
             ((i, string_of_list_ascii
                    (rev (firstn (length (before s') - length (before s)) (before s'))))
              :: caps s')))
  | Bol => match before s with [] => k s | _ => None end
  | Eol => match rest s with [] => k s | _ => None end
  | WordB => if at_boundary s then k s else None
  end.

(** A match of the pattern starting exactly here. *)
Definition match_here (icase : bool) (r : re) (bef rst : list ascii) : option st :=
  m icase r (mkSt bef rst []) Some.

(** The leftmost match at or after the current place: the text passed
    when it starts, and the state at its end. *)
Fixpoint search (icase : bool) (r : re) (bef rst : list ascii)
  : option (list ascii * st) :=
  match match_here icase r bef rst with
  | Some s' => Some (bef, s')
  | None =>
      match rst with
      | [] => None
      | x :: xs => search icase r (x :: bef) xs
      end
  end.

(** [re.test(s)] *)
Definition test (icase : bool) (r : re) (s : string) : bool :=
  match search icase r [] (list_ascii_of_string s) with
  | Some _ => true
  | None => false
  end.

Fixpoint cap (i : nat) (l : list (nat * string)) : option string :=
  match l with
  | [] => None
  | (j, t) :: r => if (i =? j)%nat then Some t else cap i r
  end.

(** [s.match(re)] without the [g] flag: the groups of the first match,
    [None] where the result is [null]; a group that took no part is
    [None] ([undefined]). *)
Definition exec (icase : bool) (r : re) (s : string) : option (nat -> option string) :=
  match search icase r [] (list_ascii_of_string s) with
  | Some (_, s') => Some (fun i => cap i (caps s'))
  | None => None
  end.

(** A piece of a replacement text: literal text, or [$i]. *)
Inductive piece := Txt (t : string) | Ref (i : nat).

Definition expand (tmpl : list piece) (groups : list (nat * string)) : list ascii :=
  flat_map (fun p => match p with
                     | Txt t => list_ascii_of_string t
                     | Ref i => match cap i groups with
                                | Some t => list_ascii_of_string t
                                | None => []
                                end
                     end) tmpl.

(** The text between two places of one attempt, oldest character first. *)
Definition passed (from to : list ascii) : list ascii :=
  rev (firstn (length to - length from) to).

(** [s.replace(re, tmpl)] without the [g] flag. *)
Definition replace_first (icase : bool) (r : re) (tmpl : list piece) (s : string)
  : string :=
  match search icase r [] (list_ascii_of_string s) with
  | Some (bef, s') =>
      string_of_list_ascii (rev bef ++ expand tmpl (caps s') ++ rest s')
  | None => s
  end.

(** [s.replace(re, tmpl)] with the [g] flag: after an empty match the
    search moves on by one character. *)
Fixpoint replace_from (fuel : nat) (icase : bool) (r : re) (tmpl : list piece)
  (bef rst : list ascii) : list ascii :=
  match fuel with
  | O => rst
  | S fuel' =>
      match search icase r bef rst with
      | None => rst
      | Some (bef0, s') =>
          passed bef bef0 ++ expand tmpl (caps s') ++
          (if (length (before s') =? length bef0)%nat then
             match rest s' with
             | [] => []
             | x :: xs => x :: replace_from fuel' icase r tmpl (x :: before s') xs
             end
           else replace_from fuel' icase r tmpl (before s') (rest s'))
      end
  end.

Definition replace_all (icase : bool) (r : re) (tmpl : list piece) (s : string) : string :=
  string_of_list_ascii
    (replace_from (S (String.length s)) icase r tmpl [] (list_ascii_of_string s)).

(** [s.split(re)] for a pattern without capturing groups: [cur] is the
    piece being gathered (latest character first). *)
Fixpoint split_from (fuel : nat) (icase : bool) (r : re)
  (cur bef rst : list ascii) : list string :=
  match fuel with
  | O => []
  | S fuel' =>
      match rst with
      | [] => [string_of_list_ascii (rev cur)]
      | x :: xs =>
          match match_here icase r bef rst with
          | Some s' =>
              if (length (before s') =? length bef)%nat
                 && match cur with [] => true | _ => false end
              then split_from fuel' icase r (x :: cur) (x :: bef) xs
              else string_of_list_ascii (rev cur)
                   :: split_from fuel' icase r [] (before s') (rest s')
          | None => split_from fuel' icase r (x :: cur) (x :: bef) xs
          end
      end
  end.

Definition split (icase : bool) (r : re) (s : string) : list string :=
  match s with
  | EmptyString =>
      match match_here icase r [] [] with Some _ => [] | None => [""] end
  | _ => split_from (2 * String.length s + 2) icase r [] [] (list_ascii_of_string s)
  end.

(** ** Writing patterns *)

Fixpoint lit (s : string) : re :=
  match s with
  | EmptyString => Eps
  | String c EmptyString => One (Chr c)
  | String c r => Seq (One (Chr c)) (lit r)
  end.

Fixpoint seqs (l : list re) : re :=
  match l with
  | [] => Eps
  | [a] => a
  | a :: r => Seq a (seqs r)
  end.

Fixpoint alts (l : list re) : re :=
  match l with
  | [] => Eps
  | [a] => a
  | a :: r => Alt a (alts r)
  end.

(** [a|b|...] over literal words. *)
Definition words (l : list string) : re := alts (map lit l).

Definition opt (a : re) : re := Alt a Eps.             (** [a?] *)
Definition plus (a : re) : re := Seq a (Star true a).   (** [a+] *)
Definition lazy_plus (a : re) : re := Seq a (Star false a). (** [a+?] *)
Definition sp0 : re := Star true (One Space).           (** [\s*] *)
Definition sp1 : re := plus (One Space).                (** [\s+] *)
Definition num : re := plus (One Digit).                (** [\d+] *)
(** [word s?] as in [stocks?] *)
Definition plural (w : string) : re := Seq (lit w) (opt (lit "s")).

End Regex.

(* ================================================================== *)
(** * Natural-language translator ([marketController.js]) *)
(* ================================================================== *)

Module Translator.

Import Regex.

Definition METRIC_MAP : list (string * string) :=
  [ ("pe", "pe_ratio"); ("pe ratio", "pe_ratio"); ("p/e", "pe_ratio");
    ("p/e ratio", "pe_ratio"); ("price to earnings", "pe_ratio");
    ("pb", "pb_ratio"); ("pb ratio", "pb_ratio"); ("p/b", "pb_ratio");
    ("p/b ratio", "pb_ratio"); ("price to book", "pb_ratio");
    ("peg", "peg_ratio"); ("peg ratio", "peg_ratio");
    ("eps", "eps"); ("earnings per share", "eps");
    ("roe", "roe"); ("return on equity", "roe");
    ("roa", "roa"); ("return on assets", "roa");
    ("operating margin", "operating_margin");
    ("ebitda margin", "ebitda_margin");
    ("ebitda", "ebitda");
    ("revenue", "revenue"); ("sales", "revenue");
    ("net income", "net_income"); ("net profit", "net_income");
    ("profit", "net_income"); ("earnings", "net_income");
    ("revenue growth", "revenue_growth_yoy");
    ("revenue growth yoy", "revenue_growth_yoy");
    ("sales growth", "revenue_growth_yoy");
    ("ebitda growth", "ebitda_growth_yoy");
    ("ebitda growth yoy", "ebitda_growth_yoy");
    ("debt to equity", "debt_to_equity"); ("debt equity", "debt_to_equity");
    ("debt-to-equity", "debt_to_equity"); ("d/e", "debt_to_equity");
    ("d/e ratio", "debt_to_equity");
    ("current ratio", "current_ratio");
    ("total debt", "total_debt"); ("total assets", "total_assets");
    ("free cash flow", "free_cash_flow"); ("fcf", "free_cash_flow");
    ("operating cash flow", "operating_cash_flow"); ("ocf", "operating_cash_flow");
    ("debt to free cash flow", "debt_to_fcf"); ("debt to fcf", "debt_to_fcf");
    ("debt to free cash flow ratio", "debt_to_fcf"); ("debt/fcf", "debt_to_fcf");
    ("market cap", "market_cap"); ("market capitalisation", "market_cap");
    ("market capitalization", "market_cap"); ("mcap", "market_cap");
    ("promoter holding", "promoter_holding");
    ("promoter holdings", "promoter_holding");
    ("current price", "close"); ("price", "close"); ("stock price", "close");
    ("short term debt", "short_term_debt"); ("long term debt", "long_term_debt");
    ("capex", "capex"); ("cfo", "cfo"); ("cfi", "cfi"); ("cff", "cff");
    ("eps estimate", "eps_estimate"); ("revenue estimate", "revenue_estimate");
    ("price target", "price_target_avg"); ("target price", "price_target_avg");
    ("analyst target price", "price_target_avg");
    ("analyst target", "price_target_avg");
    ("price target low", "price_target_low");
    ("price target high", "price_target_high") ].

Definition GROWTH_FIELD_MAP : list (string * string) :=
  [ ("revenue", "revenue_growth_yoy"); ("sales", "revenue_growth_yoy");
    ("revenue_growth_yoy", "revenue_growth_yoy");
    ("ebitda", "ebitda_growth_yoy"); ("ebitda_growth_yoy", "ebitda_growth_yoy") ].

Definition SECTOR_ALIASES : list (string * string) :=
  [ ("it", "Technology"); ("information technology", "Technology");
    ("tech", "Technology"); ("technology", "Technology");
    ("banking", "Financial Services"); ("finance", "Financial Services");
    ("financial", "Financial Services");
    ("financial services", "Financial Services");
    ("pharma", "Healthcare"); ("pharmaceutical", "Healthcare");
    ("healthcare", "Healthcare");
    ("energy", "Energy"); ("oil", "Energy"); ("oil and gas", "Energy");
    ("consumer", "Consumer Cyclical"); ("consumer cyclical", "Consumer Cyclical");
    ("consumer defensive", "Consumer Defensive"); ("fmcg", "Consumer Defensive");
    ("basic materials", "Basic Materials"); ("materials", "Basic Materials");
    ("industrials", "Industrials"); ("industrial", "Industrials");
    ("real estate", "Real Estate"); ("realty", "Real Estate");
    ("utilities", "Utilities");
    ("communication", "Communication Services");
    ("communication services", "Communication Services");
    ("telecom", "Communication Services") ].

Definition EXCHANGE_ALIASES : list (string * string) :=
  [ ("nse", "NSI"); ("bse", "BSE"); ("nyse", "NYQ"); ("nasdaq", "NMS") ].

Definition INDUSTRY_KEYWORDS : list (string * list string) :=
  [ ("semiconductor", ["Semiconductor Equipment & Materials"]);
    ("software", ["Software - Application"; "Software - Infrastructure"]);
    ("banking", ["Banks - Regional"]);
    ("insurance", ["Insurance - Life"; "Insurance - Diversified";
                   "Insurance - Property & Casualty"]);
    ("auto", ["Auto Manufacturers"; "Auto Parts"]);
    ("steel", ["Steel"]);
    ("cement", ["Building Materials"]);
    ("telecom", ["Telecom Services"]) ].

Definition UNIT_MULTIPLIERS : list (string * Q) :=
  [ ("crore", 10000000); ("crores", 10000000); ("cr", 10000000);
    ("lakh", 100000); ("lakhs", 100000); ("l", 100000);
    ("billion", 1000000000); ("b", 1000000000);
    ("million", 1000000); ("m", 1000000);
    ("thousand", 1000); ("k", 1000);
    ("trillion", 1000000000000); ("t", 1000000000000) ].

Fixpoint lookup {A} (k : string) (m : list (string * A)) : option A :=
  match m with
  | [] => None
  | (k', v) :: r => if String.eqb k k' then Some v else lookup k r
  end.

(** A condition object [{ field, operator, value }]. *)
Definition cond (field operator : string) (val : value) : value :=
  VObj [ ("field", VStr field); ("operator", VStr operator); ("value", val) ].

(** [parseFloat(s)] and [parseInt(s)] on the texts the patterns capture:
    digits and dots only. *)
Definition parseFloat (s : string) : value :=
  match decimal_prefix s with
  | Some (q, _) => VNum q
  | None => VNaN
  end.

Definition parseInt (s : string) : value :=
  let '(n, count, _) := digits s 0%Z 0%nat in
  if (count =? 0)%nat then VNaN else VNum (inject_Z n).

(** The tail [sector|stocks?|companies?|shares?] and its like. *)
Definition sector_tail : re :=
  alts [lit "sector"; plural "stock"; plural "companie"; plural "share"].
Definition exchange_tail : re :=
  alts [lit "listed"; plural "stock"; plural "companie"; lit "exchange"].

(** [extractSector(query)].  The aliases hold letters and spaces only, so
    escaping them for [new RegExp] changes nothing. *)
Fixpoint first_alias (tail : re) (aliases : list (string * string)) (query : string)
  : option string :=
  match aliases with
  | [] => None
  | (alias, target) :: r =>
      if test true (seqs [WordB; lit alias; WordB; sp0; opt tail]) query
      then Some target else first_alias tail r query
  end.

Definition extractSector (query : string) : option value :=
  match first_alias sector_tail SECTOR_ALIASES query with
  | Some sector => Some (cond "sector" "=" (VStr sector))
  | None => None
  end.

(** [extractExchange(query)] *)
Definition extractExchange (query : string) : option value :=
  match first_alias exchange_tail EXCHANGE_ALIASES query with
  | Some exchange => Some (cond "exchange" "=" (VStr exchange))
  | None => None
  end.

(** [extractIndustry(query)] *)
Definition extractIndustry (query : string) : option (list value) :=
  let matchedIndustries :=
    flat_map (fun kw => if str_contains (fst kw) query then snd kw else [])
      INDUSTRY_KEYWORDS in
  match matchedIndustries with
  | [] => None
  | [one] => Some [cond "industry" "=" (VStr one)]
  | _ => Some [cond "industry" "in" (VArr (map VStr matchedIndustries))]
  end.

(** [/(?:current\s+)?price\s+(?:is\s+)?(?:below|under|less than|lower than)\s+(?:analyst\s+)?target\s*(?:price)?/i]
    and its twin with [above|over|greater than|higher than]. *)
Definition price_vs_target (relation : list string) : re :=
  seqs [ opt (Seq (lit "current") sp1); lit "price"; sp1;
         opt (Seq (lit "is") sp1);
         words relation;
         sp1; opt (Seq (lit "analyst") sp1); lit "target"; sp0; opt (lit "price") ].

(** [extractCrossFieldComparison(query)] *)
Definition extractCrossFieldComparison (query : string) : option value :=
  if test true (price_vs_target ["below"; "under"; "less than"; "lower than"]) query then
    Some (VObj [ ("field", VStr "close"); ("operator", VStr "<");
                 ("value", VStr "price_target_avg"); ("value_is_field", VBool true) ])
  else if test true (price_vs_target ["above"; "over"; "greater than"; "higher than"]) query then
    Some (VObj [ ("field", VStr "close"); ("operator", VStr ">");
                 ("value", VStr "price_target_avg"); ("value_is_field", VBool true) ])
  else None.

(** [extractBuyback(query)]: [/buyback|buy\s*back/i] *)
Definition extractBuyback (query : string) : option value :=
  if test true (Alt (lit "buyback") (seqs [lit "buy"; sp0; lit "back"])) query
  then Some (cond "last_buyback_date" "exists" (VBool true))
  else None.

(** [Object.keys(METRIC_MAP).sort((a, b) => b.length - a.length)]: a
    stable sort, longest key first. *)
Fixpoint insert_key (k : string) (l : list string) : list string :=
  match l with
  | [] => [k]
  | x :: r => if (String.length x <? String.length k)%nat then k :: l
              else x :: insert_key k r
  end.

Definition keys_longest_first : list string :=
  fold_left (fun acc k => insert_key k acc) (map fst METRIC_MAP) [].

(** The [normalized] phrase of [findMetricField]:
    [phrase.toLowerCase().replace(/[^a-z0-9/ ]/g, ' ')
           .replace(/\s+/g, ' ').trim()] *)
Definition normalizePhrase (phrase : string) : string :=
  trim (replace_all false sp1 [Txt " "]
          (replace_all false
             (One (Neg (Union (Range "a" "z")
                          (Union (Range "0" "9") (Union (Chr "/") (Chr " "))))))
             [Txt " "] (toLowerCase phrase))).

(** [findMetricField(phrase)].  [Ok None] is [null].  The one name
    [METRIC_MAP] inherits that the normalised phrase can spell is
    [constructor]; the member found under it is outside the model. *)
Definition findMetricField (phrase : string) : outcome (option string) :=
  let normalized := normalizePhrase phrase in
  if String.eqb normalized "constructor" then Beyond
  else
    match lookup normalized METRIC_MAP with
    | Some f => Ok (Some f)
    | None =>
        Ok ((fix first (keys : list string) : option string :=
               match keys with
               | [] => None
               | key :: r => if str_contains key normalized
                             then lookup key METRIC_MAP else first r
               end) keys_longest_first)
    end.

(** [normalizeOperator(op)]: [opMap[op.toLowerCase().trim()] || op] *)
Definition normalizeOperator (op : string) : string :=
  match lookup (trim (toLowerCase op))
          [ ("<", "<"); (">", ">"); ("<=", "<="); (">=", ">="); ("=", "=");
            ("!=", "!="); ("is", "="); ("equal", "="); ("equal to", "=");
            ("below", "<"); ("under", "<"); ("less than", "<");
            ("above", ">"); ("over", ">"); ("greater than", ">");
            ("more than", ">"); ("at least", ">="); ("no less than", ">=");
            ("at most", "<="); ("no more than", "<=") ] with
  | Some o => o
  | None => op
  end.

(** [(?:\s+(?:in|for|over)\s+(?:the\s+)?last\s+(\d+)\s+(quarters?|years?|months?)] with
    the count in group [i] and the unit in group [j]; [more] follows the
    unit. *)
Definition window (i j : nat) (more : re) : re :=
  seqs [ sp1; words ["in"; "for"; "over"]; sp1; opt (Seq (lit "the") sp1);
         lit "last"; sp1; Group i num; sp1;
         Group j (alts [plural "quarter"; plural "year"; plural "month"]); more ].

(** [cond.period = { type: 'last_n_quarters', n, aggregation }] *)
Definition with_period (c : value) (n aggregation : value) : value :=
  set c "period"
    (VObj [ ("type", VStr "last_n_quarters"); ("n", n); ("aggregation", aggregation) ]).

Definition preamble_verbs : re :=
  words ["show"; "find"; "get"; "list"; "display"; "give"; "search"].
Definition nouns : re := alts [plural "stock"; plural "companie"; plural "share"].

(** The pattern of the standard comparison in [parseCondition]. *)
Definition comparison_pattern : re :=
  seqs [ Group 1 (lazy_plus (One Any)); sp0;
         Group 2 (words [ "!=="; "!="; "<="; ">="; "<"; ">"; "="; "below"; "above";
                          "under"; "over"; "at least"; "at most"; "less than";
                          "greater than"; "more than"; "equal to"; "equal"; "is" ]);
         sp0;
         Group 3 (plus (One (Union Digit (Union (Chr ",") (Chr ".")))));
         sp0; Group 4 (opt (lit "%")); sp0;
         opt (Group 5 (alts [ plural "crore"; lit "cr"; plural "lakh"; lit "l";
                              lit "billion"; lit "b"; lit "million"; lit "m";
                              lit "thousand"; lit "k"; lit "trillion"; lit "t" ]));
         opt (window 6 7 (opt (Seq sp1 (Group 8 (plus (One Word)))))) ].

(** [parseCondition(conditionStr)]; [Ok None] is [null]. *)
Definition parseCondition (conditionStr : string) : outcome (option value) :=
  let cleanStr :=
    trim
      (replace_first true
         (seqs [Bol; Group 1 (words ["with"; "where"; "having"]); sp1]) []
      (replace_first true
         (seqs [Bol; Group 1 nouns; sp1;
                Group 2 (words ["with"; "where"; "having"; "whose"; "that have"]); sp1]) []
      (replace_first true
         (seqs [Bol; Group 1 preamble_verbs; sp1; opt (Group 2 (Seq (lit "me") sp1));
                opt (Group 3 (Seq (lit "all") sp1)); Group 4 nouns; sp1;
                Group 5 (words ["with"; "where"; "having"; "whose"; "that have"]); sp1]) []
         conditionStr))) in
  (* 1. "positive [metric] in last N quarters" *)
  let positiveMatch :=
    exec true (seqs [Bol; lit "positive"; sp1; Group 1 (lazy_plus (One Any));
                     opt (window 2 3 Eps); Eol]) cleanStr in
  obind
    (match positiveMatch with
     | Some g =>
         obind (findMetricField (trim (match g 1%nat with Some t => t | None => "" end)))
           (fun field =>
              match field with
              | Some f =>
                  let c := cond f ">" (VNum 0) in
                  Ok (Some (match g 2%nat with
                            | Some n => if String.eqb n "" then c
                                        else with_period c (parseInt n) (VStr "all")
                            | None => c
                            end))
              | None => Ok None
              end)
     | None => Ok None
     end)
    (fun r1 =>
  match r1 with
  | Some c => Ok (Some c)
  | None =>
  (* 2. "increasing / growing [metric] (year over year)" *)
  let growingMatch :=
    exec true (seqs [Bol; Group 1 (words ["increasing"; "growing"; "rising"]); sp1;
                     Group 2 (lazy_plus (One Any));
                     opt (Seq sp1 (alts [seqs [lit "year"; sp1; lit "over"; sp1; lit "year"];
                                         lit "yoy"; lit "y-o-y"]));
                     opt (window 3 4 Eps); Eol]) cleanStr in
  obind
    (match growingMatch with
     | Some g =>
         obind (findMetricField (trim (match g 2%nat with Some t => t | None => "" end)))
           (fun baseField =>
              match baseField with
              | Some b =>
                  let growthField :=
                    match lookup b GROWTH_FIELD_MAP with
                    | Some gf => gf
                    | None => (b ++ "_growth_yoy")%string
                    end in
                  let c := cond growthField ">" (VNum 0) in
                  Ok (Some (match g 3%nat with
                            | Some n => if String.eqb n "" then c
                                        else with_period c (parseInt n) (VStr "all")
                            | None => c
                            end))
              | None => Ok None
              end)
     | None => Ok None
     end)
    (fun r2 =>
  match r2 with
  | Some c => Ok (Some c)
  | None =>
  (* 3. standalone growth phrase *)
  obind (findMetricField cleanStr) (fun standaloneGrowthField =>
  let has_digit := test false (One Digit) cleanStr in
  let r3 :=
    match standaloneGrowthField with
    | Some f =>
        if negb has_digit then
          if str_contains "growth" f then Some (cond f ">" (VNum 0))
          else match lookup f GROWTH_FIELD_MAP with
               | Some gf => Some (cond gf ">" (VNum 0))
               | None => None
               end
        else None
    | None => None
    end in
  match r3 with
  | Some c => Ok (Some c)
  | None =>
  (* 4. standard comparison *)
  match exec true comparison_pattern cleanStr with
  | None => Ok None
  | Some g =>
      let grp i := match g i with Some t => t | None => "" end in
      let metricPhrase := trim (grp 1%nat) in
      let operatorStr := trim (grp 2%nat) in
      let rawValue := replace_all false (lit ",") [] (grp 3%nat) in
      let value0 := parseFloat rawValue in
      let unitStr := match g 5%nat with
                     | Some u => if String.eqb u "" then None else Some (toLowerCase u)
                     | None => None
                     end in
      let value1 :=
        match unitStr with
        | Some u => match lookup u UNIT_MULTIPLIERS with
                    | Some k => match value0 with
                                | VNum q => VNum (Qred (q * k))
                                | v => v
                                end
                    | None => value0
                    end
        | None => value0
        end in
      obind (findMetricField metricPhrase) (fun field =>
        match field with
        | None => Ok None
        | Some f =>
            let value2 :=
              match value1 with
              | VNum q => if str_in f ["promoter_holding"] && negb (Qle_bool q 1)
                          then VNum (Qred (q / 100)) else value1
              | v => v
              end in
            let operator := normalizeOperator operatorStr in
            let condition := cond f operator value2 in
            let periodCount := match g 6%nat with
                               | Some n => if String.eqb n "" then VNull else parseInt n
                               | None => VNull
                               end in
            let periodUnit := match g 7%nat with
                              | Some u => if String.eqb u "" then VNull
                                          else VStr (replace_first false (Seq (lit "s") Eol) []
                                                       (toLowerCase u))
                              | None => VNull
                              end in
            let aggregation := match g 8%nat with
                               | Some a => if String.eqb a "" then VNull
                                           else VStr (toLowerCase a)
                               | None => VNull
                               end in
            Ok (Some (if truthy periodCount && truthy periodUnit
                      then with_period condition periodCount
                             (or_else aggregation (VStr "all"))
                      else condition))
        end)
  end
  end)
  end)
  end).

(** [parseAndConditions(query)] *)
Definition parseAndConditions (query : string) : outcome (list value) :=
  let decimal := Seq num (opt (Seq (lit ".") num)) in
  let protectedQuery :=
    replace_all true
      (seqs [lit "between"; sp1; Group 1 decimal; sp1; lit "and"; sp1; Group 2 decimal])
      [Txt "between "; Ref 1; Txt "_AND_"; Ref 2] query in
  let parts :=
    split true (Seq sp0 (Alt (Seq (lit ",") sp0) (seqs [sp1; lit "and"; sp1])))
      protectedQuery in
  (fix each (parts : list string) : outcome (list value) :=
     match parts with
     | [] => Ok []
     | part :: more =>
         let restoredPart := trim (replace_all false (lit "_AND_") [Txt " and "] part) in
         if String.eqb restoredPart "" then each more
         else
           match exec true
                   (seqs [Group 1 (lazy_plus (One Any)); sp1; lit "between"; sp1;
                          Group 2 decimal; sp1; lit "and"; sp1; Group 3 decimal])
                   restoredPart with
           | Some g =>
               let grp i := match g i with Some t => t | None => "" end in
               obind (findMetricField (trim (grp 1%nat))) (fun field =>
               obind (each more) (fun rest =>
                 match field with
                 | Some f =>
                     Ok (cond f ">=" (parseFloat (grp 2%nat))
                         :: cond f "<=" (parseFloat (grp 3%nat)) :: rest)
                 | None => Ok rest
                 end))
           | None =>
               obind (parseCondition restoredPart) (fun condition =>
               obind (each more) (fun rest =>
                 match condition with
                 | Some c => Ok (c :: rest)
                 | None => Ok rest
                 end))
           end
     end) parts.

(** [parseOrConditions(query)] *)
Definition parseOrConditions (query : string) : outcome (list value) :=
  let orParts := split true (seqs [sp1; lit "or"; sp1]) query in
  obind
    ((fix each (parts : list string) : outcome (list value) :=
        match parts with
        | [] => Ok []
        | part :: more =>
            obind (parseAndConditions (trim part)) (fun andConds =>
            obind (each more) (fun rest =>
              match andConds with
              | [] => Ok rest
              | [one] => Ok (one :: rest)
              | _ => Ok (VObj [("and", VArr andConds)] :: rest)
              end))
        end) orParts)
    (fun conditions =>
       match conditions with
       | _ :: _ :: _ => Ok [VObj [("or", VArr conditions)]]
       | _ => Ok conditions
       end).

(** [extractMetricConditions(query)] *)
Definition extractMetricConditions (query : string) : outcome (list value) :=
  let cleanQuery :=
    trim
      (replace_all false
         (Alt (Seq Bol (plus (One (Union Space (Chr ",")))))
              (Seq (plus (One (Union Space (Chr ",")))) Eol)) []
      (replace_all true
         (seqs [WordB; Group 1 (words ["whose"; "that have"; "that"; "with"; "where"; "having"]);
                WordB]) [Txt ","]
      (replace_all true
         (seqs [WordB; opt (Group 1 (seqs [lit "that"; sp1; lit "have"; sp1]));
                lit "announced"; sp1; lit "stock"; sp0; plural "buyback"; sp1;
                lit "recently"; WordB]) []
      (replace_all true
         (seqs [WordB; Group 1 (words ["semiconductor"; "software"]); sp0;
                opt (Group 2 (alts [plural "companie"; plural "stock"])); WordB]) []
      (replace_all true
         (seqs [WordB; Group 1 (words ["nse"; "bse"; "nyse"; "nasdaq"]); sp0;
                opt (Group 2 exchange_tail); WordB]) []
      (replace_all true
         (seqs [WordB;
                Group 1 (words [ "it"; "information technology"; "tech"; "technology";
                                 "banking"; "finance"; "pharma"; "healthcare"; "energy";
                                 "consumer"; "fmcg"; "industrial"; "real estate";
                                 "utilities"; "telecom"; "communication" ]);
                sp0; opt (Group 2 sector_tail); WordB]) []
      (replace_first true
         (seqs [Bol; Group 1 nouns; sp1; opt (Group 2 (Seq (lit "from") sp1))]) []
      (replace_first true
         (seqs [Bol; Group 1 preamble_verbs; sp1; opt (Group 2 (Seq (lit "me") sp1));
                opt (Group 3 (Seq (lit "all") sp1))]) []
         query)))))))) in
  if String.eqb cleanQuery "" then Ok []
  else if test true (seqs [sp1; lit "or"; sp1]) cleanQuery then parseOrConditions cleanQuery
  else parseAndConditions cleanQuery.

(** [translateNLToDSL(query)] *)
Definition translateNLToDSL (query : string) : outcome value :=
  let normalizedQuery := trim (toLowerCase query) in
  let sectorCondition := extractSector normalizedQuery in
  let exchangeCondition := extractExchange normalizedQuery in
  let industryConditions := extractIndustry normalizedQuery in
  let crossFieldCondition := extractCrossFieldComparison normalizedQuery in
  let buybackCondition := extractBuyback normalizedQuery in
  let one (o : option value) := match o with Some c => [c] | None => [] end in
  obind (extractMetricConditions normalizedQuery) (fun metricConditions =>
    let conditions :=
      one sectorCondition ++ one exchangeCondition
      ++ match industryConditions with Some l => l | None => [] end
      ++ one crossFieldCondition ++ one buybackCondition ++ metricConditions in
    match conditions with
    | [] => Ok (VObj [("filter", VObj [])])
    | _ => Ok (VObj [("filter", VObj [("and", VArr conditions)])])
    end).

End Translator.

(* ================================================================== *)
(** * Vocabulary of the properties *)
(* ================================================================== *)

Module Props.

Import Validator Compiler.

(** The six comparisons with a constant. *)
Definition comparisons : list string := [ "<"; ">"; "<="; ">="; "="; "!=" ].

(** [{ filter }] *)
Definition rule (filter : value) : value := VObj [("filter", filter)].

(** [{ field, operator, value }] *)
Definition cond (field operator : string) (val : value) : value :=
  VObj [ ("field", VStr field); ("operator", VStr operator); ("value", val) ].

(** [{ field, operator, value, period }] *)
Definition cond_period (field operator : string) (val period : value) : value :=
  VObj [ ("field", VStr field); ("operator", VStr operator); ("value", val);
         ("period", period) ].

(** [{ type, n, aggregation }] *)
Definition period (type : string) (n : Q) (aggregation : string) : value :=
  VObj [ ("type", VStr type); ("n", VNum n); ("aggregation", VStr aggregation) ].

(** [{ filter: { and: [ {f, op1, a}, {f, op2, b} ] } }] *)
Definition and2 (f op1 : string) (a : Q) (op2 : string) (b : Q) : value :=
  rule (VObj [("and", VArr [cond f op1 (VNum a); cond f op2 (VNum b)])]).

(** What a comparison with a constant asks of the field's value [x]. *)
Definition holds (op : string) (x a : Q) : Prop :=
  if String.eqb op "<" then x < a
  else if String.eqb op ">" then a < x
  else if String.eqb op "<=" then x <= a
  else if String.eqb op ">=" then a <= x
  else if String.eqb op "=" then x == a
  else if String.eqb op "!=" then ~ x == a
  else False.

(** The two constraints on one field have a common solution. *)
Definition intersect (op1 : string) (a : Q) (op2 : string) (b : Q) : Prop :=
  exists x : Q, holds op1 x a /\ holds op2 x b.

(** The period types and aggregations of the specification's data model. *)
Definition SPEC_PERIOD_TYPES : list string :=
  [ "last_n_quarters"; "last_n_years"; "trailing_12_months";
    "quarter_over_quarter"; "year_over_year" ].

Definition SPEC_AGGREGATIONS : list string :=
  [ "all"; "any"; "avg"; "sum"; "min"; "max"; "trend"; "latest" ].

(** The periods the validator lets through. *)
Definition period_ok (p : value) : Prop :=
  typeof p = TObject
  /\ get p "type" = VStr "last_n_quarters"
  /\ (exists q, get p "n" = VNum q /\ 1 <= q /\ q <= 20)
  /\ (truthy (get p "aggregation") = false
      \/ exists a, get p "aggregation" = VStr a /\ In a ALLOWED_AGGREGATIONS).

(** A logical tree: conditions at the leaves, [and] / [or] / [not] nodes
    over arrays of children. *)
#[warnings="-register-all"] Inductive ltree :=
| Leaf (condition : value)
| Node (op : string) (children : list ltree).

Fixpoint encode (t : ltree) : value :=
  match t with
  | Leaf c => c
  | Node op l => VObj [(op, VArr (map encode l))]
  end.

(** Logical nesting depth. *)
Fixpoint depth (t : ltree) : nat :=
  match t with
  | Leaf _ => 0
  | Node _ l => S (fold_right (fun c n => Nat.max (depth c) n) 0%nat l)
  end.

Definition no_errors (e : list verror) : bool :=
  match e with [] => true | _ => false end.

(** Every leaf is a condition the validator has nothing against, every
    node carries a logical operator. *)
Fixpoint well_formed (t : ltree) : bool :=
  match t with
  | Leaf c => Validator._isCondition c && no_errors (fst (_validateCondition c))
  | Node op l => str_in op ALLOWED_LOGICAL_OPERATORS && forallb well_formed l
  end.

Definition is_node (t : ltree) : bool :=
  match t with Node _ _ => true | Leaf _ => false end.

(** [n] levels of [and] around one condition. *)
Fixpoint nest (n : nat) (c : value) : ltree :=
  match n with
  | O => Leaf c
  | S n' => Node "and" [nest n' c]
  end.

(** Sample inputs. *)
Definition all_quarters_tree : value :=
  rule (VObj [("and", VArr [cond "pe_ratio" "all_quarters" (VNum 1)])]).

Definition conflict_tree : value := and2 "pe_ratio" ">" 50 "<" 5.

Definition empty_rule : value := rule (VObj []).

Definition price_below_target : value :=
  VObj [ ("field", VStr "close"); ("operator", VStr "<");
         ("value", VStr "price_target_avg"); ("value_is_field", VBool true) ].

(** A cross-field comparison that also carries an [all] period. *)
Definition cross_field_with_period : value :=
  VObj [ ("field", VStr "net_income"); ("operator", VStr ">");
         ("value", VStr "revenue"); ("value_is_field", VBool true);
         ("period", period "last_n_quarters" 4 "all") ].

(** The context [compile] starts from. *)
Definition context0 : context := mkContext [] 1 ["companies"] [].

(** The text the [all] aggregation is compiled to, for the column [col],
    the subquery alias, the inverted operator and the two placeholders. *)
Definition not_exists_text (col subAlias invertedOp valParam nParam : string) : string :=
  "NOT EXISTS (   SELECT 1 FROM (     SELECT " ++ col
  ++ " FROM fundamentals_quarterly     WHERE ticker = c.ticker AND " ++ col
  ++ " IS NOT NULL     ORDER BY id DESC LIMIT " ++ nParam
  ++ "   ) " ++ subAlias ++ "   WHERE " ++ subAlias ++ "." ++ col ++ " "
  ++ invertedOp ++ " " ++ valParam ++ " )".

(** Sample alerts and market data. *)
Definition price_above_zero : Alerts.alert :=
  Alerts.mkAlert 1 7 (Some "TCS") "any price" "price_threshold"
    (VObj [("operator", VStr ">"); ("value", VNum 0)]) true None 0 None.

Definition income_above_zero : Alerts.alert :=
  Alerts.mkAlert 2 7 (Some "TCS") "profitable" "fundamental_condition"
    (VObj [("fundamental_metric", VStr "net_income");
           ("fundamental_operator", VStr "above"); ("fundamental_value", VNum 0)])
    true None 0 None.

Definition price_above_100 : Alerts.alert :=
  Alerts.mkAlert 1 7 (Some "TCS") "tcs high" "price_threshold"
    (VObj [("operator", VStr ">"); ("value", VNum 100)]) true None 0 None.

Definition infy_above_100 : Alerts.alert :=
  Alerts.mkAlert 2 7 (Some "INFY") "infy high" "price_threshold"
    (VObj [("operator", VStr ">"); ("value", VNum 100)]) true None 0 None.

Definition quote_150 : value := VObj [("price", VNum 150); ("changePercent", VNum 1)].

(** Two calls of [processAlerts] in flight at once.  The fetches for
    each ticker take 40 s, so the first call has evaluated only its
    first ticker when the timer makes the second call, [checkInterval]
    after the first; both calls then go on to the second ticker. *)
Definition overlapping_calls : list Alerts.event :=
  [ Alerts.Begin 1; Alerts.Tick 40000; Alerts.Group 1 quote_150 None VNull;
    Alerts.Tick 20000; Alerts.Begin 2; Alerts.Tick 20000;
    Alerts.Group 1 quote_150 None VNull; Alerts.Tick 1000;
    Alerts.Group 2 quote_150 None VNull ].

(** The lines of a text. *)
Fixpoint lines_from (cur : string) (s : string) : list string :=
  match s with
  | EmptyString => [cur]
  | String c r =>
      if (nat_of_ascii c =? 10)%nat then cur :: lines_from "" r
      else lines_from (cur ++ String c "") r
  end.

Definition lines (s : string) : list string := lines_from "" s.

(** A piece of compiler code that never runs out of the recursion bound. *)
Definition fuel_free {A} (m : M A) : Prop := forall c, m c <> NoFuel.

(** The alerts of a list of ticker groups. *)
Definition flat (groups : Alerts.cycle) : list Alerts.alert := flat_map snd groups.

(** The alerts the calls in flight have still to evaluate. *)
Definition pending (rs : list (nat * Alerts.cycle)) : list Alerts.alert :=
  flat_map (fun rc => flat (snd rc)) rs.

(** Every call of [processAlerts] made so far has returned. *)
Definition idle (s : Alerts.system) : bool :=
  forallb (fun rc => match snd rc with [] => true | _ => false end) (Alerts.running s).

(** Along the trace, no call of [processAlerts] is made while another is
    still at work. *)
Fixpoint one_at_a_time (s : Alerts.system) (trace : list Alerts.event) : bool :=
  match trace with
  | [] => true
  | e :: rest =>
      match e with Alerts.Begin _ => idle s | _ => true end
      && match Alerts.step s e with Ok s' => one_at_a_time s' rest | _ => true end
  end.

(** Two notifications of one alert are more than a day apart. *)
Definition spaced (ns : list Alerts.notification) : Prop :=
  forall (i j : nat) n1 n2, (i < j)%nat ->
    nth_error ns i = Some n1 -> nth_error ns j = Some n2 ->
    Alerts.n_alert_id n1 = Alerts.n_alert_id n2 ->
    (Alerts.triggered_at n1 + Alerts.day < Alerts.triggered_at n2)%Z.

(** What holds of the store [w] and of the alerts [R] still to evaluate
    while calls do not overlap. *)
Record rate_limited (w : Alerts.world) (R : list Alerts.alert) : Prop := {
  inv_rows : NoDup (map Alerts.id (Alerts.alert_subscriptions w));
  inv_pending : NoDup (map Alerts.id R);
  inv_old : forall a n, In a R -> In n (Alerts.notifications w) ->
              Alerts.n_alert_id n = Alerts.id a ->
              (Alerts.triggered_at n + Alerts.day < Alerts.clock w)%Z;
  inv_last : forall n r, In n (Alerts.notifications w) ->
               In r (Alerts.alert_subscriptions w) ->
               Alerts.id r = Alerts.n_alert_id n ->
               exists t, Alerts.last_triggered r = Some t
                         /\ (Alerts.triggered_at n <= t)%Z;
  inv_past : forall n, In n (Alerts.notifications w) ->
               (Alerts.triggered_at n <= Alerts.clock w)%Z;
  inv_spaced : spaced (Alerts.notifications w)
}.

Definition tick (d : Z) (w : Alerts.world) : Alerts.world :=
  Alerts.mkWorld (Alerts.clock w + d) (Alerts.alert_subscriptions w)
    (Alerts.notifications w).

Definition has_ticker (a : Alerts.alert) : bool :=
  match Alerts.ticker a with
  | Some t => negb (String.eqb t "")
  | None => false
  end.

Definition is_index (g : string * list Alerts.alert) : bool :=
  match Alerts.index_key (fst g) with Some _ => true | None => false end.

(** A run in which each call returns before the next is made. *)
Definition calls_in_turn : list Alerts.event :=
  [ Alerts.Begin 1; Alerts.Tick 5000; Alerts.Group 1 quote_150 None VNull;
    Alerts.Tick 55000; Alerts.Begin 2; Alerts.Tick 86400000; Alerts.Begin 3;
    Alerts.Tick 10; Alerts.Group 3 quote_150 None VNull ].

(** ** Vocabulary of the further properties *)

(** How far the counter of placeholders is ahead of the parameters. *)
Definition lead (c : context) : Z :=
  (Z.of_nat (paramCounter c) - Z.of_nat (length (params c)))%Z.

(** A piece of compiler code that moves [lead] by [d] when it returns. *)
Definition shifts {A} (m : M A) (d : Z) : Prop :=
  forall c a c', m c = Ok (a, c') -> (lead c' = lead c + d)%Z.

(** What one sort item is compiled to: the column of its field, and
    [ASC] or [DESC], [ASC] where the item names no direction. *)
Definition order_term (s : value) (p : string) : Prop :=
  exists f fi dir,
    get s "field" = VStr f /\ find_field f FIELD_TABLE_MAP = Some fi
    /\ In dir ["ASC"; "DESC"]
    /\ (truthy (get s "direction") = false -> dir = "ASC")
    /\ p = (_getTableAlias (table fi) ++ "." ++ column fi ++ " " ++ dir ++ " NULLS LAST")%string.

(** The [items.map(...)] of [_compileSort]: the text of each item. *)
Fixpoint sort_terms (l : list value) : outcome (list string) :=
  match l with
  | [] => Ok []
  | s :: r =>
      if nullish s then Throw TypeError
      else
        obind (lookup_field (get s "field")) (fun ofi =>
        match ofi with
        | None => Throw TypeError
        | Some fi =>
            match or_else (get s "direction") (VStr "ASC") with
            | VStr d =>
                obind (sort_terms r) (fun rest =>
                  Ok ((_getTableAlias (table fi) ++ "." ++ column fi ++ " "
                       ++ toUpperCase d ++ " NULLS LAST")%string :: rest))
            | _ => Throw TypeError
            end
        end)
  end.

(** Some condition of the tree carries the operator [op]. *)
Fixpoint uses_operator (op : string) (t : ltree) : bool :=
  match t with
  | Leaf c => is_str (get c "operator") op
  | Node _ l => existsb (uses_operator op) l
  end.

(** A piece of compiler code that returns, from whatever context. *)
Definition returns {A} (m : M A) : Prop :=
  forall ctx, exists a ctx', m ctx = Ok (a, ctx').

(** A piece of compiler code that neither throws nor leaves the model. *)
Definition safe {A} (m : M A) : Prop :=
  forall ctx, (exists a ctx', m ctx = Ok (a, ctx')) \/ m ctx = NoFuel.

(** [[{ field: 'roe', direction: 'Desc' }, { field: 'market_cap' }]] *)
Definition sort_by_roe : value :=
  VArr [ VObj [("field", VStr "roe"); ("direction", VStr "Desc")];
         VObj [("field", VStr "market_cap")] ].

(** [roe > 15 OR (pe_ratio BETWEEN 5 AND 20 AND net_income > 0 in all of
    the last 4 quarters)] *)
Definition mixed_tree : ltree :=
  Node "or"
    [ Leaf (cond "roe" ">" (VNum 15));
      Node "and"
        [ Leaf (cond "pe_ratio" "between" (VArr [VNum 5; VNum 20]));
          Leaf (cond_period "net_income" ">" (VNum 0) (period "last_n_quarters" 4 "all")) ] ].

(** Two contexts that differ at most in the values of their parameters. *)
Definition same_shape (c c' : context) : Prop :=
  paramCounter c = paramCounter c'
  /\ requiredTables c = requiredTables c'
  /\ periodSubqueries c = periodSubqueries c'
  /\ length (params c) = length (params c').

(** Two pieces of compiler code that produce the same text, and end the
    same way, from contexts of the same shape. *)
Definition same_text {A} (m m' : M A) : Prop :=
  forall c c', same_shape c c' ->
    match m c, m' c' with
    | Ok (a, d), Ok (a', d') => a = a' /\ same_shape d d'
    | Throw e, Throw e' => e = e'
    | Beyond, Beyond => True
    | NoFuel, NoFuel => True
    | _, _ => False
    end.

(** [c'] is [c] but for its [value], and where the value differs, [c] is
    a comparison of a field with a constant. *)
Definition same_but_value (c c' : value) : Prop :=
  truthy c' = truthy c
  /\ (forall k, k <> "value" -> get c' k = get c k)
  /\ (get c' "value" = get c "value"
      \/ ((exists op, get c "operator" = VStr op /\ In op comparisons)
          /\ truthy (get c "value_is_field") = false)).

(** [t'] is [t] with other constants in some of its comparisons. *)
Fixpoint revalued (t t' : ltree) : Prop :=
  match t, t' with
  | Leaf c, Leaf c' =>
      c' = c
      \/ (exists op v, get c "operator" = VStr op /\ In op comparisons
                       /\ truthy (get c "value_is_field") = false
                       /\ c' = set c "value" v)
  | Node op l, Node op' l' =>
      op = op'
      /\ (fix all2 (l l' : list ltree) : Prop :=
            match l, l' with
            | [], [] => True
            | x :: r, x' :: r' => revalued x x' /\ all2 r r'
            | _, _ => False
            end) l l'
  | _, _ => False
  end.

(** The results of [m'] are those of [m], wherever [m] does not stop for
    lack of recursion bound. *)
Definition refines {A} (m m' : M A) : Prop :=
  forall c, m c <> NoFuel -> m' c = m c.

(** [pe_ratio < 15 AND roe > 10], and the same tree with a hostile text
    in the place of the first constant. *)
Definition two_comparisons : ltree :=
  Node "and" [ Leaf (cond "pe_ratio" "<" (VNum 15)); Leaf (cond "roe" ">" (VNum 10)) ].

Definition hostile_comparisons : ltree :=
  Node "and" [ Leaf (cond "pe_ratio" "<" (VStr "0; DROP TABLE companies"));
               Leaf (cond "roe" ">" (VNum 10)) ].

(** A condition in the old format: [timeframe] in the place of [period]. *)
Definition legacy_condition : value :=
  VObj [ ("field", VStr "net_income"); ("operator", VStr ">"); ("value", VNum 0);
         ("timeframe", VObj [("period", VNum 50)]) ].

(** The alert types [evaluateAlert] has an evaluation for. *)
Definition EVALUATED_TYPES : list string :=
  [ "price_threshold"; "price_below_buy_price"; "earnings_upcoming";
    "buyback_announced"; "fundamental_condition" ].

(** The row [r] is the subscription [a], whatever its trigger state. *)
Definition same_subscription (a r : Alerts.alert) : Prop :=
  Alerts.id r = Alerts.id a /\ Alerts.user_id r = Alerts.user_id a
  /\ Alerts.ticker r = Alerts.ticker a /\ Alerts.alert_type r = Alerts.alert_type a
  /\ Alerts.is_active r = Alerts.is_active a.

(** The notification [n] was made for one of [rows]: an active
    subscription with a ticker, of a type that is evaluated. *)
Definition notified_for (rows : list Alerts.alert) (n : Alerts.notification) : Prop :=
  exists a, In a rows
    /\ Alerts.n_alert_id n = Alerts.id a /\ Alerts.n_user_id n = Alerts.user_id a
    /\ Alerts.n_ticker n = Alerts.ticker a
    /\ Alerts.is_active a = true /\ has_ticker a = true
    /\ In (Alerts.alert_type a) EVALUATED_TYPES.

(** How many of the notifications are for the alert [i]. *)
Definition count_for (i : nat) (ns : list Alerts.notification) : nat :=
  length (filter (fun n => (Alerts.n_alert_id n =? i)%nat) ns).

(** The rows of the store are those the processor started with, each
    triggered as often as it has notifications. *)
Definition counted (rows : list Alerts.alert) (w : Alerts.world) : Prop :=
  Forall2 (fun a r =>
             Alerts.id r = Alerts.id a
             /\ Alerts.trigger_count r
                = (Alerts.trigger_count a + count_for (Alerts.id a) (Alerts.notifications w))%nat)
    rows (Alerts.alert_subscriptions w).

(** The row [r] is one of the subscriptions the processor started with. *)
Definition known (rows : list Alerts.alert) (r : Alerts.alert) : Prop :=
  exists a, In a rows /\ same_subscription a r.

(** What the query of [processAlerts] selects: a known row, active and
    with a ticker. *)
Definition selected (rows : list Alerts.alert) (p : Alerts.alert) : Prop :=
  Alerts.is_active p = true /\ has_ticker p = true /\ known rows p.

(** Every row of the store is known, and every notification was made for
    a subscription that could be selected. *)
Definition sound_store (rows : list Alerts.alert) (w : Alerts.world) : Prop :=
  Forall (known rows) (Alerts.alert_subscriptions w)
  /\ Forall (notified_for rows) (Alerts.notifications w).

(** What holds of the processor however its calls interleave: the store
    is sound and the alerts still to evaluate were selected. *)
Definition sound (rows : list Alerts.alert) (s : Alerts.system) : Prop :=
  sound_store rows (Alerts.store s)
  /\ Forall (selected rows) (pending (Alerts.running s)).

(** [{ fundamental_metric: 'roe', fundamental_operator: 'above',
       fundamental_value: 15 }] *)
Definition roe_above_15 : value :=
  VObj [ ("fundamental_metric", VStr "roe"); ("fundamental_operator", VStr "above");
         ("fundamental_value", VNum 15) ].

(** A sort item [_validateSort] cannot read: [null] or [undefined], or an
    item whose [direction] is truthy and not a string. *)
Definition malformed_sort_item (s : value) : Prop :=
  nullish s = true
  \/ (truthy (get s "direction") = true /\ forall d, get s "direction" <> VStr d).

(** A sort item whose field has a text the model knows how to build (it
    is no array that holds arrays). *)
Definition sort_field_quotable (s : value) : Prop :=
  Run.quote (get s "field") <> Beyond.

(** [{ filter: {}, sort: [{ field: 'roe' }, null] }] *)
Definition null_sort_rule : value :=
  VObj [ ("filter", VObj []);
         ("sort", VArr [ VObj [("field", VStr "roe")]; VNull ]) ].

(** A text of ASCII characters: on these [toLowerCase] and [toUpperCase]
    are the mappings of [JS]. *)
Definition ascii_text (s : string) : bool :=
  forallb (fun c => (nat_of_ascii c <? 128)%nat) (list_ascii_of_string s).

(** The tables of the schema the compiler knows. *)
Definition SCHEMA_TABLES : list string :=
  [ "companies"; "fundamentals_quarterly"; "price_history"; "debt_profile";
    "cashflow_statements"; "analyst_estimates" ].

(** The set of required tables holds tables of the schema, each once. *)
Definition tables_ok (c : context) : Prop :=
  NoDup (requiredTables c) /\ incl (requiredTables c) SCHEMA_TABLES
  /\ In "companies" (requiredTables c).

(** A piece of compiler code that keeps [tables_ok], and whose result
    satisfies [Q]. *)
Definition keeps_tables {A} (m : M A) (Q : A -> Prop) : Prop :=
  forall c a c', tables_ok c -> m c = Ok (a, c') -> tables_ok c' /\ Q a.

(** [{ and: [pe_ratio < 15], or: [roe > 10] }] *)
Definition and_or_rule : value :=
  VObj [ ("and", VArr [cond "pe_ratio" "<" (VNum 15)]);
         ("or", VArr [cond "roe" ">" (VNum 10)]) ].

(** [{ filter: { and: [close < price_target_avg] } }] *)
Definition price_target_rule : value :=
  rule (VObj [("and", VArr [price_below_target])]).

End Props.

Import Validator Compiler Props Alerts.

(** Reading the properties of an object literal. *)
Ltac read_props := cbn [get assoc String.eqb Ascii.eqb Bool.eqb].

(* ================================================================== *)
(** * Basic facts *)
(* ================================================================== *)

Lemma str_in_In (s : string) (l : list string) : str_in s l = true <-> In s l.
Proof.
  induction l as [|x l IH]; simpl.
  - split; [discriminate | tauto].
  - rewrite orb_true_iff, IH. split.
    + intros [H|H]; [left; symmetry; now apply String.eqb_eq | now right].
    + intros [H|H]; [left; subst; apply String.eqb_refl | now right].
Qed.

Lemma allowed_field_truthy (f : string) :
  In f ALLOWED_FIELDS -> truthy (VStr f) = true.
Proof.
  intros H. simpl. destruct (String.eqb_spec f ""); [|reflexivity].
  subst. apply str_in_In in H. discriminate.
Qed.

Lemma append_assoc (a b c : string) : ((a ++ b) ++ c = a ++ (b ++ c))%string.
Proof. induction a as [|x a IH]; cbn; [reflexivity | now rewrite IH]. Qed.

Lemma app_nil_iff {A} (l1 l2 : list A) : l1 ++ l2 = [] <-> l1 = [] /\ l2 = [].
Proof. split; [apply app_eq_nil | now intros [-> ->]]. Qed.

Lemma comparison_cases (op : string) :
  In op comparisons ->
  op = "<" \/ op = ">" \/ op = "<=" \/ op = ">=" \/ op = "=" \/ op = "!=".
Proof. simpl. intuition auto. Qed.

Lemma is_str_true (v : value) (s : string) : is_str v s = true <-> v = VStr s.
Proof.
  destruct v; simpl; try (split; [discriminate | intros H; discriminate H]).
  rewrite String.eqb_eq. split; [now intros -> | now intros [= ->]].
Qed.

Lemma includes_true (l : list string) (v : value) :
  includes l v = true <-> exists a, v = VStr a /\ In a l.
Proof.
  destruct v; simpl; try (split; [discriminate | intros [a [H _]]; discriminate H]).
  rewrite str_in_In. split.
  - intros H. now exists s.
  - now intros [a [[= ->] H]].
Qed.

(* ================================================================== *)
(** * The validator *)
(* ================================================================== *)

(** A comparison of an allowed field with a number raises no error and
    is left as it is. *)
Lemma validateCondition_comparison (f op : string) (v : Q) :
  In f ALLOWED_FIELDS -> In op comparisons ->
  _validateCondition (cond f op (VNum v)) = ([], cond f op (VNum v)).
Proof.
  intros Hf Hop.
  pose proof (allowed_field_truthy f Hf) as Ht.
  apply str_in_In in Hf.
  unfold _validateCondition, cond. read_props.
  rewrite Ht. unfold includes at 1. rewrite Hf.
  destruct (comparison_cases op Hop) as [->|[->|[->|[->|[->| ->]]]]]; reflexivity.
Qed.

(** C2, as stated, fails: the constraints [pe_ratio > 50] and
    [pe_ratio < 5] have no common solution, yet the validator accepts the
    tree without any error, and the compiler produces SQL for it. *)
Lemma C2_conflict_accepted :
  ~ intersect ">" 50 "<" 5
  /\ validate conflict_tree = Ok (mkResult true [] conflict_tree)
  /\ exists c, compile conflict_tree = Ok c
               /\ sql_params c = [VNum 50; VNum 5; VNum 100].
Proof.
  split; [|split].
  - intros [x [H1 H2]]. cbn in H1, H2.
    apply (Qlt_irrefl 50). apply Qlt_trans with x; [assumption|].
    apply Qlt_trans with 5; [assumption | reflexivity].
  - vm_compute. reflexivity.
  - eexists. split; vm_compute; reflexivity.
Qed.

(** C2, amended: the validator checks each condition on its own.  For
    every allowed field and any two comparisons of it with constants at
    the same AND level, the tree is accepted with no error, whether or
    not the two constraints have a common solution. *)
Theorem C2_conditions_checked_one_by_one (f op1 op2 : string) (a b : Q) :
  In f ALLOWED_FIELDS -> In op1 comparisons -> In op2 comparisons ->
  validate (and2 f op1 a op2 b) = Ok (mkResult true [] (and2 f op1 a op2 b)).
Proof.
  intros Hf H1 H2.
  pose proof (allowed_field_truthy f Hf) as Ht.
  assert (T1 : truthy (VStr op1) = true).
  { destruct (comparison_cases op1 H1) as [->|[->|[->|[->|[->| ->]]]]]; reflexivity. }
  assert (T2 : truthy (VStr op2) = true).
  { destruct (comparison_cases op2 H2) as [->|[->|[->|[->|[->| ->]]]]]; reflexivity. }
  unfold validate, and2, rule. read_props.
  cbn [truthy typeof jstype_eqb negb orb].
  cbn [_validateFilter keys_loop filter_key str_in ALLOWED_LOGICAL_OPERATORS
       String.eqb Ascii.eqb Bool.eqb orb conditions_loop].
  assert (C1 : Validator._isCondition (cond f op1 (VNum a)) = true).
  { unfold Validator._isCondition, cond. read_props. rewrite Ht, T1. reflexivity. }
  assert (C2 : Validator._isCondition (cond f op2 (VNum b)) = true).
  { unfold Validator._isCondition, cond. read_props. rewrite Ht, T2. reflexivity. }
  rewrite C1, C2.
  rewrite !validateCondition_comparison by assumption.
  reflexivity.
Qed.

Lemma C2_witness :
  ~ intersect "=" 15 "!=" 15
  /\ validate (and2 "roe" "=" 15 "!=" 15)
     = Ok (mkResult true [] (and2 "roe" "=" 15 "!=" 15)).
Proof.
  split.
  - intros [x [H1 H2]]. cbn in H1, H2. exact (H2 H1).
  - apply (C2_conditions_checked_one_by_one "roe" "=" "!=" 15 15);
      apply str_in_In; reflexivity.
Defined.

(** Induction on logical trees, with the hypothesis for every child. *)
Lemma ltree_induction (P : ltree -> Prop) :
  (forall c, P (Leaf c)) ->
  (forall op l, Forall P l -> P (Node op l)) ->
  forall t, P t.
Proof.
  intros HL HN.
  fix IH 1. intros [c|op l].
  - apply HL.
  - apply HN. induction l as [|x l IHl]; constructor; [apply IH | exact IHl].
Qed.

Lemma node_not_condition (op : string) (v : value) :
  str_in op ALLOWED_LOGICAL_OPERATORS = true ->
  Validator._isCondition (VObj [(op, v)]) = false.
Proof.
  intros H. apply str_in_In in H.
  destruct H as [<-|[<-|[<-|[]]]]; reflexivity.
Qed.

Lemma validateFilter_node (op : string) (items : list value) :
  str_in op ALLOWED_LOGICAL_OPERATORS = true ->
  fst (_validateFilter (VObj [(op, VArr items)]))
  = fst (conditions_loop _validateFilter items).
Proof.
  intros H. cbn [_validateFilter keys_loop]. unfold filter_key. rewrite H.
  destruct (conditions_loop _validateFilter items) as [e items'].
  cbn. apply app_nil_r.
Qed.

(** What the loop over an array does with a well-formed tree: no error. *)
Lemma well_formed_no_errors (t : ltree) :
  well_formed t = true ->
  fst (if Validator._isCondition (encode t) then _validateCondition (encode t)
       else if jstype_eqb (typeof (encode t)) TObject then _validateFilter (encode t)
       else ([EInvalidConditionInFilter], encode t)) = [].
Proof.
  induction t as [c|op l IH] using ltree_induction; intros W; cbn [well_formed] in W;
    apply andb_true_iff in W as [W1 W2].
  - cbn [encode]. rewrite W1.
    destruct (fst (_validateCondition c)); [reflexivity | discriminate].
  - cbn [encode]. rewrite (node_not_condition op _ W1). cbn [typeof jstype_eqb].
    rewrite (validateFilter_node op _ W1).
    induction l as [|x l IHl]; [reflexivity|].
    cbn [forallb] in W2. apply andb_true_iff in W2 as [Wx Wl].
    inversion IH as [|? ? Hx Hl]; subst.
    cbn [map conditions_loop].
    specialize (Hx Wx). specialize (IHl Hl Wl).
    destruct (if Validator._isCondition (encode x) then _validateCondition (encode x)
              else if jstype_eqb (typeof (encode x)) TObject then _validateFilter (encode x)
              else ([EInvalidConditionInFilter], encode x)) as [ec c'].
    destruct (conditions_loop _validateFilter (map encode l)) as [em more'].
    cbn in *. subst. reflexivity.
Qed.

(** ** The validator and the compiler on a finite stack *)

Lemma run_condition_valid (c : value) :
  fst (Validator._validateCondition c) = [] ->
  Run._validateCondition c = Ok (Validator._validateCondition c).
Proof. intros H. unfold Run._validateCondition. rewrite H. reflexivity. Qed.

(** [_validateCondition] returns without an error exactly where
    [Validator._validateCondition] finds none. *)
Lemma run_condition_no_errors (c : value) :
  (exists c', Run._validateCondition c = Ok ([], c'))
  <-> fst (Validator._validateCondition c) = [].
Proof.
  split.
  - intros [c' H]. unfold Run._validateCondition in H.
    destruct (Run.messages _); cbn [obind] in H; try discriminate H.
    apply (f_equal (fun o => match o with Ok r => fst r | _ => [] end)) in H.
    exact H.
  - intros H. exists (snd (Validator._validateCondition c)).
    rewrite (run_condition_valid c H).
    destruct (Validator._validateCondition c) as [e c']. cbn [fst snd] in *. now subst e.
Qed.

Lemma depth_node_le (op : string) (l : list ltree) (room : nat) :
  (depth (Node op l) <= S room)%nat <-> Forall (fun t => (depth t <= room)%nat) l.
Proof.
  cbn [depth]. rewrite <- Nat.succ_le_mono.
  induction l as [|x l IH]; cbn [fold_right].
  - split; [constructor | lia].
  - rewrite Nat.max_lub_iff, IH. split.
    + intros [H1 H2]. now constructor.
    + intros H. inversion H. now split.
Qed.

(** What the loop over an array does with a well-formed tree, on a stack
    with [room] for nested calls: the result of [Validator], or a
    [RangeError] where the tree is too deep. *)
Lemma run_well_formed (t : ltree) :
  well_formed t = true ->
  forall room,
    (if Validator._isCondition (encode t) then Run._validateCondition (encode t)
     else if jstype_eqb (typeof (encode t)) TObject
          then Run._validateFilter room (encode t)
          else Ok ([EInvalidConditionInFilter], encode t))
    = if (depth t <=? room)%nat
      then Ok (if Validator._isCondition (encode t)
               then Validator._validateCondition (encode t)
               else if jstype_eqb (typeof (encode t)) TObject
                    then Validator._validateFilter (encode t)
                    else ([EInvalidConditionInFilter], encode t))
      else Throw RangeError.
Proof.
  induction t as [c|op l IH] using ltree_induction; intros W room;
    cbn [well_formed] in W; apply andb_true_iff in W as [W1 W2].
  - cbn [encode depth Nat.leb]. rewrite W1. apply run_condition_valid.
    destruct (fst (Validator._validateCondition c)); [reflexivity | discriminate].
  - cbn [encode]. rewrite (node_not_condition op _ W1). cbn [typeof jstype_eqb].
    destruct room as [|room]; [reflexivity|].
    assert (L : Run.conditions_loop (Run._validateFilter room) (map encode l)
                = if forallb (fun t => (depth t <=? room)%nat) l
                  then Ok (Validator.conditions_loop Validator._validateFilter (map encode l))
                  else Throw RangeError).
    { clear W1. induction l as [|x l IHl]; [reflexivity|].
      cbn [forallb] in W2. apply andb_true_iff in W2 as [Wx Wl].
      inversion IH as [|? ? Hx Hl]; subst.
      cbn [map Run.conditions_loop Validator.conditions_loop forallb].
      rewrite (Hx Wx room), (IHl Hl Wl).
      destruct (depth x <=? room)%nat; [|reflexivity].
      cbn [obind andb].
      destruct (if Validator._isCondition (encode x) then _ else _) as [ec c'].
      destruct (forallb (fun t => (depth t <=? room)%nat) l); [|reflexivity].
      cbn [obind].
      destruct (Validator.conditions_loop _ _) as [em more']. reflexivity. }
    assert (D : (depth (Node op l) <=? S room)%nat
                = forallb (fun t => (depth t <=? room)%nat) l).
    { apply eq_true_iff_eq. rewrite Nat.leb_le, depth_node_le, forallb_forall, Forall_forall.
      split; intros H x Hx; specialize (H x Hx); now apply Nat.leb_le. }
    rewrite D.
    cbn [Run._validateFilter Run.keys_loop Validator._validateFilter Validator.keys_loop].
    unfold Run.filter_key, Validator.filter_key. rewrite W1, L.
    destruct (forallb (fun t => (depth t <=? room)%nat) l); [|reflexivity].
    cbn [obind]. destruct (Validator.conditions_loop _ _) as [e items']. reflexivity.
Qed.

(** [validate] on a well-formed tree: accepted where the stack has room
    for its depth, a [RangeError] where it has not. *)
Lemma run_validate_tree (stack : nat) (t : ltree) :
  is_node t = true -> well_formed t = true ->
  Run.validate stack (rule (encode t))
  = if (depth t <=? stack)%nat
    then Ok (mkResult true []
               (rule (snd (Validator._validateFilter (encode t)))))
    else Throw RangeError.
Proof.
  intros N W. destruct t as [c|op l]; [discriminate|].
  pose proof (run_well_formed (Node op l) W stack) as R.
  pose proof (well_formed_no_errors (Node op l) W) as E.
  cbn [well_formed] in W. apply andb_true_iff in W as [W1 _].
  cbn [encode] in *. rewrite (node_not_condition op _ W1) in R, E.
  cbn [typeof jstype_eqb] in R, E.
  unfold Run.validate, rule.
  cbn [get assoc String.eqb Ascii.eqb Bool.eqb truthy typeof jstype_eqb negb orb].
  rewrite R. destruct (depth (Node op l) <=? stack)%nat; [|reflexivity].
  cbn [obind].
  destruct (Validator._validateFilter (VObj [(op, VArr (map encode l))])) as [e f'].
  cbn [fst snd] in *. subst e. reflexivity.
Qed.

(** ** What a run returns is what [Validator] computes *)

Lemma run_condition_returns (c : value) (r : list verror * value) :
  Run._validateCondition c = Ok r -> Validator._validateCondition c = r.
Proof.
  unfold Run._validateCondition.
  destruct (Run.messages _); cbn [obind]; congruence.
Qed.

Lemma run_conditions_loop_returns
  (rf : value -> outcome (list verror * value)) (pf : value -> list verror * value) :
  (forall x r, rf x = Ok r -> pf x = r) ->
  forall items r, Run.conditions_loop rf items = Ok r ->
                  Validator.conditions_loop pf items = r.
Proof.
  intros H. induction items as [|c more IH]; intros r; cbn [Run.conditions_loop
    Validator.conditions_loop]; [congruence|].
  destruct (Validator._isCondition c).
  - destruct (Run._validateCondition c) as [[ec c']| | |] eqn:E; cbn [obind];
      try discriminate.
    rewrite (run_condition_returns _ _ E).
    destruct (Run.conditions_loop rf more) as [[em more']| | |]; cbn [obind];
      try discriminate.
    rewrite (IH _ eq_refl). congruence.
  - destruct (jstype_eqb (typeof c) TObject).
    + destruct (rf c) as [[ec c']| | |] eqn:E; cbn [obind]; try discriminate.
      rewrite (H _ _ E).
      destruct (Run.conditions_loop rf more) as [[em more']| | |]; cbn [obind];
        try discriminate.
      rewrite (IH _ eq_refl). congruence.
    + cbn [obind].
      destruct (Run.conditions_loop rf more) as [[em more']| | |]; cbn [obind];
        try discriminate.
      rewrite (IH _ eq_refl). congruence.
Qed.

Lemma run_keys_loop_returns
  (rf : value -> outcome (list verror * value)) (pf : value -> list verror * value) :
  (forall x r, rf x = Ok r -> pf x = r) ->
  forall props r, Run.keys_loop rf props = Ok r -> Validator.keys_loop pf props = r.
Proof.
  intros H. induction props as [|[key v] rest IH]; intros r;
    cbn [Run.keys_loop Validator.keys_loop]; [congruence|].
  assert (K : forall r1, Run.filter_key rf key v = Ok r1 ->
                         Validator.filter_key pf key v = r1).
  { intros r1. unfold Run.filter_key, Validator.filter_key.
    destruct (str_in key ALLOWED_LOGICAL_OPERATORS); [|congruence].
    destruct v; try congruence.
    destruct (Run.conditions_loop rf items) as [[e items']| | |] eqn:E; cbn [obind];
      try discriminate.
    rewrite (run_conditions_loop_returns rf pf H _ _ E). congruence. }
  destruct (Run.filter_key rf key v) as [[e1 v']| | |]; cbn [obind]; try discriminate.
  rewrite (K _ eq_refl).
  destruct (Run.keys_loop rf rest) as [[e2 rest']| | |]; cbn [obind]; try discriminate.
  rewrite (IH _ eq_refl). congruence.
Qed.

Lemma run_validateFilter_returns (stack : nat) :
  forall filter r, Run._validateFilter stack filter = Ok r ->
                   Validator._validateFilter filter = r.
Proof.
  induction stack as [|room IH]; intros filter r; [discriminate|].
  cbn [Run._validateFilter]. destruct filter; cbn [Validator._validateFilter];
    try congruence.
  destruct (Run.keys_loop (Run._validateFilter room) props) as [[e props']| | |] eqn:E;
    cbn [obind]; try discriminate.
  rewrite (run_keys_loop_returns _ _ IH _ _ E). congruence.
Qed.

Lemma run_sort_items_returns (items : list value) (e : list verror) :
  Run.sort_items items = Ok e -> Validator.sort_items items = Ok e.
Proof.
  revert e. induction items as [|s rest IH]; intros e;
    cbn [Run.sort_items Validator.sort_items]; [congruence|].
  destruct (nullish s); [discriminate|].
  assert (F : forall e1,
             (if negb (truthy (get s "field")) then Ok [ESortNoField]
              else if negb (includes ALLOWED_FIELDS (get s "field"))
                   then obind (Run.quote (get s "field"))
                          (fun _ => Ok [EInvalidSortField (get s "field")])
                   else Ok []) = Ok e1 ->
             e1 = (if negb (truthy (get s "field")) then [ESortNoField]
                   else if negb (includes ALLOWED_FIELDS (get s "field"))
                        then [EInvalidSortField (get s "field")]
                        else [])).
  { intros e1. destruct (negb (truthy (get s "field"))); [congruence|].
    destruct (negb (includes ALLOWED_FIELDS (get s "field"))); [|congruence].
    destruct (Run.quote (get s "field")); cbn [obind]; congruence. }
  destruct (if negb (truthy (get s "field")) then Ok [ESortNoField] else _)
    as [e1| | |]; cbn [obind]; try discriminate.
  rewrite <- (F _ eq_refl).
  destruct (if truthy (get s "direction") then _ else _) as [e2| | |]; cbn [obind];
    try discriminate.
  destruct (Run.sort_items rest) as [es| | |]; cbn [obind]; try discriminate.
  rewrite (IH _ eq_refl). cbn [obind]. congruence.
Qed.

(** A result [validate] returns on a finite stack is the result
    [Validator.validate] computes. *)
Lemma run_validate_returns (stack : nat) (dsl : value) (r : result) :
  Run.validate stack dsl = Ok r -> validate dsl = Ok r.
Proof.
  unfold Run.validate, validate.
  destruct (negb (truthy dsl) || negb (jstype_eqb (typeof dsl) TObject)); [congruence|].
  destruct (negb (truthy (get dsl "filter"))); [congruence|].
  destruct (Run._validateFilter stack (get dsl "filter")) as [[fe f']| | |] eqn:E;
    cbn [obind]; try discriminate.
  rewrite (run_validateFilter_returns _ _ _ E).
  destruct (truthy (get dsl "sort")).
  - unfold Run._validateSort, Validator._validateSort.
    destruct (get dsl "sort"); cbn [obind]; try congruence.
    destruct (Run.sort_items items) as [se| | |] eqn:S; cbn [obind]; try discriminate.
    rewrite (run_sort_items_returns _ _ S). cbn [obind]. congruence.
  - cbn [obind]. congruence.
Qed.

(** C5, as stated, fails: a tree of nesting depth 6 over a valid
    condition is accepted, not rejected. *)
Lemma C5_depth_six_accepted :
  depth (nest 6 (cond "pe_ratio" "<" (VNum 15))) = 6%nat
  /\ well_formed (nest 6 (cond "pe_ratio" "<" (VNum 15))) = true
  /\ accepts (rule (encode (nest 6 (cond "pe_ratio" "<" (VNum 15))))) = true.
Proof. repeat split; vm_compute; reflexivity. Qed.

(** C5, amended: the validator has no nesting limit of its own.  Every
    tree of [and] / [or] / [not] nodes over arrays of children whose
    conditions are each valid is accepted at every depth the call stack
    has room for: depth 5, and depth 6 or more alike. *)
Theorem C5_no_depth_limit (stack : nat) (t : ltree) :
  is_node t = true -> well_formed t = true -> (depth t <= stack)%nat ->
  Run.accepts stack (rule (encode t)) = true.
Proof.
  intros N W D. unfold Run.accepts. rewrite (run_validate_tree stack t N W).
  apply Nat.leb_le in D. rewrite D. reflexivity.
Qed.

Lemma C5_witness :
  depth (nest 7 (cond "roe" ">" (VNum 10))) = 7%nat
  /\ Run.accepts 7 (rule (encode (nest 7 (cond "roe" ">" (VNum 10))))) = true.
Proof.
  split; [reflexivity|].
  apply (C5_no_depth_limit 7 (nest 7 (cond "roe" ">" (VNum 10)))); reflexivity.
Defined.

Lemma number_in_range (n : value) :
  negb (truthy n) || negb (jstype_eqb (typeof n) TNumber) || outside n 1 20 = false
  <-> exists q, n = VNum q /\ 1 <= q /\ q <= 20.
Proof.
  split.
  - destruct n as [| | | |q| | | |]; cbn; try discriminate.
    + destruct b; discriminate.
    + intros H. exists q. split; [reflexivity|].
      apply orb_false_iff in H as [H1 H2].
      apply orb_false_iff in H2 as [H2 H3].
      apply negb_false_iff in H2, H3.
      now rewrite !Qle_bool_iff in *.
    + destruct (negb (s =? "")); discriminate.
  - intros [q [-> [H1 H2]]]. cbn.
    apply Qle_bool_iff in H1 as H1', H2 as H2'. rewrite H1', H2'.
    destruct (Qeq_bool q 0) eqn:E; [|reflexivity].
    apply Qeq_bool_iff in E. rewrite E in H1. now apply Qle_bool_iff in H1.
Qed.

(** The period block raises no error exactly on the periods of
    [period_ok]. *)
Lemma period_errors_nil (p : value) :
  truthy p = true -> (period_errors p = [] <-> period_ok p).
Proof.
  intros Hp. unfold period_errors, period_ok.
  destruct (jstype_eqb (typeof p) TObject) eqn:Ty; cbn [negb].
  - assert (Hty : typeof p = TObject) by (destruct p; try discriminate; reflexivity).
    rewrite !app_nil_iff.
    assert (A : (if negb (truthy (get p "type"))
                    || negb (is_str (get p "type") "last_n_quarters")
                 then [EPeriodType] else []) = []
                <-> get p "type" = VStr "last_n_quarters").
    { destruct (is_str (get p "type") "last_n_quarters") eqn:E.
      - apply is_str_true in E. rewrite E. cbn. tauto.
      - rewrite orb_true_r. split; [discriminate|].
        intros H. apply is_str_true in H. congruence. }
    assert (B : (if negb (truthy (get p "n"))
                    || negb (jstype_eqb (typeof (get p "n")) TNumber)
                    || outside (get p "n") 1 20 then [EPeriodN] else []) = []
                <-> exists q, get p "n" = VNum q /\ 1 <= q /\ q <= 20).
    { rewrite <- number_in_range.
      destruct (negb (truthy (get p "n"))
                || negb (jstype_eqb (typeof (get p "n")) TNumber)
                || outside (get p "n") 1 20); split; congruence. }
    assert (C : (if truthy (get p "aggregation")
                    && negb (includes ALLOWED_AGGREGATIONS (get p "aggregation"))
                 then [EInvalidAggregation (get p "aggregation")] else []) = []
                <-> (truthy (get p "aggregation") = false
                     \/ exists a, get p "aggregation" = VStr a
                                  /\ In a ALLOWED_AGGREGATIONS)).
    { rewrite <- includes_true.
      destruct (truthy (get p "aggregation")),
               (includes ALLOWED_AGGREGATIONS (get p "aggregation"));
        cbn; split; try tauto; try discriminate; intros [H|H]; discriminate. }
    rewrite A, B, C. tauto.
  - split; [discriminate|]. intros [H _]. rewrite H in Ty. discriminate.
Qed.

(** C6, as stated, fails: [last_n_years] is one of the five period types
    and [min] one of the eight aggregations of the specification, with
    [n] = 4 in range, yet the validator rejects both periods. *)
Lemma C6_other_period_kinds_rejected :
  In "last_n_years" SPEC_PERIOD_TYPES /\ In "min" SPEC_AGGREGATIONS
  /\ fst (_validateCondition
            (cond_period "net_income" ">" (VNum 0) (period "last_n_years" 4 "all")))
     = [EPeriodType]
  /\ fst (_validateCondition
            (cond_period "net_income" ">" (VNum 0) (period "last_n_quarters" 4 "min")))
     = [EInvalidAggregation (VStr "min")].
Proof. repeat split; try (apply str_in_In; reflexivity); vm_compute; reflexivity. Qed.

(** C6, amended: the validator accepts the period of a condition (the
    call of [_validateCondition] returns without an error) exactly when
    the period is absent or otherwise falsy ([0], [''], [false], [null]:
    it is then not looked at), or is an object whose [type] is
    [last_n_quarters], whose [n] is a number in [1, 20], and whose
    [aggregation] is absent (or otherwise falsy) or one of [all], [any],
    [avg], [sum], [latest]. *)
Theorem C6_period_accepted_iff (f op : string) (v : Q) (p : value) :
  In f ALLOWED_FIELDS -> In op comparisons ->
  ((exists c', Run._validateCondition (cond_period f op (VNum v) p) = Ok ([], c'))
   <-> truthy p = false \/ period_ok p).
Proof.
  intros Hf Hop. rewrite run_condition_no_errors.
  pose proof (allowed_field_truthy f Hf) as Ht.
  apply str_in_In in Hf.
  assert (E : fst (_validateCondition (cond_period f op (VNum v) p))
              = if truthy p then period_errors p else []).
  { unfold _validateCondition, cond_period. read_props.
    rewrite Ht. unfold includes at 1. rewrite Hf.
    destruct (comparison_cases op Hop) as [->|[->|[->|[->|[->| ->]]]]];
      cbn; destruct (truthy p); reflexivity. }
  rewrite E. destruct (truthy p) eqn:Hp.
  - rewrite (period_errors_nil p Hp). split; [now right|].
    intros [H|H]; [discriminate | exact H].
  - split; [now left | reflexivity].
Qed.

Lemma C6_witness :
  (exists c', Run._validateCondition
                (cond_period "eps" "<" (VNum 3) (period "last_n_quarters" 8 "avg"))
              = Ok ([], c'))
  /\ (exists c', Run._validateCondition (cond_period "eps" "<" (VNum 3) (VNum 0))
                 = Ok ([], c')).
Proof.
  split.
  - apply (C6_period_accepted_iff "eps" "<" 3 (period "last_n_quarters" 8 "avg")).
    + apply str_in_In. reflexivity.
    + apply str_in_In. reflexivity.
    + right. repeat split.
      * exists 8. repeat split; discriminate.
      * right. exists "avg". split; [reflexivity | apply str_in_In; reflexivity].
  - apply (C6_period_accepted_iff "eps" "<" 3 (VNum 0)).
    + apply str_in_In. reflexivity.
    + apply str_in_In. reflexivity.
    + left. reflexivity.
Defined.

(** C7, as stated, fails: the inverted pair [10, 1] and the equal pair
    [5, 5] raise no error, and a tree holding the inverted pair is
    accepted. *)
Lemma C7_inverted_pair_accepted :
  fst (_validateCondition (cond "pe_ratio" "between" (VArr [VNum 10; VNum 1]))) = []
  /\ fst (_validateCondition (cond "pe_ratio" "between" (VArr [VNum 5; VNum 5]))) = []
  /\ validate (rule (VObj [("and", VArr [cond "pe_ratio" "between"
                                            (VArr [VNum 10; VNum 1])])]))
     = Ok (mkResult true []
             (rule (VObj [("and", VArr [cond "pe_ratio" "between"
                                          (VArr [VNum 10; VNum 1])])]))).
Proof. repeat split; vm_compute; reflexivity. Qed.

(** C7, amended: for a condition with operator [between] on an allowed
    field (and no [value_is_field]), the validator accepts the value
    exactly when it is an array of two elements; it does not compare the
    two. *)
Theorem C7_between_checks_shape_only (f : string) (v : value) :
  In f ALLOWED_FIELDS ->
  (fst (_validateCondition (cond f "between" v)) = [] <-> exists a b, v = VArr [a; b]).
Proof.
  intros Hf.
  pose proof (allowed_field_truthy f Hf) as Ht.
  apply str_in_In in Hf.
  unfold _validateCondition, cond. read_props.
  rewrite Ht. unfold includes at 1. rewrite Hf.
  cbn [negb fst truthy is_str String.eqb Ascii.eqb Bool.eqb includes str_in
       ALLOWED_OPERATORS orb andb app].
  split.
  - destruct v as [| | | | |s|items|props|]; cbn; try discriminate.
    destruct items as [|a [|b [|c r]]]; cbn; try discriminate.
    intros _. now exists a, b.
  - intros [a [b ->]]. reflexivity.
Qed.

Lemma C7_witness :
  fst (_validateCondition (cond "roe" "between" (VArr [VNum 3; VNum 2]))) = [].
Proof.
  apply (C7_between_checks_shape_only "roe" (VArr [VNum 3; VNum 2])).
  - apply str_in_In. reflexivity.
  - exists (VNum 3), (VNum 2). reflexivity.
Defined.

(* ================================================================== *)
(** * The compiler *)
(* ================================================================== *)

Lemma ff_ret {A} (a : A) : fuel_free (ret a).
Proof. intros c. discriminate. Qed.
Lemma ff_throw {A} (e : exn) : fuel_free (@throw A e).
Proof. intros c. discriminate. Qed.
Lemma ff_beyond {A} : fuel_free (@beyond A).
Proof. intros c. discriminate. Qed.
Lemma ff_push (v : value) : fuel_free (push v).
Proof. intros c. discriminate. Qed.
Lemma ff_placeholder : fuel_free placeholder.
Proof. intros c. discriminate. Qed.
Lemma ff_counter : fuel_free counter.
Proof. intros c. discriminate. Qed.
Lemma ff_add_table (t : string) : fuel_free (add_table t).
Proof. intros c. discriminate. Qed.
Lemma ff_bind {A B} (m : M A) (f : A -> M B) :
  fuel_free m -> (forall a, fuel_free (f a)) -> fuel_free (bind m f).
Proof.
  intros Hm Hf c. unfold bind. specialize (Hm c).
  destruct (m c) as [[a c']| | |]; try discriminate; [apply Hf | congruence].
Qed.
Lemma ff_lift {A} (o : outcome A) : o <> NoFuel -> fuel_free (lift o).
Proof. intros H c. unfold lift. destruct o; cbn; congruence. Qed.
Lemma ff_mapM {A B} (f : A -> M B) (l : list A) :
  (forall x, In x l -> fuel_free (f x)) -> fuel_free (mapM f l).
Proof.
  induction l as [|x l IH]; intros H; cbn [mapM].
  - apply ff_ret.
  - apply ff_bind; [apply H; now left|]. intros y.
    apply ff_bind; [apply IH; intros z Hz; apply H; now right|]. intros ys. apply ff_ret.
Qed.
Lemma lookup_field_fuel (k : value) : lookup_field k <> NoFuel.
Proof.
  destruct k; cbn [lookup_field]; try discriminate.
  destruct (str_in s prototype_keys); discriminate.
Qed.

Ltac ff_step :=
  lazymatch goal with
  | |- fuel_free (ret _) => apply ff_ret
  | |- fuel_free (throw _) => apply ff_throw
  | |- fuel_free beyond => apply ff_beyond
  | |- fuel_free (push _) => apply ff_push
  | |- fuel_free placeholder => apply ff_placeholder
  | |- fuel_free counter => apply ff_counter
  | |- fuel_free (add_table _) => apply ff_add_table
  | |- fuel_free (lift (lookup_field _)) => apply ff_lift; apply lookup_field_fuel
  | |- fuel_free (bind _ _) => apply ff_bind; [|intros ?]
  | |- fuel_free (mapM _ _) => apply ff_mapM; intros ? ?
  | |- fuel_free (if ?b then _ else _) => destruct b
  | |- fuel_free (match ?x with _ => _ end) => destruct x
  end.
Ltac ff := repeat ff_step.

Lemma ff_index (v : value) (i : nat) : fuel_free (index v i).
Proof. unfold index. ff. Qed.
Lemma ff_op_text (v : value) : fuel_free (op_text v).
Proof. unfold op_text. ff. Qed.
Lemma ff_compileOperator (colRef : string) (c : value) : fuel_free (_compileOperator colRef c).
Proof. unfold _compileOperator. ff; try apply ff_index. Qed.
Lemma ff_compilePeriodCondition (c : value) (fi : fieldInfo) :
  fuel_free (_compilePeriodCondition c fi).
Proof. unfold _compilePeriodCondition. ff; try apply ff_op_text; try apply ff_compileOperator. Qed.
Lemma ff_compileCondition (c : value) : fuel_free (_compileCondition c).
Proof.
  unfold _compileCondition.
  ff; try apply ff_op_text; try apply ff_compileOperator; try apply ff_compilePeriodCondition.
Qed.

Lemma vdepth_assoc (k : string) (props : list (string * value)) :
  (vdepth (assoc k props) <= fold_right (fun kv m => Nat.max (vdepth (snd kv)) m) 0 props)%nat.
Proof.
  induction props as [|[k' v] r IH]; cbn [assoc fold_right snd]; [cbn; lia|].
  destruct (String.eqb k k'); lia.
Qed.

Lemma vdepth_get (o : value) (k : string) :
  truthy (get o k) = true -> (S (vdepth (get o k)) <= vdepth o)%nat.
Proof.
  destruct o; cbn [get]; try discriminate.
  - destruct (_ || _); [intros _; cbn; lia | discriminate].
  - intros _. cbn [vdepth]. pose proof (vdepth_assoc k props). lia.
Qed.

Lemma vdepth_item (x : value) (items : list value) :
  In x items -> (S (vdepth x) <= vdepth (VArr items))%nat.
Proof.
  cbn [vdepth]. induction items as [|y r IH]; [intros []|].
  intros [->|H]; cbn [fold_right]; [lia|]. specialize (IH H). lia.
Qed.

Lemma ff_compileLogical (rec : value -> M string) (conditions : value) (joiner : string) :
  (forall x items, conditions = VArr items -> In x items -> fuel_free (rec x)) ->
  fuel_free (_compileLogical_with rec conditions joiner).
Proof.
  intros H. unfold _compileLogical_with. destruct conditions; try apply ff_throw.
  apply ff_bind; [|intros ?; apply ff_ret].
  apply ff_mapM. intros x Hx. destruct (Compiler._isCondition x); [apply ff_compileCondition|].
  apply ff_bind; [eapply H; [reflexivity | exact Hx] | intros ?; apply ff_ret].
Qed.

Lemma ff_compileFilter (fuel : nat) :
  forall filter, (vdepth filter < fuel)%nat -> fuel_free (_compileFilter fuel filter).
Proof.
  induction fuel as [|fuel IH]; intros filter Hd; [lia|].
  cbn [_compileFilter].
  destruct (negb (truthy filter)); [apply ff_ret|].
  assert (sub : forall k x items, truthy (get filter k) = true -> get filter k = VArr items ->
                  In x items -> fuel_free (_compileFilter fuel x)).
  { intros k x items Ht E Hx. apply IH.
    pose proof (vdepth_get filter k Ht) as G. rewrite E in G.
    pose proof (vdepth_item x items Hx). lia. }
  destruct (truthy (get filter "and")) eqn:Ta.
  { apply ff_compileLogical. intros x items E Hx. now apply (sub "and" x items). }
  destruct (truthy (get filter "or")) eqn:To.
  { apply ff_compileLogical. intros x items E Hx. now apply (sub "or" x items). }
  destruct (truthy (get filter "not")) eqn:Tn; [|apply ff_ret].
  apply ff_bind; [|intros ?; apply ff_ret].
  destruct (Compiler._isCondition (get filter "not")) eqn:Ic; [apply ff_compileCondition|].
  pose proof (vdepth_get filter "not" Tn) as G.
  apply IH. lia.
Qed.

Lemma compileSort_fuel (sort : value) : _compileSort sort <> NoFuel.
Proof.
  unfold _compileSort.
  assert (H : forall l, (fix each (l : list value) : outcome (list string) :=
        match l with
        | [] => Ok []
        | s :: r =>
            if nullish s then Throw TypeError
            else
              obind (lookup_field (get s "field")) (fun ofi =>
              match ofi with
              | None => Throw TypeError
              | Some fi =>
                  match or_else (get s "direction") (VStr "ASC") with
                  | VStr d =>
                      obind (each r) (fun rest =>
                        Ok ((_getTableAlias (table fi) ++ "." ++ column fi ++ " "
                             ++ toUpperCase d ++ " NULLS LAST")%string :: rest))
                  | _ => Throw TypeError
                  end
              end)
        end) l <> NoFuel).
  { induction l as [|s r IH]; [discriminate|].
    destruct (nullish s); [discriminate|].
    pose proof (lookup_field_fuel (get s "field")) as L.
    destruct (lookup_field (get s "field")) as [[fi|]| | |]; cbn [obind]; try discriminate;
      [|congruence].
    destruct (or_else (get s "direction") (VStr "ASC")); try discriminate.
    destruct ((fix each (l : list value) : outcome (list string) := _) r); cbn; congruence. }
  match goal with |- obind ?x _ <> _ => pose proof (H (match sort with VArr l => l | _ => [sort] end)) as H'; destruct x end; cbn; congruence.
Qed.

(** [compile] never stops for lack of recursion bound: the nesting depth of
    its argument is enough. *)
Theorem compile_fuel_suffices (dsl : value) : compile dsl <> NoFuel.
Proof.
  unfold compile, compile_with.
  destruct (nullish dsl); [discriminate|].
  assert (F : fuel_free (whereClause <- _compileFilter (S (vdepth dsl)) (get dsl "filter") ;;
                         add_table "price_history" ;;;
                         add_table "fundamentals_quarterly" ;;; ret whereClause)).
  { apply ff_bind; [|intros ?; ff].
    destruct (truthy (get dsl "filter")) eqn:T.
    - pose proof (vdepth_get dsl "filter" T) as G.
      apply ff_compileFilter. lia.
    - intros c. cbn [_compileFilter]. rewrite T. discriminate. }
  specialize (F (mkContext [] 1 ["companies"] [])).
  match goal with |- obind ?x _ <> _ => destruct x as [[w c]| | |] end; cbn [obind];
    try congruence.
  pose proof (compileSort_fuel (get dsl "sort")) as S.
  destruct (truthy (get dsl "sort")); [|discriminate].
  destruct (_compileSort (get dsl "sort")); cbn; congruence.
Qed.

(** C1: the tree [{ and: [ { pe_ratio, all_quarters, 1 } ] }] is accepted
    by the validator, which hands it on unchanged, and [compile] throws
    'Unsupported operator: all_quarters' on it: the operator is in the
    validator's [ALLOWED_OPERATORS] and in no case of [_compileOperator]. *)
Theorem C1_accepted_tree_makes_compile_throw :
  validate all_quarters_tree = Ok (mkResult true [] all_quarters_tree)
  /\ compile all_quarters_tree = Throw (UnsupportedOperator (VStr "all_quarters")).
Proof. split; vm_compute; reflexivity. Qed.

Lemma find_field_In (f : string) (fi : fieldInfo) (m : list (string * fieldInfo)) :
  find_field f m = Some fi -> In (f, fi) m.
Proof.
  induction m as [|[k x] m IH]; cbn; [discriminate|].
  destruct (String.eqb_spec f k) as [->|_].
  - intros [= ->]. now left.
  - intros H. right. now apply IH.
Qed.

(** The plain columns of [fundamentals_quarterly]. *)
Lemma find_field_plain_fq (f col : string) :
  find_field f FIELD_TABLE_MAP = Some (plain "fundamentals_quarterly" col) ->
  col = f /\
  In f [ "revenue"; "net_income"; "eps"; "operating_margin"; "roe"; "roa";
         "pe_ratio"; "pb_ratio"; "peg_ratio"; "ebitda"; "ebitda_margin";
         "debt_to_equity"; "current_ratio"; "total_assets"; "total_debt";
         "free_cash_flow"; "operating_cash_flow"; "revenue_growth_yoy";
         "ebitda_growth_yoy" ].
Proof.
  intros H. apply find_field_In in H. unfold FIELD_TABLE_MAP, plain in H.
  repeat (destruct H as [E|H];
          [ first [ discriminate E
                  | injection E as E1 E2; subst f col;
                    split; [reflexivity | apply str_in_In; reflexivity] ] |]).
  try destruct H.
Qed.

Lemma allowed_operator_own (op : string) :
  In op ALLOWED_OPERATORS -> str_in op prototype_keys = false.
Proof.
  intros H. repeat (destruct H as [<-|H]; [reflexivity|]). try destruct H.
Qed.

(** C3, as stated, fails: a cross-field comparison on the time-series
    field [net_income] with an [all] period, which the validator accepts,
    compiles to a plain comparison of two columns, and a condition on the
    derived field [debt_to_fcf] with an [all] period to a comparison of
    the derived expression: no [NOT EXISTS], no inverted operator, and
    [N] is not pushed. *)
Lemma C3_period_ignored :
  accepts (rule (VObj [("and", VArr [cross_field_with_period])])) = true
  /\ _compileCondition cross_field_with_period context0
     = Ok ("fq.net_income > fq.revenue",
           mkContext [] 1 ["companies"; "fundamentals_quarterly"] [])
  /\ _compileCondition
       (cond_period "debt_to_fcf" "<" (VNum 3) (period "last_n_quarters" 4 "all"))
       context0
     = Ok ("(fq.total_debt::numeric / NULLIF(fq.free_cash_flow::numeric, 0)) < $1",
           mkContext [VNum 3] 2 ["companies"; "fundamentals_quarterly"] []).
Proof. repeat split; vm_compute; reflexivity. Qed.

(** C3, amended: for every condition that is not a cross-field
    comparison, on a plain (not derived) column of
    [fundamentals_quarterly], with a period whose aggregation is [all] or
    left out, and an operator of the validator's list, the compiler emits
    the [NOT EXISTS] subquery over the last N non-null rows (ordered by
    id DESC, LIMIT a placeholder) whose inner WHERE uses
    [_invertOperator] of the operator, and pushes the value, then N, as
    parameters.  [_invertOperator] turns [>] into [<=], [<] into [>=],
    [>=] into [<], [<=] into [>], [=] into [!=], [!=] into [=], and leaves
    any other operator as it is. *)
Theorem C3_all_period_not_exists (c : value) (f col op : string) (ctx : context) :
  get c "field" = VStr f ->
  find_field f FIELD_TABLE_MAP = Some (plain "fundamentals_quarterly" col) ->
  truthy (get c "value_is_field") = false ->
  get c "operator" = VStr op -> In op ALLOWED_OPERATORS ->
  truthy (get c "period") = true ->
  (get (get c "period") "aggregation" = VStr "all"
   \/ get (get c "period") "aggregation" = VUndef) ->
  _compileCondition c ctx
  = Ok (not_exists_text col ("pq_" ++ string_of_nat (paramCounter ctx))
          (_invertOperator op)
          ("$" ++ string_of_nat (paramCounter ctx))
          ("$" ++ string_of_nat (S (paramCounter ctx))),
        mkContext (params ctx ++ [get c "value"; get (get c "period") "n"])
          (S (S (paramCounter ctx))) (requiredTables ctx) (periodSubqueries ctx))
  /\ _invertOperator ">" = "<=" /\ _invertOperator "<" = ">="
  /\ _invertOperator ">=" = "<" /\ _invertOperator "<=" = ">"
  /\ _invertOperator "=" = "!=" /\ _invertOperator "!=" = "=".
Proof.
  intros Hf Hfi Hx Hop Hal Hp Hagg.
  split; [|repeat split].
  destruct (find_field_plain_fq f col Hfi) as [-> Hin].
  pose proof (allowed_operator_own op Hal) as Hown.
  assert (Hperiod : _compilePeriodCondition c (plain "fundamentals_quarterly" f) ctx
    = Ok (not_exists_text f ("pq_" ++ string_of_nat (paramCounter ctx))
          (_invertOperator op)
          ("$" ++ string_of_nat (paramCounter ctx))
          ("$" ++ string_of_nat (S (paramCounter ctx))),
        mkContext (params ctx ++ [get c "value"; get (get c "period") "n"])
          (S (S (paramCounter ctx))) (requiredTables ctx) (periodSubqueries ctx))).
  { unfold _compilePeriodCondition.
    assert (A : is_str (if is_undefined (get (get c "period") "aggregation")
                        then VStr "all" else get (get c "period") "aggregation")
                  "all" = true).
    { destruct Hagg as [-> | ->]; reflexivity. }
    cbv zeta. unfold bind at 1. unfold counter at 1. rewrite A, Hop.
    unfold bind, op_text, ret, push, placeholder, beyond. rewrite Hown.
    cbn [params paramCounter requiredTables periodSubqueries column plain].
    rewrite <- app_assoc. cbn [app].
    unfold not_exists_text. cbn [join].
    rewrite !append_assoc. reflexivity. }
  unfold _compileCondition. rewrite Hf. cbv zeta.
  unfold bind at 1, lift, lookup_field.
  assert (Hproto : str_in f prototype_keys = false).
  { repeat (destruct Hin as [<-|Hin]; [reflexivity|]). try destruct Hin. }
  rewrite Hproto, Hfi. cbn [obind]. rewrite Hx, Hp.
  repeat (destruct Hin as [<-|Hin]; [exact Hperiod|]). try destruct Hin.
Qed.

Lemma C3_witness :
  _compileCondition
    (cond_period "net_income" ">" (VNum 0) (period "last_n_quarters" 4 "all")) context0
  = Ok (not_exists_text "net_income" "pq_1" "<=" "$1" "$2",
        mkContext [VNum 0; VNum 4] 3 ["companies"] []).
Proof.
  apply (C3_all_period_not_exists
           (cond_period "net_income" ">" (VNum 0) (period "last_n_quarters" 4 "all"))
           "net_income" "net_income" ">" context0).
  - reflexivity.
  - reflexivity.
  - reflexivity.
  - reflexivity.
  - apply str_in_In. reflexivity.
  - reflexivity.
  - left. reflexivity.
Defined.

(* ================================================================== *)
(** * The pipeline *)
(* ================================================================== *)

(** C4: on the empty query the translator returns [{ filter: {} }], the
    validator accepts it unchanged, and the compiler returns SQL whose
    WHERE line is [WHERE 1=1]; no step throws. *)
Theorem C4_empty_query_compiles_to_true :
  Translator.translateNLToDSL "" = Ok empty_rule
  /\ validate empty_rule = Ok (mkResult true [] empty_rule)
  /\ exists c, compile empty_rule = Ok c
       /\ filter (String.prefix "WHERE") (lines (sql_text c)) = ["WHERE 1=1"]
       /\ sql_params c = [VNum 100].
Proof.
  split; [|split].
  - vm_compute. reflexivity.
  - vm_compute. reflexivity.
  - eexists. split; [vm_compute; reflexivity|]. split; vm_compute; reflexivity.
Qed.


(* ================================================================== *)
(** * The alert processor *)
(* ================================================================== *)

Lemma zero_falsy (q : Q) : q == 0 -> truthy (VNum q) = false.
Proof. intros H. cbn. apply Qeq_bool_iff in H. now rewrite H. Qed.

Lemma get_number_truthy (o : value) (k : string) (q : Q) :
  get o k = VNum q -> truthy o = true.
Proof.
  destruct o; cbn; try discriminate; try reflexivity.
  all: destruct (_ || _); discriminate.
Qed.

(** C10: an alert of type [price_threshold] whose condition's [value] is
    the number 0, or of type [fundamental_condition] whose
    [fundamental_value] is the number 0, is never triggered, whatever the
    quote, metadata and fundamentals are: [evaluateAlert] leaves the
    store as it is. *)
Theorem C10_zero_value_never_triggers (today : Z) (a : alert) (quote : value)
  (meta : option metadata) (fundamentals : value) (q : Q) :
  q == 0 ->
  (alert_type a = "price_threshold" /\ get (condition_json a) "value" = VNum q)
  \/ (alert_type a = "fundamental_condition"
      /\ get (condition_json a) "fundamental_value" = VNum q) ->
  triggered today a quote meta fundamentals = Ok false
  /\ forall w, evaluateAlert a quote meta fundamentals w = Ok w.
Proof.
  intros Hq H.
  assert (E : exists r, evaluation today a quote meta fundamentals = r
                        /\ (forall t0, evaluation t0 a quote meta fundamentals = r)
                        /\ ((exists msg, r = Ok (false, msg)) \/ exists e, r = Throw e)).
  { destruct H as [[Hty Hv]|[Hty Hv]];
      pose proof (get_number_truthy _ _ _ Hv) as Hc;
      unfold evaluation, or_else; rewrite Hty, Hc;
      cbn [String.eqb Ascii.eqb Bool.eqb orb].
    - destruct (truthy quote).
      + unfold checkPriceThreshold. rewrite Hv, (zero_falsy q Hq).
        destruct (truthy (get (condition_json a) "threshold_percent")); cbn;
          eexists; (split; [reflexivity|]); (split; [reflexivity|]);
          left; eexists; reflexivity.
      + eexists. split; [reflexivity|]. split; [reflexivity|].
        left. eexists. reflexivity.
    - destruct (truthy fundamentals) eqn:Hfu.
      + unfold checkFundamentalCondition. rewrite Hv, (zero_falsy q Hq).
        rewrite orb_true_r. cbn [negb orb obind].
        destruct (if truthy (get (condition_json a) "fundamental_metric")
                  then get (condition_json a) "fundamental_metric" else VStr "Metric");
          eexists; (split; [reflexivity|]); (split; [reflexivity|]);
          first [ left; eexists; reflexivity | right; eexists; reflexivity ].
      + eexists. split; [reflexivity|]. split; [reflexivity|].
        left. eexists. reflexivity. }
  destruct E as [r [E1 [E2 E3]]].
  split.
  - unfold triggered. rewrite E1. destruct E3 as [[msg ->]|[e ->]]; reflexivity.
  - intros w. unfold evaluateAlert. rewrite E2.
    destruct E3 as [[msg ->]|[e ->]]; reflexivity.
Qed.

Lemma C10_witness :
  triggered 0 price_above_zero quote_150 None VNull = Ok false
  /\ triggered 0 income_above_zero VNull None (VObj [("net_income", VStr "500")])
     = Ok false.
Proof.
  split.
  - apply (C10_zero_value_never_triggers 0 price_above_zero quote_150 None VNull 0);
      [reflexivity | left; split; reflexivity].
  - apply (C10_zero_value_never_triggers 0 income_above_zero VNull None
             (VObj [("net_income", VStr "500")]) 0);
      [reflexivity | right; split; reflexivity].
Defined.

Lemma rate_limited_tick w R d : (0 <= d)%Z -> rate_limited w R -> rate_limited (tick d w) R.
Proof.
  intros Hd [A B C D E F]. split; cbn; auto.
  - intros a n Ha Hn Hid. specialize (C a n Ha Hn Hid). lia.
  - intros n Hn. specialize (E n Hn). lia.
Qed.

Lemma rate_limited_perm w R R' : Permutation R R' -> rate_limited w R -> rate_limited w R'.
Proof.
  intros P [A B C D E F]. split; auto.
  - eapply Permutation_NoDup; [apply Permutation_map; exact P | exact B].
  - intros a n Ha. apply (C a n). eapply Permutation_in; [symmetry; exact P | exact Ha].
Qed.

Lemma rate_limited_drop w a R : rate_limited w (a :: R) -> rate_limited w R.
Proof.
  intros [A B C D E F]. split; auto.
  - now inversion B.
  - intros b n Hb. apply (C b n). now right.
Qed.

Lemma rate_limited_drop_app w g R : rate_limited w (g ++ R) -> rate_limited w R.
Proof. induction g as [|a g IH]; [auto|]. intros H. apply IH. eapply rate_limited_drop. exact H. Qed.

Lemma map_id_update (a : alert) (now : Z) (rows : list alert) :
  map id (map (fun r =>
            if (id r =? id a)%nat then
              mkAlert (id r) (user_id r) (ticker r) (alert_name r) (alert_type r)
                (condition_json r) (is_active r) (Some now) (S (trigger_count r))
                (Some now)
            else r) rows) = map id rows.
Proof.
  induction rows as [|r rows IH]; [reflexivity|]. cbn [map]. rewrite IH.
  destruct (id r =? id a)%nat; reflexivity.
Qed.

Lemma spaced_snoc ns n :
  spaced ns ->
  (forall n1, In n1 ns -> n_alert_id n1 = n_alert_id n ->
     (triggered_at n1 + day < triggered_at n)%Z) ->
  spaced (ns ++ [n]).
Proof.
  intros Hs H i j n1 n2 Hij H1 H2 Hid.
  destruct (Nat.lt_ge_cases j (length ns)) as [Hj|Hj].
  - rewrite nth_error_app1 in H1 by lia. rewrite nth_error_app1 in H2 by lia.
    exact (Hs i j n1 n2 Hij H1 H2 Hid).
  - rewrite nth_error_app2 in H2 by lia.
    destruct (j - length ns)%nat as [|k] eqn:Ek; cbn in H2.
    + rewrite nth_error_app1 in H1 by lia.
      injection H2 as <-. apply H; [eapply nth_error_In; eauto | exact Hid].
    + destruct k; discriminate.
Qed.

Lemma rate_limited_trigger w a R msg :
  rate_limited w (a :: R) -> rate_limited (triggerAlert a msg w) R.
Proof.
  intros [A B C D E F]. unfold triggerAlert.
  split; cbn [clock alert_subscriptions notifications].
  - rewrite map_id_update. exact A.
  - now inversion B.
  - intros b n Hb Hn Hid. apply in_app_or in Hn as [Hn|[<-|[]]].
    + apply (C b n); [now right | exact Hn | exact Hid].
    + cbn in Hid. inversion B as [|? ? Hnot _]; subst.
      exfalso. apply Hnot. rewrite Hid. apply in_map. exact Hb.
  - intros n r Hn Hr Hid. apply in_map_iff in Hr as [r0 [<- Hr0]].
    apply in_app_or in Hn as [Hn|[<-|[]]].
    + destruct (id r0 =? id a)%nat eqn:Eq.
      * cbn. eexists. split; [reflexivity|]. apply E. exact Hn.
      * apply (D n r0 Hn Hr0). exact Hid.
    + cbn [n_alert_id triggered_at] in *.
      destruct (id r0 =? id a)%nat eqn:Eq.
      * cbn. eexists. split; [reflexivity | lia].
      * apply Nat.eqb_neq in Eq. contradiction.
  - intros n Hn. apply in_app_or in Hn as [Hn|[<-|[]]]; [now apply E | cbn; lia].
  - apply spaced_snoc; [exact F|]. intros n1 Hn1 Hid. cbn [n_alert_id triggered_at] in *.
    apply (C a n1); [now left | exact Hn1 | exact Hid].
Qed.

Lemma rate_limited_evaluate w a R q m f w' :
  rate_limited w (a :: R) -> evaluateAlert a q m f w = Ok w' -> rate_limited w' R.
Proof.
  intros H. unfold evaluateAlert.
  destruct (evaluation (clock w) a q m f) as [[[|] msg]| e | |]; intros [= <-];
    first [ now apply rate_limited_trigger | eapply rate_limited_drop; exact H ].
Qed.

Lemma fold_not_ok {A B} (f : B -> A -> outcome A) (l : list B) (o : outcome A) :
  (forall a, o <> Ok a) ->
  forall a, fold_left (fun ow b => obind ow (f b)) l o <> Ok a.
Proof.
  revert o. induction l as [|b l IH]; intros o H a; cbn; [apply H|].
  apply IH. intros a'. destruct o; cbn; try discriminate. exfalso. eapply H. reflexivity.
Qed.

Lemma rate_limited_fold g : forall w R q m f w',
  rate_limited w (g ++ R) ->
  fold_left (fun ow a => obind ow (evaluateAlert a q m f)) g (Ok w) = Ok w' ->
  rate_limited w' R.
Proof.
  induction g as [|a g IH]; intros w R q m f w' H; cbn [fold_left app].
  - intros [= <-]. exact H.
  - cbn [obind]. destruct (evaluateAlert a q m f w) as [w1| | |] eqn:E.
    + intros Hf. eapply IH; [|exact Hf]. eapply rate_limited_evaluate; [exact H | exact E].
    + intros Hf. exfalso. eapply fold_not_ok; [|exact Hf]. discriminate.
    + intros Hf. exfalso. eapply fold_not_ok; [|exact Hf]. discriminate.
    + intros Hf. exfalso. eapply fold_not_ok; [|exact Hf]. discriminate.
Qed.

Lemma rate_limited_group g w R q m f w' :
  rate_limited w (g ++ R) -> process_group g q m f w = Ok w' -> rate_limited w' R.
Proof.
  intros H. unfold process_group.
  destruct (_ && _).
  - intros [= <-]. eapply rate_limited_drop_app. exact H.
  - apply rate_limited_fold. exact H.
Qed.

(** Grouping by ticker and listing the groups keeps every alert, once. *)

Lemma flat_group_add t a acc :
  Permutation (flat (group_add t a acc)) (a :: flat acc).
Proof.
  induction acc as [|[t' l] r IH]; cbn [group_add].
  - cbn. reflexivity.
  - destruct (String.eqb t t'); unfold flat in *; cbn [flat_map snd].
    + rewrite <- app_assoc. cbn [app].
      rewrite <- Permutation_middle. reflexivity.
    + rewrite IH. rewrite Permutation_middle. reflexivity.
Qed.

Lemma flat_fold_groups l : forall acc,
  Permutation
    (flat (fold_left (fun acc a =>
                        match ticker a with
                        | Some t => if String.eqb t "" then acc else group_add t a acc
                        | None => acc
                        end) l acc))
    (flat acc ++ filter has_ticker l).
Proof.
  induction l as [|a l IH]; intros acc; cbn [fold_left filter].
  - now rewrite app_nil_r.
  - rewrite IH. unfold has_ticker at 2.
    destruct (ticker a) as [t|]; [|reflexivity].
    destruct (String.eqb t ""); cbn [negb]; [reflexivity|].
    rewrite flat_group_add. cbn [app]. apply Permutation_middle.
Qed.

Lemma flat_alertsByTicker l :
  Permutation (flat (alertsByTicker l)) (filter has_ticker l).
Proof. unfold alertsByTicker. now rewrite flat_fold_groups. Qed.

Lemma insert_index_perm n g l :
  Permutation (insert_index n g l) ((n, g) :: l).
Proof.
  induction l as [|[m h] r IH]; cbn [insert_index]; [reflexivity|].
  destruct (n <? m)%Z; [reflexivity|]. rewrite IH. apply perm_swap.
Qed.

Lemma sorted_index_perm groups : forall acc,
  Permutation
    (map snd (fold_left (fun acc g => match index_key (fst g) with
                                      | Some n => insert_index n g acc
                                      | None => acc
                                      end) groups acc))
    (map snd acc ++ filter is_index groups).
Proof.
  induction groups as [|g r IH]; intros acc; cbn [fold_left filter].
  - now rewrite app_nil_r.
  - rewrite IH. unfold is_index at 2. destruct (index_key (fst g)) as [n|]; [|reflexivity].
    rewrite (Permutation_map snd (insert_index_perm n g acc)). cbn [map snd app].
    apply Permutation_middle.
Qed.

Lemma filter_split {A} (p : A -> bool) (l : list A) :
  Permutation (filter p l ++ filter (fun x => negb (p x)) l) l.
Proof.
  induction l as [|x l IH]; cbn [filter]; [reflexivity|].
  destruct (p x); cbn [negb app].
  - now rewrite IH.
  - rewrite <- Permutation_middle. now rewrite IH.
Qed.

Lemma entries_perm groups : Permutation (entries groups) groups.
Proof.
  unfold entries. rewrite sorted_index_perm. cbn [map app].
  erewrite (filter_ext (fun g => match index_key (fst g) with Some _ => false | None => true end)
              (fun g => negb (is_index g))).
  - apply filter_split.
  - intros g. unfold is_index. destruct (index_key (fst g)); reflexivity.
Qed.

Lemma flat_perm g g' : Permutation g g' -> Permutation (flat g) (flat g').
Proof. intros P. unfold flat. now apply Permutation_flat_map. Qed.

Lemma selected_perm l :
  Permutation (flat (entries (alertsByTicker l))) (filter has_ticker l).
Proof. rewrite (flat_perm _ _ (entries_perm _)). apply flat_alertsByTicker. Qed.

Lemma filter_keeps_ids_distinct (keep : alert -> bool) (rows : list alert) :
  NoDup (map id rows) -> NoDup (map id (filter keep rows)).
Proof.
  induction rows as [|r rows IH]; cbn [map filter]; [auto|].
  intros H. inversion H as [|? ? Hr Hrows]; subst.
  destruct (keep r); [|auto]. cbn [map]. constructor; [|auto].
  intros Hin. apply Hr. apply in_map_iff in Hin as [y [E Hy]].
  apply filter_In in Hy as [Hy _]. rewrite <- E. now apply in_map.
Qed.

Lemma rate_limited_begin w :
  rate_limited w [] -> rate_limited w (flat (entries (alertsByTicker (select_due w)))).
Proof.
  intros [A B C D E F].
  assert (P := selected_perm (select_due w)).
  split; auto.
  - eapply Permutation_NoDup; [apply Permutation_map; symmetry; exact P|].
    apply filter_keeps_ids_distinct. unfold select_due.
    apply filter_keeps_ids_distinct. exact A.
  - intros a n Ha Hn Hid.
    eapply Permutation_in in Ha; [|exact P].
    apply filter_In in Ha as [Ha _]. unfold select_due in Ha.
    apply filter_In in Ha as [Ha Hdue].
    destruct (D n a Hn Ha (eq_sym Hid)) as [t [Ht Hle]].
    unfold due in Hdue. rewrite Ht in Hdue.
    apply andb_true_iff in Hdue as [_ Hdue]. apply Z.ltb_lt in Hdue. lia.
Qed.

Lemma take_group_perm c rs g rs' :
  take_group c rs = Some (g, rs') -> Permutation (pending rs) (g ++ pending rs').
Proof.
  revert g rs'. induction rs as [|[c' groups] rest IH]; intros g rs'; cbn [take_group];
    [discriminate|].
  destruct (c =? c')%nat.
  - destruct groups as [|[t l] more]; [discriminate|]. intros [= <- <-].
    unfold pending, flat. cbn [flat_map snd]. now rewrite <- app_assoc.
  - destruct (take_group c rest) as [[g0 rest0]|]; [|discriminate]. intros [= <- <-].
    unfold pending in *. cbn [flat_map snd]. rewrite (IH g0 rest0 eq_refl).
    rewrite !app_assoc. apply Permutation_app_tail. apply Permutation_app_comm.
Qed.

Lemma idle_pending s : idle s = true -> pending (running s) = [].
Proof.
  unfold idle, pending. induction (running s) as [|[c groups] r IH]; [reflexivity|].
  cbn [forallb snd flat_map]. destruct groups; [|discriminate]. cbn. exact IH.
Qed.

Lemma run_cons s e trace :
  run s (e :: trace) = obind (step s e) (fun s' => run s' trace).
Proof.
  unfold run. cbn [fold_left]. cbn [obind].
  destruct (step s e) as [s'| | |]; cbn [obind]; [reflexivity| | |];
    induction trace; cbn; auto.
Qed.

(** While calls do not overlap, the invariant is kept along a run. *)
Lemma calls_one_at_a_time_notify_once (trace : list event) :
  forall s s',
  rate_limited (store s) (pending (running s)) ->
  one_at_a_time s trace = true ->
  run s trace = Ok s' ->
  spaced (notifications (store s')).
Proof.
  induction trace as [|e trace IH]; intros s s' Hinv Hone Hrun.
  - injection Hrun as <-. apply Hinv.
  - rewrite run_cons in Hrun. cbn [one_at_a_time] in Hone.
    apply andb_true_iff in Hone as [Hidle Hone].
    destruct (step s e) as [s1| | |] eqn:Hs; try discriminate. cbn [obind] in Hrun.
    apply (IH s1 s'); [|exact Hone|exact Hrun].
    destruct e as [d|c|c q m f]; cbn [step] in Hs.
    + destruct (0 <=? d)%Z eqn:Hd; injection Hs as <-; [|exact Hinv].
      apply Z.leb_le in Hd. cbn [store running]. now apply (rate_limited_tick _ _ d).
    + destruct (timer_due s <=? clock (store s))%Z; injection Hs as <-; [|exact Hinv].
      cbn [store running]. unfold pending. rewrite flat_map_app.
      fold (pending (running s)). rewrite (idle_pending s Hidle). cbn [app flat_map snd].
      rewrite app_nil_r. apply rate_limited_begin.
      rewrite (idle_pending s Hidle) in Hinv. exact Hinv.
    + destruct (take_group c (running s)) as [[g rs']|] eqn:Ht.
      * destruct (process_group g q m f (store s)) as [w1| | |] eqn:Hp; try discriminate.
        injection Hs as <-. cbn [store running].
        eapply rate_limited_group; [|exact Hp].
        eapply rate_limited_perm; [apply (take_group_perm _ _ _ _ Ht) | exact Hinv].
      * injection Hs as <-. exact Hinv.
Qed.

Lemma rate_limited_started t0 rows :
  NoDup (map id rows) -> rate_limited (store (started t0 rows)) (pending (running (started t0 rows))).
Proof.
  intros H. split; cbn; auto; try (intros; contradiction); try constructor.
  intros i j n1 n2 _ H1. destruct i; discriminate.
Qed.

(** X1: when the ids of the rows are distinct and no call of
    [processAlerts] is made while another is still at work, any two
    notifications of one alert are more than a day apart. *)
Theorem serial_calls_respect_rate_limit (t0 : Z) (rows : list alert) (trace : list event)
  (s : system) :
  NoDup (map id rows) ->
  one_at_a_time (started t0 rows) trace = true ->
  run (started t0 rows) trace = Ok s ->
  spaced (notifications (store s)).
Proof.
  intros Hrows Hone Hrun.
  eapply calls_one_at_a_time_notify_once; [apply rate_limited_started; exact Hrows | exact Hone | exact Hrun].
Qed.

Lemma serial_calls_example :
  exists s, run (started 0 [price_above_100]) calls_in_turn = Ok s
    /\ map triggered_at (notifications (store s)) = [5000%Z; 86460010%Z]
    /\ spaced (notifications (store s)).
Proof.
  eexists. split; [vm_compute; reflexivity|]. split; [reflexivity|].
  apply (serial_calls_respect_rate_limit 0 [price_above_100] calls_in_turn).
  - repeat constructor. intros [].
  - reflexivity.
  - vm_compute. reflexivity.
Defined.

(** C9: with two active alerts on two tickers (price above 100, never
    triggered) and quotes of 150, the fetches for each ticker take 40 s.
    The first call of [processAlerts] triggers the first alert at 40 s and
    is fetching for the second ticker when the timer makes the second
    call at 60 s, which selects the second alert, still untriggered.  Both
    calls then trigger it, at 80 s and at 81 s: two notifications of one
    alert, well inside one rate-limit window. *)
Theorem C9_overlapping_calls_notify_twice :
  exists s, run (started 0 [infy_above_100; price_above_100]) overlapping_calls = Ok s
    /\ map (fun n => (n_alert_id n, triggered_at n)) (notifications (store s))
       = [(2%nat, 40000%Z); (1%nat, 80000%Z); (1%nat, 81000%Z)]
    /\ (81000 - 80000 < day)%Z
    /\ one_at_a_time (started 0 [infy_above_100; price_above_100]) overlapping_calls
       = false.
Proof.
  eexists. split; [vm_compute; reflexivity|].
  split; [vm_compute; reflexivity|]. split; reflexivity.
Qed.

(* ================================================================== *)
(** * Further properties of the compiler, the validator, the alert
      processor and the translator *)
(* ================================================================== *)

Lemma in_map_fst_find (f : string) (m : list (string * fieldInfo)) :
  In f (map fst m) -> exists fi, find_field f m = Some fi.
Proof.
  induction m as [|[k x] m IH]; cbn; [intros []|].
  destruct (String.eqb_spec f k) as [->|N]; [intros _; now exists x|].
  intros [E|H]; [congruence | now apply IH].
Qed.

(** X2: the fields the validator allows are exactly the fields the
    compiler has a table and a column for. *)
Theorem allowed_fields_have_columns (f : string) :
  In f ALLOWED_FIELDS <-> exists fi, lookup_field (VStr f) = Ok (Some fi).
Proof.
  split.
  - intros H. cbn [lookup_field].
    assert (P : str_in f prototype_keys = false).
    { repeat (destruct H as [<-|H]; [reflexivity|]). destruct H. }
    rewrite P.
    destruct (in_map_fst_find f FIELD_TABLE_MAP) as [fi E]; [|exists fi; rewrite E; reflexivity].
    repeat (destruct H as [<-|H]; [apply str_in_In; reflexivity|]). destruct H.
  - intros [fi H]. cbn [lookup_field] in H.
    destruct (str_in f prototype_keys); [discriminate|].
    assert (E : find_field f FIELD_TABLE_MAP = Some fi) by congruence.
    clear H. apply find_field_In in E. rename E into H.
    apply (in_map fst) in H. cbn [fst] in H.
    repeat (destruct H as [<-|H]; [apply str_in_In; reflexivity|]). destruct H.
Qed.

(** X3: [_invertOperator] takes each of the six comparisons to a
    comparison, is its own inverse on them, and the comparison it gives
    holds of two numbers exactly when the one it was given does not. *)
Theorem invertOperator_negates (op : string) :
  In op comparisons ->
  In (_invertOperator op) comparisons
  /\ _invertOperator (_invertOperator op) = op
  /\ forall x a : Q, holds (_invertOperator op) x a <-> ~ holds op x a.
Proof.
  intros H.
  destruct (comparison_cases op H) as [->|[->|[->|[->|[->| ->]]]]];
    (split; [apply str_in_In; reflexivity | split; [reflexivity|]]);
    intros x a; cbn.
  - split; [apply Qle_not_lt | apply Qnot_lt_le].
  - split; [apply Qle_not_lt | apply Qnot_lt_le].
  - split; [apply Qlt_not_le | apply Qnot_le_lt].
  - split; [apply Qlt_not_le | apply Qnot_le_lt].
  - tauto.
  - split; [tauto|]. intros N. destruct (Qeq_dec x a); tauto.
Qed.

Lemma invertOperator_negates_witness :
  In (_invertOperator ">=") comparisons
  /\ _invertOperator (_invertOperator ">=") = ">="
  /\ forall x a : Q, holds (_invertOperator ">=") x a <-> ~ holds ">=" x a.
Proof. apply (invertOperator_negates ">="). apply str_in_In. reflexivity. Defined.

Lemma shifts_ret {A} (a : A) d : (d = 0)%Z -> shifts (ret a) d.
Proof. intros -> c a' c' [= <- <-]. lia. Qed.
Lemma shifts_throw {A} (e : exn) d : shifts (@throw A e) d.
Proof. intros c a c' H. discriminate H. Qed.
Lemma shifts_beyond {A} d : shifts (@beyond A) d.
Proof. intros c a c' H. discriminate H. Qed.
Lemma shifts_push (v : value) d : (d = -1)%Z -> shifts (push v) d.
Proof.
  intros -> c a c' [= <- <-]. unfold lead. cbn [params paramCounter].
  rewrite length_app. cbn [length]. lia.
Qed.
Lemma shifts_placeholder d : (d = 1)%Z -> shifts placeholder d.
Proof. intros -> c a c' [= <- <-]. unfold lead. cbn [params paramCounter]. lia. Qed.
Lemma shifts_counter d : (d = 0)%Z -> shifts counter d.
Proof. intros -> c a c' [= <- <-]. lia. Qed.
Lemma shifts_add_table (t : string) d : (d = 0)%Z -> shifts (add_table t) d.
Proof. intros -> c a c' [= <- <-]. unfold lead. cbn [params paramCounter]. lia. Qed.
Lemma shifts_lift {A} (o : outcome A) d : (d = 0)%Z -> shifts (lift o) d.
Proof. intros -> c a c'. unfold lift. destruct o; cbn; intros [= <- <-]. lia. Qed.
Lemma shifts_bind {A B} (m : M A) (f : A -> M B) d1 d2 d :
  shifts m d1 -> (forall a, shifts (f a) d2) -> (d = d1 + d2)%Z -> shifts (bind m f) d.
Proof.
  intros Hm Hf -> c b c'. unfold bind.
  destruct (m c) as [[a c1]| | |] eqn:E; try discriminate.
  intros H. rewrite (Hf a c1 b c' H), (Hm c a c1 E). lia.
Qed.
Lemma shifts_mapM {A B} (f : A -> M B) (l : list A) d0 d :
  (forall x, shifts (f x) d0) -> (d = Z.of_nat (length l) * d0)%Z -> shifts (mapM f l) d.
Proof.
  intros Hf. revert d. induction l as [|x l IH]; intros d ->; cbn [mapM].
  - apply shifts_ret. cbn. lia.
  - eapply shifts_bind; [apply Hf | intros y |].
    + eapply shifts_bind; [apply IH; reflexivity | intros ys; apply shifts_ret; reflexivity | reflexivity].
    + cbn [length]. lia.
Qed.

Ltac sh_base :=
  lazymatch goal with
  | |- shifts (ret _) _ => apply shifts_ret
  | |- shifts (throw _) _ => apply shifts_throw
  | |- shifts beyond _ => apply shifts_beyond
  | |- shifts (push _) _ => apply shifts_push
  | |- shifts placeholder _ => apply shifts_placeholder
  | |- shifts counter _ => apply shifts_counter
  | |- shifts (add_table _) _ => apply shifts_add_table
  | |- shifts (lift _) _ => apply shifts_lift
  | |- shifts (bind _ _) _ => eapply shifts_bind; [ | intros ? | ]
  | |- shifts (mapM _ _) _ => eapply shifts_mapM; [intros ? | ]
  | |- shifts (if ?b then _ else _) _ => destruct b
  | |- shifts (match ?x with _ => _ end) _ => destruct x
  | |- (_ = _)%Z => first [reflexivity | lia]
  end.

Lemma shifts_index (v : value) (i : nat) d : (d = 0)%Z -> shifts (index v i) d.
Proof. intros ->. unfold index. repeat sh_base. Qed.
Lemma shifts_op_text (v : value) d : (d = 0)%Z -> shifts (op_text v) d.
Proof. intros ->. unfold op_text. repeat sh_base. Qed.

Ltac sh_step :=
  lazymatch goal with
  | |- shifts (index _ _) _ => apply shifts_index
  | |- shifts (op_text _) _ => apply shifts_op_text
  | |- _ => sh_base
  end.

Lemma shifts_compileOperator (colRef : string) (c : value) d :
  (d = 0)%Z -> shifts (_compileOperator colRef c) d.
Proof. intros ->. unfold _compileOperator. repeat sh_step. Qed.

Lemma shifts_compilePeriodCondition (c : value) (fi : fieldInfo) d :
  (d = 0)%Z -> shifts (_compilePeriodCondition c fi) d.
Proof.
  intros ->. unfold _compilePeriodCondition.
  repeat first [apply shifts_compileOperator | sh_step].
Qed.

Lemma shifts_compileCondition (c : value) d :
  (d = 0)%Z -> shifts (_compileCondition c) d.
Proof.
  intros ->. unfold _compileCondition.
  repeat first [apply shifts_compileOperator | apply shifts_compilePeriodCondition | sh_step].
Qed.

Lemma shifts_compileFilter (fuel : nat) :
  forall filter, shifts (_compileFilter fuel filter) 0.
Proof.
  induction fuel as [|fuel IH]; intros filter; [intros c a c' H; discriminate H|].
  assert (L : forall conditions joiner,
             shifts (_compileLogical_with (_compileFilter fuel) conditions joiner) 0).
  { intros conditions joiner. unfold _compileLogical_with.
    destruct conditions; try apply shifts_throw.
    apply shifts_bind with (d1 := 0%Z) (d2 := 0%Z); [| intros ?; apply shifts_ret; reflexivity | reflexivity].
    eapply shifts_mapM with (d0 := 0%Z); [|lia].
    intros x. destruct (Compiler._isCondition x); [now apply shifts_compileCondition|].
    apply shifts_bind with (d1 := 0%Z) (d2 := 0%Z); [apply IH | intros ?; apply shifts_ret; reflexivity | reflexivity]. }
  cbn [_compileFilter].
  destruct (negb (truthy filter)); [now apply shifts_ret|].
  destruct (truthy (get filter "and")); [apply L|].
  destruct (truthy (get filter "or")); [apply L|].
  destruct (truthy (get filter "not")); [|now apply shifts_ret].
  apply shifts_bind with (d1 := 0%Z) (d2 := 0%Z); [| intros ?; apply shifts_ret; reflexivity | reflexivity].
  destruct (Compiler._isCondition (get filter "not")); [now apply shifts_compileCondition | apply IH].
Qed.

Lemma join_snoc (sep : string) (l : list string) (x : string) :
  l <> [] -> join sep (l ++ [x]) = (join sep l ++ sep ++ x)%string.
Proof.
  induction l as [|a l IH]; [congruence|]. intros _.
  destruct l as [|b l].
  - reflexivity.
  - change (join sep ((a :: b :: l) ++ [x])) with (a ++ sep ++ join sep ((b :: l) ++ [x]))%string.
    rewrite IH by discriminate.
    change (join sep (a :: b :: l)) with (a ++ sep ++ join sep (b :: l))%string.
    now rewrite !append_assoc.
Qed.

Lemma filter_head_kept {A} (p : A -> bool) (a : A) (l : list A) :
  p a = true -> filter p (a :: l) <> [].
Proof. intros H. cbn [filter]. rewrite H. discriminate. Qed.

Ltac list_init l :=
  lazymatch l with
  | [?x] => constr:(@nil string)
  | ?x :: ?r => let r' := list_init r in constr:(x :: r')
  end.
Ltac list_last l :=
  lazymatch l with
  | [?x] => x
  | _ :: ?r => list_last r
  end.

Lemma compile_inv (dsl : value) (r : compiled) :
  compile dsl = Ok r ->
  exists w ctx,
    _compileFilter (S (vdepth dsl)) (get dsl "filter") context0 = Ok (w, ctx)
    /\ sql_params r = params ctx ++ [or_else (get dsl "limit") (VNum 100)]
    /\ exists head,
         sql_text r = (head ++ nl ++ "LIMIT $" ++ string_of_nat (paramCounter ctx))%string.
Proof.
  unfold compile, compile_with. fold context0.
  destruct (nullish dsl); [discriminate|].
  unfold bind at 1.
  destruct (_compileFilter (S (vdepth dsl)) (get dsl "filter") context0) as [[w c]| | |] eqn:E;
    try discriminate.
  cbn [bind add_table ret obind params paramCounter requiredTables periodSubqueries].
  unfold bind, add_table, ret. cbn [obind params paramCounter requiredTables periodSubqueries].
  destruct (if truthy (get dsl "sort") then _compileSort (get dsl "sort")
            else Ok "c.market_cap DESC NULLS LAST") as [orderBy| | |]; try discriminate.
  cbn [obind]. intros H.
  apply (f_equal (fun o => match o with Ok x => x | _ => r end)) in H.
  cbv beta iota in H. subst r. exists w, c. split; [reflexivity|].
  cbn [sql_params sql_text]. split; [reflexivity|].
  match goal with |- exists head, join nl (filter ?p ?L) = _ =>
    let A := list_init L in let z := list_last L in
    change L with (A ++ [z]); rewrite filter_app;
    change (filter p [z]) with [z]
  end.
  eexists. apply join_snoc. apply filter_head_kept. reflexivity.
Qed.

(** X4: whenever [compile] returns, its last parameter is
    [dsl.limit || 100] and its text ends with the line [LIMIT $n], [n]
    being the number of parameters: the placeholder of the limit is that
    of the last parameter, whatever the filter pushed before it. *)
Theorem compile_numbers_limit_last (dsl : value) (r : compiled) :
  compile dsl = Ok r ->
  (exists ps, sql_params r = ps ++ [or_else (get dsl "limit") (VNum 100)])
  /\ exists head,
       sql_text r
       = (head ++ nl ++ "LIMIT $" ++ string_of_nat (length (sql_params r)))%string.
Proof.
  intros H. destruct (compile_inv dsl r H) as [w [ctx [F [P [head T]]]]].
  split; [now exists (params ctx)|].
  exists head. rewrite T, P. do 3 f_equal.
  pose proof (shifts_compileFilter _ _ _ _ _ F) as L. unfold lead in L.
  cbn [context0 paramCounter params length] in L.
  rewrite length_app. cbn [length]. f_equal. lia.
Qed.

Lemma compile_numbers_limit_last_witness :
  exists r, compile conflict_tree = Ok r
    /\ ((exists ps, sql_params r = ps ++ [or_else (get conflict_tree "limit") (VNum 100)])
        /\ exists head,
             sql_text r
             = (head ++ nl ++ "LIMIT $" ++ string_of_nat (length (sql_params r)))%string).
Proof.
  eexists. split; [vm_compute; reflexivity|].
  apply (compile_numbers_limit_last conflict_tree). vm_compute. reflexivity.
Defined.

Lemma accepts_parts (dsl : value) :
  accepts dsl = true ->
  truthy (get dsl "filter") = true
  /\ fst (_validateFilter (get dsl "filter")) = []
  /\ (truthy (get dsl "sort") = true -> _validateSort (get dsl "sort") = Ok [])
  /\ (is_undefined (get dsl "limit") = false -> _validateLimit (get dsl "limit") = []).
Proof.
  unfold accepts, validate.
  destruct (negb (truthy dsl) || negb (jstype_eqb (typeof dsl) TObject)); [discriminate|].
  destruct (truthy (get dsl "filter")); cbn [negb]; [|discriminate].
  destruct (_validateFilter (get dsl "filter")) as [fe f'].
  assert (K : forall se,
    (length (fe ++ se ++ (if negb (is_undefined (get dsl "limit"))
                          then _validateLimit (get dsl "limit") else [])) =? 0)%nat = true ->
    fe = [] /\ se = []
    /\ (is_undefined (get dsl "limit") = false -> _validateLimit (get dsl "limit") = [])).
  { intros se H. apply Nat.eqb_eq in H. apply length_zero_iff_nil in H.
    apply app_eq_nil in H as [-> H]. apply app_eq_nil in H as [-> H].
    split; [reflexivity|]. split; [reflexivity|]. intros U. now rewrite U in H. }
  destruct (truthy (get dsl "sort")).
  - destruct (_validateSort (get dsl "sort")) as [se| | |]; cbn [obind valid]; try discriminate.
    intros H. destruct (K se H) as [-> [-> L]]. repeat split; auto.
  - cbn [obind valid]. intros H. destruct (K [] H) as [-> [_ L]].
    repeat split; auto. discriminate.
Qed.

(** X5: for a document the validator accepts, the limit [compile]
    passes as its last parameter is a number from 1 to 1000: the limit of
    the document, or 100 where the document has none. *)
Theorem accepted_limit_is_bounded (dsl : value) (r : compiled) :
  accepts dsl = true -> compile dsl = Ok r ->
  exists ps q, sql_params r = ps ++ [VNum q] /\ 1 <= q /\ q <= 1000
    /\ (get dsl "limit" = VNum q \/ (q = 100 /\ truthy (get dsl "limit") = false)).
Proof.
  intros A C. destruct (accepts_parts dsl A) as [_ [_ [_ L]]].
  destruct (compile_inv dsl r C) as [w [ctx [_ [P _]]]].
  exists (params ctx). rewrite P. unfold or_else.
  destruct (get dsl "limit") as [| |b| |q|s|l|o|] eqn:E; cbn [is_undefined] in L;
    try (specialize (L eq_refl); discriminate L).
  - exists 100. cbn. repeat split; try discriminate. now right.
  - exists 100. cbn. repeat split; try discriminate. now right.
  - specialize (L eq_refl). unfold _validateLimit in L. cbn [typeof jstype_eqb negb orb outside] in L.
    destruct (Qle_bool 1 q) eqn:Lo; [|discriminate L].
    destruct (Qle_bool q 1000) eqn:Hi; [|discriminate L].
    apply Qle_bool_iff in Lo, Hi.
    assert (T : truthy (VNum q) = true).
    { cbn. destruct (Qeq_bool q 0) eqn:Z; [|reflexivity].
      apply Qeq_bool_iff in Z. rewrite Z in Lo. exfalso. apply Lo. reflexivity. }
    rewrite T. exists q. repeat split; auto.
Qed.

Lemma accepted_limit_is_bounded_witness :
  exists r, accepts (VObj [("filter", VObj []); ("limit", VNum 25)]) = true
    /\ compile (VObj [("filter", VObj []); ("limit", VNum 25)]) = Ok r
    /\ exists ps q, sql_params r = ps ++ [VNum q] /\ 1 <= q /\ q <= 1000
         /\ (get (VObj [("filter", VObj []); ("limit", VNum 25)]) "limit" = VNum q
             \/ (q = 100 /\ truthy (get (VObj [("filter", VObj []); ("limit", VNum 25)]) "limit") = false)).
Proof.
  eexists. split; [reflexivity|]. split; [vm_compute; reflexivity|].
  apply (accepted_limit_is_bounded (VObj [("filter", VObj []); ("limit", VNum 25)])).
  - reflexivity.
  - vm_compute. reflexivity.
Defined.

Lemma compileFilter_not_array (fuel : nat) (items : list value) (ctx : context) :
  _compileFilter (S (S fuel)) (VObj [("not", VArr items)]) ctx = Ok ("NOT (1=1)", ctx).
Proof. reflexivity. Qed.

(** X6: the validator accepts [{ not: v }] only where [v] is an
    array, and the compiler reads an array as a filter without [and],
    [or] or [not]: every accepted negation compiles to [WHERE NOT (1=1)],
    with no parameter but the limit, whatever conditions the array holds. *)
Theorem negation_compiles_to_false (v : value) :
  accepts (rule (VObj [("not", v)])) = true ->
  exists r, compile (rule (VObj [("not", v)])) = Ok r
    /\ sql_params r = [VNum 100]
    /\ In "WHERE NOT (1=1)" (lines (sql_text r)).
Proof.
  intros A. destruct (accepts_parts _ A) as [_ [E _]].
  unfold rule in E. read_props. cbn [get assoc String.eqb Ascii.eqb Bool.eqb] in E.
  assert (exists items, v = VArr items) as [items ->].
  { cbn [_validateFilter keys_loop] in E. unfold filter_key in E.
    cbn [str_in ALLOWED_LOGICAL_OPERATORS String.eqb Ascii.eqb Bool.eqb orb] in E.
    destruct v; try discriminate E. now exists items. }
  clear A E.
  unfold compile, compile_with, rule. cbn [nullish]. read_props.
  assert (D : exists n, vdepth (VObj [("filter", VObj [("not", VArr items)])]) = S n).
  { eexists. reflexivity. }
  destruct D as [n ->].
  unfold bind at 1. rewrite compileFilter_not_array.
  eexists. split; [reflexivity|]. split; [reflexivity|].
  vm_compute. tauto.
Qed.

Lemma negation_compiles_to_false_witness :
  exists r,
    accepts (rule (VObj [("not", VArr [cond "pe_ratio" ">" (VNum 5)])])) = true
    /\ compile (rule (VObj [("not", VArr [cond "pe_ratio" ">" (VNum 5)])])) = Ok r
    /\ sql_params r = [VNum 100]
    /\ In "WHERE NOT (1=1)" (lines (sql_text r)).
Proof.
  destruct (negation_compiles_to_false (VArr [cond "pe_ratio" ">" (VNum 5)]))
    as [r H]; [reflexivity|].
  exists r. split; [reflexivity | exact H].
Defined.

Lemma upper_lower_ascii (c : ascii) : upper_ascii (lower_ascii c) = upper_ascii c.
Proof. destruct c as [[] [] [] [] [] [] [] []]; reflexivity. Qed.

Lemma lower_upper_ascii (c : ascii) : lower_ascii (upper_ascii c) = lower_ascii c.
Proof. destruct c as [[] [] [] [] [] [] [] []]; reflexivity. Qed.

Lemma toUpperCase_toLowerCase (s : string) : toUpperCase (toLowerCase s) = toUpperCase s.
Proof. induction s as [|c s IH]; cbn [toLowerCase toUpperCase]; [reflexivity|]. now rewrite IH, upper_lower_ascii. Qed.

Lemma toLowerCase_toUpperCase (s : string) : toLowerCase (toUpperCase s) = toLowerCase s.
Proof. induction s as [|c s IH]; cbn [toLowerCase toUpperCase]; [reflexivity|]. now rewrite IH, lower_upper_ascii. Qed.

Lemma allowed_field_lookup (f : string) :
  In f ALLOWED_FIELDS -> exists fi, lookup_field (VStr f) = Ok (Some fi) /\ find_field f FIELD_TABLE_MAP = Some fi.
Proof.
  intros H. cbn [lookup_field].
  repeat (destruct H as [<-|H]; [eexists; split; reflexivity|]). destruct H.
Qed.

Lemma compileSort_terms (sort : value) :
  _compileSort sort
  = obind (sort_terms (match sort with VArr l => l | _ => [sort] end))
      (fun parts => Ok (join ", " parts)).
Proof. reflexivity. Qed.

Lemma accepted_items_compile (l : list value) :
  sort_items l = Ok [] ->
  exists parts, sort_terms l = Ok parts /\ Forall2 order_term l parts.
Proof.
  induction l as [|s r IH]; intros V.
  - exists []. split; [reflexivity | constructor].
  - cbn [sort_items] in V.
    destruct (nullish s) eqn:N; [discriminate|].
    destruct (truthy (get s "field")) eqn:Tf; cbn [negb] in V.
    2:{ destruct (if truthy (get s "direction") then _ else _); cbn [obind] in V; try discriminate.
        destruct (sort_items r); cbn [obind] in V; discriminate. }
    destruct (includes ALLOWED_FIELDS (get s "field")) eqn:If; cbn [negb] in V.
    2:{ destruct (if truthy (get s "direction") then _ else _); cbn [obind] in V; try discriminate.
        destruct (sort_items r); cbn [obind] in V; discriminate. }
    apply includes_true in If as [f [Ef Hf]].
    destruct (allowed_field_lookup f Hf) as [fi [Lf Ff]].
    assert (D : exists dir, or_else (get s "direction") (VStr "ASC") = VStr dir
                  /\ In (toUpperCase dir) ["ASC"; "DESC"]
                  /\ (truthy (get s "direction") = false -> toUpperCase dir = "ASC")
                  /\ sort_items r = Ok []).
    { unfold or_else. destruct (truthy (get s "direction")) eqn:Td.
      - destruct (get s "direction") as [| | | | |d| | |]; try discriminate V.
        destruct (str_in (toLowerCase d) ["asc"; "desc"]) eqn:Sd; cbn [negb obind app] in V.
        + exists d. split; [reflexivity|]. split.
          * apply str_in_In in Sd. rewrite <- toUpperCase_toLowerCase.
            destruct Sd as [<-|[<-|[]]]; [now left | right; now left].
          * split; [discriminate|]. destruct (sort_items r) as [es| | |]; cbn [obind] in V; try discriminate.
            destruct es; [reflexivity | discriminate].
        + destruct (sort_items r); cbn [obind] in V; discriminate.
      - exists "ASC". split; [reflexivity|]. split; [now left|]. split; [reflexivity|].
        cbn [obind app] in V. destruct (sort_items r) as [es| | |]; cbn [obind] in V; try discriminate.
        destruct es; [reflexivity | discriminate]. }
    destruct D as [dir [Ed [Hd [Hdef Vr]]]].
    destruct (IH Vr) as [parts [Er Fr]].
    eexists. split.
    + cbn [sort_terms]. rewrite N, Ef, Lf. cbn [obind]. rewrite Ed, Er. cbn [obind]. reflexivity.
    + constructor; [|exact Fr].
      exists f, fi, (toUpperCase dir). repeat split; auto.
Qed.

(** X7: a sort clause [_validateSort] finds no error in is an array
    that [_compileSort] compiles, item by item and in order, to the column
    of the field followed by [ASC] or [DESC] and [NULLS LAST], joined by
    commas; an item without direction is sorted [ASC]. *)
Theorem accepted_sort_compiles (sort : value) :
  _validateSort sort = Ok [] ->
  exists items parts,
    sort = VArr items /\ _compileSort sort = Ok (join ", " parts)
    /\ Forall2 order_term items parts.
Proof.
  unfold _validateSort. destruct sort as [| | | | | |items| |]; try discriminate.
  intros V. exists items. rewrite compileSort_terms.
  destruct (accepted_items_compile items V) as [parts [E F]]. exists parts. rewrite E. cbn [obind].
  repeat split; auto.
Qed.

Lemma accepted_sort_compiles_witness :
  exists items parts,
    _validateSort sort_by_roe = Ok []
    /\ sort_by_roe = VArr items /\ _compileSort sort_by_roe = Ok (join ", " parts)
    /\ Forall2 order_term items parts.
Proof.
  destruct (accepted_sort_compiles sort_by_roe) as [items [parts H]]; [reflexivity|].
  exists items, parts. split; [reflexivity | exact H].
Defined.

Lemma valid_condition_facts (c : value) :
  fst (_validateCondition c) = [] ->
  (exists f, get c "field" = VStr f /\ In f ALLOWED_FIELDS)
  /\ (exists op, get c "operator" = VStr op /\ In op ALLOWED_OPERATORS)
  /\ (truthy (get c "value_is_field") = true ->
      exists g, get c "value" = VStr g /\ In g ALLOWED_FIELDS)
  /\ (truthy (get c "value_is_field") = false ->
      (is_str (get c "operator") "between" = true -> exists a b, get c "value" = VArr [a; b])
      /\ (is_str (get c "operator") "in" = true -> exists items, get c "value" = VArr items))
  /\ (truthy (get c "period") = true -> period_ok (get c "period")).
Proof.
  unfold _validateCondition. cbv zeta. cbn [fst]. rewrite !app_nil_iff.
  intros [Ef [Eo [_ [Es Ep]]]].
  split; [|split; [|split; [|split]]].
  - destruct (truthy (get c "field")); cbn [negb] in Ef; [|discriminate].
    destruct (includes ALLOWED_FIELDS (get c "field")) eqn:I; cbn [negb] in Ef; [|discriminate].
    now apply includes_true in I.
  - destruct (truthy (get c "operator")); cbn [negb] in Eo; [|discriminate].
    destruct (includes ALLOWED_OPERATORS (get c "operator")) eqn:I; cbn [negb] in Eo; [|discriminate].
    now apply includes_true in I.
  - intros T. rewrite T in Es.
    destruct (includes ALLOWED_FIELDS (get c "value")) eqn:I.
    + now apply includes_true in I.
    + rewrite orb_true_r in Es. discriminate.
  - intros T. rewrite T in Es. split.
    + intros B. rewrite B in Es.
      destruct (get c "value") as [| | | | | |items| |]; try discriminate.
      destruct items as [|a [|b [|x r]]]; try discriminate. now exists a, b.
    + intros I. destruct (is_str (get c "operator") "between") eqn:B.
      * apply is_str_true in B, I. congruence.
      * rewrite I in Es. destruct (get c "value"); try discriminate. now exists items.
  - intros T. rewrite T in Ep. now apply period_errors_nil.
Qed.

Lemma returns_ret {A} (a : A) : returns (ret a).
Proof. intros ctx. now exists a, ctx. Qed.
Lemma returns_push (v : value) : returns (push v).
Proof. intros ctx. eexists _, _. reflexivity. Qed.
Lemma returns_placeholder : returns placeholder.
Proof. intros ctx. eexists _, _. reflexivity. Qed.
Lemma returns_counter : returns counter.
Proof. intros ctx. eexists _, _. reflexivity. Qed.
Lemma returns_add_table (t : string) : returns (add_table t).
Proof. intros ctx. eexists _, _. reflexivity. Qed.
Lemma returns_bind {A B} (m : M A) (f : A -> M B) :
  returns m -> (forall a, returns (f a)) -> returns (bind m f).
Proof.
  intros Hm Hf ctx. unfold bind. destruct (Hm ctx) as [a [c' ->]]. apply Hf.
Qed.
Lemma returns_mapM {A B} (f : A -> M B) (l : list A) :
  (forall x, returns (f x)) -> returns (mapM f l).
Proof.
  intros H. induction l as [|x l IH]; cbn [mapM]; [apply returns_ret|].
  apply returns_bind; [apply H|]. intros y.
  apply returns_bind; [apply IH|]. intros ys. apply returns_ret.
Qed.
Lemma returns_lift {A} (a : A) : returns (lift (Ok a)).
Proof. intros ctx. eexists _, _. reflexivity. Qed.

Ltac rt_step :=
  lazymatch goal with
  | |- returns (ret _) => apply returns_ret
  | |- returns (push _) => apply returns_push
  | |- returns placeholder => apply returns_placeholder
  | |- returns counter => apply returns_counter
  | |- returns (add_table _) => apply returns_add_table
  | |- returns (lift (Ok _)) => apply returns_lift
  | |- returns (bind _ _) => apply returns_bind; [|intros ?]
  | |- returns (mapM _ _) => apply returns_mapM; intros ?
  end.
Ltac rt := repeat rt_step.

(** The operators [_compileOperator] has a case for. *)
Lemma compileOperator_returns (colRef : string) (c : value) (op : string) :
  get c "operator" = VStr op -> In op ALLOWED_OPERATORS -> op <> "all_quarters" ->
  (op = "between" -> exists a b, get c "value" = VArr [a; b]) ->
  (op = "in" -> exists items, get c "value" = VArr items) ->
  returns (_compileOperator colRef c).
Proof.
  intros Eo Ho Hq Hb Hi. unfold _compileOperator. rewrite Eo.
  destruct Ho as [<-|[<-|[<-|[<-|[<-|[<-|[<-|[<-|[<-|[<-|[]]]]]]]]]]];
    cbn [str_in String.eqb Ascii.eqb Bool.eqb orb]; try solve [rt].
  - destruct (Hb eq_refl) as [a [b ->]]. unfold index. rt.
  - destruct (Hi eq_refl) as [items ->]. rt.
  - congruence.
Qed.

Lemma bind_ret {A B} (a : A) (f : A -> M B) : bind (ret a) f = f a.
Proof. reflexivity. Qed.
Lemma bind_lift_ok {A B} (a : A) (f : A -> M B) : bind (lift (Ok a)) f = f a.
Proof. reflexivity. Qed.

Lemma compileOperator_valid (colRef : string) (c : value) :
  fst (_validateCondition c) = [] ->
  truthy (get c "value_is_field") = false ->
  is_str (get c "operator") "all_quarters" = false ->
  returns (_compileOperator colRef c).
Proof.
  intros V F Q. destruct (valid_condition_facts c V) as [_ [[op [Eo Ho]] [_ [S _]]]].
  destruct (S F) as [Sb Si].
  apply (compileOperator_returns colRef c op Eo Ho).
  - intros ->. rewrite Eo in Q. discriminate Q.
  - intros ->. apply Sb. now rewrite Eo.
  - intros ->. apply Si. now rewrite Eo.
Qed.

Lemma compilePeriodCondition_valid (c : value) (fi : fieldInfo) :
  fst (_validateCondition c) = [] ->
  truthy (get c "value_is_field") = false ->
  is_str (get c "operator") "all_quarters" = false ->
  returns (_compilePeriodCondition c fi).
Proof.
  intros V F Q. destruct (valid_condition_facts c V) as [_ [[op [Eo Ho]] _]].
  unfold _compilePeriodCondition. rewrite Eo. cbn [op_text].
  apply returns_bind; [apply returns_counter | intros pc].
  rewrite !bind_ret. rewrite (allowed_operator_own op Ho).
  destruct (is_str _ "all"); [rt|].
  destruct (is_str _ "any"); [rt|].
  destruct (_ || _); [rt|].
  apply returns_bind; [apply returns_add_table | intros _].
  apply compileOperator_valid; assumption.
Qed.

Lemma derived_field_has_sql (f : string) (fi : fieldInfo) :
  find_field f FIELD_TABLE_MAP = Some fi -> derived fi = true -> exists g, sql fi = Some g.
Proof.
  intros H D. apply find_field_In in H. unfold FIELD_TABLE_MAP, plain in H.
  repeat (destruct H as [E|H];
          [ injection E as _ <-; first [discriminate D | eexists; reflexivity] |]).
  destruct H.
Qed.

Lemma valid_condition_compiles (c : value) :
  fst (_validateCondition c) = [] ->
  is_str (get c "operator") "all_quarters" = false ->
  returns (_compileCondition c).
Proof.
  intros V Q.
  destruct (valid_condition_facts c V) as [[f [Ef Hf]] [[op [Eo Ho]] [Cf _]]].
  destruct (allowed_field_lookup f Hf) as [fi [Lf Ff]].
  unfold _compileCondition. rewrite Ef, Lf, bind_lift_ok.
  destruct (truthy (get c "value_is_field")) eqn:F.
  { destruct (Cf eq_refl) as [g [Eg Hg]].
    destruct (allowed_field_lookup g Hg) as [gi [Lg _]].
    rewrite Eg, Lg, bind_lift_ok, Eo. cbn [op_text]. rt. }
  destruct (includes _ (VStr f)).
  { rt. now apply compileOperator_valid. }
  destruct (_ && _).
  { rt. }
  destruct (derived fi) eqn:D.
  { destruct (derived_field_has_sql f fi Ff D) as [g ->]. rt. now apply compileOperator_valid. }
  destruct (_ && _).
  { now apply compilePeriodCondition_valid. }
  destruct (String.eqb _ _); rt; now apply compileOperator_valid.
Qed.

Lemma returns_safe {A} (m : M A) : returns m -> safe m.
Proof. intros H ctx. left. apply H. Qed.
Lemma safe_bind {A B} (m : M A) (f : A -> M B) :
  safe m -> (forall a, safe (f a)) -> safe (bind m f).
Proof.
  intros Hm Hf ctx. unfold bind. destruct (Hm ctx) as [[a [c' ->]]| ->]; [apply Hf | now right].
Qed.
Lemma safe_mapM {A B} (f : A -> M B) (l : list A) :
  (forall x, In x l -> safe (f x)) -> safe (mapM f l).
Proof.
  induction l as [|x l IH]; intros H; cbn [mapM]; [apply returns_safe, returns_ret|].
  apply safe_bind; [apply H; now left|]. intros y.
  apply safe_bind; [apply IH; intros z Hz; apply H; now right|]. intros ys.
  apply returns_safe, returns_ret.
Qed.

Lemma validator_condition_is_compiler_condition (c : value) :
  Validator._isCondition c = true -> Compiler._isCondition c = true.
Proof.
  unfold Validator._isCondition, Compiler._isCondition.
  destruct (truthy c), (truthy (get c "field")), (truthy (get c "operator"));
    cbn; auto; rewrite ?andb_false_r; auto.
Qed.

Lemma node_not_compiler_condition (op : string) (v : value) :
  str_in op ALLOWED_LOGICAL_OPERATORS = true ->
  Compiler._isCondition (VObj [(op, v)]) = false.
Proof.
  intros H. apply str_in_In in H.
  destruct H as [<-|[<-|[<-|[]]]]; reflexivity.
Qed.

(** What [_compileLogical] does with each element of the array. *)
Lemma tree_compiles (t : ltree) :
  well_formed t = true -> uses_operator "all_quarters" t = false ->
  (forall fuel,
     safe (if Compiler._isCondition (encode t) then _compileCondition (encode t)
           else (s <- _compileFilter fuel (encode t) ;; ret ("(" ++ s ++ ")")%string)))
  /\ (is_node t = true -> forall fuel, safe (_compileFilter fuel (encode t))).
Proof.
  induction t as [c|op l IH] using ltree_induction; intros W U.
  - cbn [well_formed] in W. apply andb_true_iff in W as [W1 W2].
    cbn [uses_operator] in U. cbn [encode is_node].
    split; [|discriminate]. intros fuel.
    rewrite (validator_condition_is_compiler_condition c W1).
    apply returns_safe, valid_condition_compiles; [|exact U].
    destruct (fst (_validateCondition c)); [reflexivity | discriminate].
  - cbn [well_formed] in W. apply andb_true_iff in W as [W1 W2].
    cbn [uses_operator] in U. cbn [encode is_node].
    assert (K : forall fuel, safe (_compileFilter fuel (VObj [(op, VArr (map encode l))]))).
    { intros [|fuel]; [intros ctx; now right|].
      assert (L : forall joiner,
                 safe (_compileLogical_with (_compileFilter fuel) (VArr (map encode l)) joiner)).
      { intros joiner. unfold _compileLogical_with.
        apply safe_bind; [|intros ?; apply returns_safe, returns_ret].
        apply safe_mapM. intros x Hx. apply in_map_iff in Hx as [t [<- Ht]].
        rewrite Forall_forall in IH. apply (IH t Ht).
        - rewrite forallb_forall in W2. now apply W2.
        - destruct (uses_operator "all_quarters" t) eqn:E; [|reflexivity].
          rewrite <- U. symmetry. apply existsb_exists. now exists t. }
      apply str_in_In in W1.
      destruct W1 as [<-|[<-|[<-|[]]]]; cbn [_compileFilter]; read_props;
        cbn [truthy negb]; try apply L.
      cbn [Compiler._isCondition get truthy String.eqb Ascii.eqb Bool.eqb orb andb].
      apply safe_bind; [|intros ?; apply returns_safe, returns_ret].
      destruct fuel as [|fuel]; [intros ctx; now right|].
      apply returns_safe. intros ctx. eexists _, _. reflexivity. }
    split; [|intros _; exact K]. intros fuel.
    rewrite (node_not_compiler_condition op _ W1).
    apply safe_bind; [apply K | intros ?; apply returns_safe, returns_ret].
Qed.

Lemma same_shape_refl (c : context) : same_shape c c.
Proof. repeat split. Qed.

Lemma st_ret {A} (a : A) : same_text (ret a) (ret a).
Proof. intros c c' H. cbn. auto. Qed.
Lemma st_throw {A} (e : exn) : same_text (@throw A e) (throw e).
Proof. intros c c' H. reflexivity. Qed.
Lemma st_beyond {A} : same_text (@beyond A) beyond.
Proof. intros c c' H. exact I. Qed.
Lemma st_push (v v' : value) : same_text (push v) (push v').
Proof.
  intros c c' [H1 [H2 [H3 H4]]]. cbn. split; [reflexivity|].
  repeat split; cbn; auto. rewrite !length_app. cbn. lia.
Qed.
Lemma st_placeholder : same_text placeholder placeholder.
Proof.
  intros c c' [H1 [H2 [H3 H4]]]. cbn. rewrite H1. split; [reflexivity|].
  repeat split; cbn; auto.
Qed.
Lemma st_counter : same_text counter counter.
Proof. intros c c' H. cbn. split; [apply H | exact H]. Qed.
Lemma st_add_table (t : string) : same_text (add_table t) (add_table t).
Proof.
  intros c c' [H1 [H2 [H3 H4]]]. cbn. split; [reflexivity|].
  repeat split; cbn; auto. now rewrite H2.
Qed.
Lemma st_lift {A} (o : outcome A) : same_text (lift o) (lift o).
Proof. intros c c' H. unfold lift. destruct o; cbn; auto. Qed.
Lemma st_bind {A B} (m m' : M A) (f f' : A -> M B) :
  same_text m m' -> (forall a, same_text (f a) (f' a)) ->
  same_text (bind m f) (bind m' f').
Proof.
  intros Hm Hf c c' H. unfold bind. specialize (Hm c c' H).
  destruct (m c) as [[a d]| | |], (m' c') as [[a' d']| | |]; try contradiction; auto.
  destruct Hm as [<- Hd]. apply Hf. exact Hd.
Qed.
Lemma st_mapM {A B} (f f' : A -> M B) (l : list A) :
  (forall x, In x l -> same_text (f x) (f' x)) -> same_text (mapM f l) (mapM f' l).
Proof.
  induction l as [|x l IH]; intros H; cbn [mapM]; [apply st_ret|].
  apply st_bind; [apply H; now left|]. intros y.
  apply st_bind; [apply IH; intros z Hz; apply H; now right|]. intros ys. apply st_ret.
Qed.

Ltac st_step :=
  lazymatch goal with
  | |- same_text (ret _) (ret _) => apply st_ret
  | |- same_text (throw _) (throw _) => apply st_throw
  | |- same_text beyond beyond => apply st_beyond
  | |- same_text (push _) (push _) => apply st_push
  | |- same_text placeholder placeholder => apply st_placeholder
  | |- same_text counter counter => apply st_counter
  | |- same_text (add_table _) (add_table _) => apply st_add_table
  | |- same_text (lift _) (lift _) => apply st_lift
  | |- same_text (bind _ _) (bind _ _) => apply st_bind; [|intros ?]
  | |- same_text (mapM _ ?l) (mapM _ ?l) => apply st_mapM; intros ? ?
  | |- same_text (if ?b then _ else _) (if ?b then _ else _) => destruct b
  | |- same_text (match ?x with _ => _ end) (match ?x with _ => _ end) => destruct x
  end.
Ltac st := repeat st_step.

Lemma st_index (v : value) (i : nat) : same_text (index v i) (index v i).
Proof. unfold index. st. Qed.
Lemma st_op_text (v : value) : same_text (op_text v) (op_text v).
Proof. unfold op_text. st. Qed.

Lemma st_compileOperator (colRef : string) (c c' : value) :
  same_but_value c c' ->
  same_text (_compileOperator colRef c) (_compileOperator colRef c').
Proof.
  intros [_ [K V]]. unfold _compileOperator.
  rewrite (K "operator") by discriminate.
  destruct V as [V|[[op [Eo Ho]] _]].
  - rewrite V. st; apply st_index.
  - rewrite Eo. apply str_in_In in Ho.
    change (str_in op ["<"; ">"; "<="; ">="; "="; "!="]) with (str_in op comparisons).
    rewrite Ho. st.
Qed.

Lemma st_compilePeriodCondition (c c' : value) (fi : fieldInfo) :
  same_but_value c c' ->
  same_text (_compilePeriodCondition c fi) (_compilePeriodCondition c' fi).
Proof.
  intros S. pose proof S as [_ [K _]]. unfold _compilePeriodCondition.
  rewrite (K "operator"), (K "period") by discriminate.
  st; try apply st_op_text; now apply st_compileOperator.
Qed.

Lemma st_compileCondition (c c' : value) :
  same_but_value c c' ->
  same_text (_compileCondition c) (_compileCondition c').
Proof.
  intros S. pose proof S as [_ [K V]]. unfold _compileCondition.
  rewrite (K "field"), (K "value_is_field"), (K "operator"), (K "period") by discriminate.
  apply st_bind; [apply st_lift | intros ofi].
  destruct ofi as [fi|]; [|apply st_throw].
  destruct (truthy (get c "value_is_field")) eqn:F.
  { destruct V as [V|[_ V]]; [|discriminate V]. rewrite V. st. apply st_op_text. }
  destruct (includes _ (get c "field")). { st. now apply st_compileOperator. }
  destruct (includes _ (get c "field") && is_str (get c "operator") "exists") eqn:D.
  { apply st_bind; [apply st_add_table | intros _].
    destruct V as [->|[[op [Eo Ho]] _]]; [apply st_ret|].
    apply andb_true_iff in D as [_ D]. rewrite Eo in D. cbn [is_str] in D.
    apply String.eqb_eq in D. subst op.
    apply str_in_In in Ho. discriminate Ho. }
  destruct (derived fi). { st; try apply st_throw; now apply st_compileOperator. }
  destruct (truthy (get c "period") && _). { now apply st_compilePeriodCondition. }
  destruct (String.eqb (table fi) _); st; now apply st_compileOperator.
Qed.

Lemma assoc_set_other (k k' : string) (v : value) (props : list (string * value)) :
  k <> k' -> assoc k (assoc_set k' v props) = assoc k props.
Proof.
  intros N. induction props as [|[x y] r IH]; cbn [assoc_set assoc].
  - destruct (String.eqb_spec k k'); [contradiction | reflexivity].
  - destruct (String.eqb_spec k' x) as [->|Nx]; cbn [assoc].
    + destruct (String.eqb_spec k x); [contradiction | reflexivity].
    + destruct (String.eqb k x); [reflexivity | exact IH].
Qed.

Lemma assoc_set_same (k : string) (v : value) (props : list (string * value)) :
  assoc k (assoc_set k v props) = v.
Proof.
  induction props as [|[x y] r IH]; cbn [assoc_set assoc].
  - now rewrite String.eqb_refl.
  - destruct (String.eqb_spec k x) as [->|Nx]; cbn [assoc].
    + now rewrite String.eqb_refl.
    + destruct (String.eqb_spec k x); [contradiction | exact IH].
Qed.

Lemma get_set_other (c : value) (k k' : string) (v : value) :
  k <> k' -> get (set c k' v) k = get c k.
Proof. intros N. destruct c; cbn [set get]; auto. now apply assoc_set_other. Qed.

Lemma truthy_set (c : value) (k : string) (v : value) : truthy (set c k v) = truthy c.
Proof. destruct c; reflexivity. Qed.

Lemma same_but_value_refl (c : value) : same_but_value c c.
Proof. repeat split; auto. Qed.

Lemma same_but_value_set (c : value) (op : string) (v : value) :
  get c "operator" = VStr op -> In op comparisons ->
  truthy (get c "value_is_field") = false ->
  same_but_value c (set c "value" v).
Proof.
  intros Eo Ho F. split; [apply truthy_set|]. split.
  - intros k N. now apply get_set_other.
  - right. split; [now exists op | exact F].
Qed.

Lemma same_but_value_condition (c c' : value) :
  same_but_value c c' -> Compiler._isCondition c' = Compiler._isCondition c.
Proof.
  intros [T [K _]]. unfold Compiler._isCondition.
  now rewrite T, (K "field"), (K "operator") by discriminate.
Qed.

Lemma same_but_value_filter (fuel : nat) (c c' : value) :
  same_but_value c c' -> _compileFilter fuel c' = _compileFilter fuel c.
Proof.
  intros [T [K _]]. destruct fuel as [|fuel]; [reflexivity|]. cbn [_compileFilter].
  now rewrite T, (K "and"), (K "or"), (K "not") by discriminate.
Qed.

(** The compiled text does not depend on the parameters gathered so far. *)
Lemma st_compileFilter_refl (fuel : nat) :
  forall filter, same_text (_compileFilter fuel filter) (_compileFilter fuel filter).
Proof.
  induction fuel as [|fuel IH]; intros filter; [intros c c' H; exact I|].
  assert (L : forall conditions joiner,
             same_text (_compileLogical_with (_compileFilter fuel) conditions joiner)
                       (_compileLogical_with (_compileFilter fuel) conditions joiner)).
  { intros conditions joiner. unfold _compileLogical_with.
    destruct conditions; try apply st_throw.
    apply st_bind; [|intros ?; apply st_ret].
    apply st_mapM. intros x _.
    destruct (Compiler._isCondition x); [apply st_compileCondition, same_but_value_refl|].
    apply st_bind; [apply IH | intros ?; apply st_ret]. }
  cbn [_compileFilter].
  destruct (negb (truthy filter)); [apply st_ret|].
  destruct (truthy (get filter "and")); [apply L|].
  destruct (truthy (get filter "or")); [apply L|].
  destruct (truthy (get filter "not")); [|apply st_ret].
  apply st_bind; [|intros ?; apply st_ret].
  destruct (Compiler._isCondition (get filter "not"));
    [apply st_compileCondition, same_but_value_refl | apply IH].
Qed.

Lemma single_key_not_condition (op : string) (v : value) :
  Compiler._isCondition (VObj [(op, v)]) = false.
Proof.
  unfold Compiler._isCondition. cbn [truthy get assoc andb].
  destruct (String.eqb_spec "field" op) as [<-|N]; [|reflexivity].
  cbn [String.eqb Ascii.eqb Bool.eqb]. apply andb_false_r.
Qed.

Lemma revalued_leaf (c c' : value) :
  revalued (Leaf c) (Leaf c') -> same_but_value c c'.
Proof.
  intros [->|[op [v [Eo [Ho [F ->]]]]]];
    [apply same_but_value_refl | now apply (same_but_value_set c op v)].
Qed.

Lemma st_tree (t : ltree) :
  forall t', revalued t t' -> forall fuel,
    same_text
      (if Compiler._isCondition (encode t) then _compileCondition (encode t)
       else (s <- _compileFilter fuel (encode t) ;; ret ("(" ++ s ++ ")")%string))
      (if Compiler._isCondition (encode t') then _compileCondition (encode t')
       else (s <- _compileFilter fuel (encode t') ;; ret ("(" ++ s ++ ")")%string))
    /\ same_text (_compileFilter fuel (encode t)) (_compileFilter fuel (encode t')).
Proof.
  induction t as [c|op l IH] using ltree_induction; intros [c'|op' l'] R fuel;
    try contradiction.
  - apply revalued_leaf in R. cbn [encode].
    rewrite (same_but_value_condition c c' R), (same_but_value_filter fuel c c' R).
    split; [|apply st_compileFilter_refl].
    destruct (Compiler._isCondition c); [now apply st_compileCondition|].
    apply st_bind; [apply st_compileFilter_refl | intros ?; apply st_ret].
  - cbn [revalued] in R. destruct R as [<- R]. cbn [encode].
    assert (M : forall fuel,
      same_text
        (mapM (fun cond =>
                 if Compiler._isCondition cond then _compileCondition cond
                 else (s <- _compileFilter fuel cond ;; ret ("(" ++ s ++ ")")%string))
              (map encode l))
        (mapM (fun cond =>
                 if Compiler._isCondition cond then _compileCondition cond
                 else (s <- _compileFilter fuel cond ;; ret ("(" ++ s ++ ")")%string))
              (map encode l'))).
    { intros fuel0. revert l' R. induction l as [|x l IHl]; intros [|x' l'] R;
        try contradiction; cbn [map mapM]; [apply st_ret|].
      destruct R as [Rx Rl]. inversion IH as [|? ? Hx Hl]; subst.
      apply st_bind; [apply (Hx x' Rx fuel0)|]. intros y.
      apply st_bind; [apply (IHl Hl l' Rl) | intros ys; apply st_ret]. }
    assert (K : forall fuel,
      same_text (_compileFilter fuel (VObj [(op, VArr (map encode l))]))
                (_compileFilter fuel (VObj [(op, VArr (map encode l'))]))).
    { intros [|fuel0]; [intros c c' H; exact I|].
      assert (L : forall joiner,
        same_text (_compileLogical_with (_compileFilter fuel0) (VArr (map encode l)) joiner)
                  (_compileLogical_with (_compileFilter fuel0) (VArr (map encode l')) joiner)).
      { intros joiner. unfold _compileLogical_with.
        apply st_bind; [apply M | intros ?; apply st_ret]. }
      cbn [_compileFilter truthy negb get assoc].
      destruct (String.eqb "and" op); cbn [truthy]; [apply L|].
      destruct (String.eqb "or" op); cbn [truthy]; [apply L|].
      destruct (String.eqb "not" op); cbn [truthy]; [|apply st_ret].
      apply st_bind; [|intros ?; apply st_ret].
      cbn [Compiler._isCondition get truthy String.eqb Ascii.eqb Bool.eqb orb andb].
      destruct fuel0 as [|fuel1]; [intros c c' H; exact I | apply st_ret]. }
    split; [|apply K].
    rewrite !single_key_not_condition.
    apply st_bind; [apply K | intros ?; apply st_ret].
Qed.

Lemma refines_refl {A} (m : M A) : refines m m.
Proof. intros c _. reflexivity. Qed.

Lemma refines_bind {A B} (m m' : M A) (f f' : A -> M B) :
  refines m m' -> (forall a, refines (f a) (f' a)) -> refines (bind m f) (bind m' f').
Proof.
  intros Hm Hf c H. unfold bind in *. specialize (Hm c).
  destruct (m c) as [[a c1]| | |]; try (rewrite Hm by discriminate; reflexivity).
  - rewrite Hm by discriminate. now apply Hf.
  - contradiction.
Qed.

Lemma refines_mapM {A B} (f f' : A -> M B) (l : list A) :
  (forall x, refines (f x) (f' x)) -> refines (mapM f l) (mapM f' l).
Proof.
  intros H. induction l as [|x l IH]; cbn [mapM]; [apply refines_refl|].
  apply refines_bind; [apply H|]. intros y.
  apply refines_bind; [apply IH | intros ys; apply refines_refl].
Qed.

Lemma compileFilter_S (fuel : nat) (filter : value) :
  _compileFilter (S fuel) filter
  = if negb (truthy filter) then ret "1=1"
    else if truthy (get filter "and") then
      _compileLogical_with (_compileFilter fuel) (get filter "and") "AND"
    else if truthy (get filter "or") then
      _compileLogical_with (_compileFilter fuel) (get filter "or") "OR"
    else if truthy (get filter "not") then
      s <- (if Compiler._isCondition (get filter "not")
            then _compileCondition (get filter "not")
            else _compileFilter fuel (get filter "not")) ;;
      ret ("NOT (" ++ s ++ ")")%string
    else ret "1=1".
Proof. reflexivity. Qed.

Lemma compileFilter_more_fuel (fuel : nat) :
  forall filter, refines (_compileFilter fuel filter) (_compileFilter (S fuel) filter).
Proof.
  induction fuel as [|fuel IH]; intros filter; [intros c H; contradiction|].
  assert (L : forall conditions joiner,
             refines (_compileLogical_with (_compileFilter fuel) conditions joiner)
                     (_compileLogical_with (_compileFilter (S fuel)) conditions joiner)).
  { intros conditions joiner. unfold _compileLogical_with.
    destruct conditions; try apply refines_refl.
    apply refines_bind; [|intros ?; apply refines_refl].
    apply refines_mapM. intros x.
    destruct (Compiler._isCondition x); [apply refines_refl|].
    apply refines_bind; [apply IH | intros ?; apply refines_refl]. }
  rewrite (compileFilter_S (S fuel) filter), (compileFilter_S fuel filter).
  destruct (negb (truthy filter)); [apply refines_refl|].
  destruct (truthy (get filter "and")); [apply L|].
  destruct (truthy (get filter "or")); [apply L|].
  destruct (truthy (get filter "not")); [|apply refines_refl].
  apply refines_bind; [|intros ?; apply refines_refl].
  destruct (Compiler._isCondition (get filter "not")); [apply refines_refl | apply IH].
Qed.

Lemma compileFilter_fuel_le (fuel fuel' : nat) (filter : value) :
  (fuel <= fuel')%nat -> refines (_compileFilter fuel filter) (_compileFilter fuel' filter).
Proof.
  induction 1 as [|n _ IH]; [apply refines_refl|].
  intros c H. rewrite <- (IH c H). apply compileFilter_more_fuel. now rewrite (IH c H).
Qed.

Lemma vdepth_rule (x : value) : (vdepth x < S (vdepth (rule x)))%nat.
Proof. unfold rule. cbn [vdepth fold_right snd]. lia. Qed.

(** [compile] on a rule that holds a filter only, in terms of the result
    of [_compileFilter]. *)
Lemma compile_rule_same_text (x x' : value) (fuel : nat) (r : compiled) :
  same_text (_compileFilter fuel x) (_compileFilter fuel x') ->
  (S (vdepth (rule x)) <= fuel)%nat -> (S (vdepth (rule x')) <= fuel)%nat ->
  compile (rule x) = Ok r ->
  exists r', compile (rule x') = Ok r'
    /\ sql_text r' = sql_text r /\ sql_tables r' = sql_tables r
    /\ length (sql_params r') = length (sql_params r).
Proof.
  intros T Hf Hf'.
  pose proof (ff_compileFilter _ x (vdepth_rule x) context0) as N.
  pose proof (ff_compileFilter _ x' (vdepth_rule x') context0) as N'.
  pose proof (compileFilter_fuel_le _ fuel x Hf context0 N) as E.
  pose proof (compileFilter_fuel_le _ fuel x' Hf' context0 N') as E'.
  specialize (T context0 context0 (same_shape_refl context0)).
  rewrite E, E' in T. clear E E' N N' Hf Hf'.
  unfold compile, compile_with. fold context0.
  change (nullish (rule x)) with false. change (nullish (rule x')) with false.
  change (get (rule x) "filter") with x. change (get (rule x') "filter") with x'.
  change (get (rule x) "sort") with VUndef. change (get (rule x') "sort") with VUndef.
  change (get (rule x) "limit") with VUndef. change (get (rule x') "limit") with VUndef.
  cbv iota. unfold bind, add_table, ret.
  destruct (_compileFilter (S (vdepth (rule x))) x context0) as [[w c]| | |];
    destruct (_compileFilter (S (vdepth (rule x'))) x' context0) as [[w' c']| | |];
    try contradiction; try discriminate.
  destruct T as [<- [H1 [H2 [H3 H4]]]].
  cbn [obind params paramCounter requiredTables periodSubqueries truthy or_else].
  intros H.
  apply (f_equal (fun o => match o with Ok y => y | _ => r end)) in H.
  cbv beta iota in H. subst r.
  eexists. split; [reflexivity|].
  cbn [sql_text sql_tables sql_params]. rewrite H1, H2, H3.
  split; [reflexivity|]. split; [reflexivity|].
  rewrite !length_app. cbn [length]. now rewrite H4.
Qed.

(** X9: replacing the constant of comparisons of a field with a
    constant, by any values whatever, changes neither the text [compile]
    returns nor its tables nor the number of its parameters: such a
    constant reaches the query as a parameter only. *)
Theorem constants_stay_out_of_the_text (t t' : ltree) (r : compiled) :
  revalued t t' ->
  compile (rule (encode t)) = Ok r ->
  exists r', compile (rule (encode t')) = Ok r'
    /\ sql_text r' = sql_text r /\ sql_tables r' = sql_tables r
    /\ length (sql_params r') = length (sql_params r).
Proof.
  intros R.
  apply (compile_rule_same_text (encode t) (encode t')
           (Nat.max (S (vdepth (rule (encode t)))) (S (vdepth (rule (encode t')))))).
  - apply (st_tree t t' R).
  - apply Nat.le_max_l.
  - apply Nat.le_max_r.
Qed.

Lemma constants_stay_out_of_the_text_witness :
  exists r r',
    compile (rule (encode two_comparisons)) = Ok r
    /\ compile (rule (encode hostile_comparisons)) = Ok r'
    /\ sql_text r' = sql_text r /\ sql_tables r' = sql_tables r
    /\ length (sql_params r') = length (sql_params r).
Proof.
  assert (R : revalued two_comparisons hostile_comparisons).
  { cbn [revalued two_comparisons hostile_comparisons].
    split; [reflexivity|]. split; [|split; [left; reflexivity | exact I]].
    right. exists "<", (VStr "0; DROP TABLE companies").
    split; [reflexivity|]. split; [apply str_in_In; reflexivity|]. split; reflexivity. }
  assert (C : exists r, compile (rule (encode two_comparisons)) = Ok r)
    by (eexists; vm_compute; reflexivity).
  destruct C as [r C].
  destruct (constants_stay_out_of_the_text two_comparisons hostile_comparisons r R C)
    as [r' H].
  exists r, r'. split; [exact C | exact H].
Defined.

(** ** The compiler on a finite stack *)

(** More room changes nothing for a call of [compile] that had enough. *)
Lemma compile_with_more (fuel fuel' : nat) (dsl : value) :
  (fuel <= fuel')%nat -> compile_with fuel dsl <> NoFuel ->
  compile_with fuel' dsl = compile_with fuel dsl.
Proof.
  intros L H. unfold compile_with in *.
  destruct (nullish dsl); [reflexivity|].
  unfold bind in *.
  pose proof (compileFilter_fuel_le fuel fuel' (get dsl "filter") L
                (mkContext [] 1 ["companies"] [])) as R.
  destruct (_compileFilter fuel (get dsl "filter") (mkContext [] 1 ["companies"] []))
    as [[w c]| | |] eqn:E.
  - rewrite R by discriminate. reflexivity.
  - rewrite R by discriminate. reflexivity.
  - rewrite R by discriminate. reflexivity.
  - exfalso. apply H. reflexivity.
Qed.

(** Where the stack has room, [compile] returns what [Compiler.compile]
    computes. *)
Lemma run_compile (stack : nat) (dsl : value) :
  compile_with stack dsl <> NoFuel -> Run.compile stack dsl = compile dsl.
Proof.
  intros H. unfold Run.compile.
  assert (E : compile_with stack dsl = compile dsl).
  { unfold compile. destruct (Nat.le_ge_cases stack (S (vdepth dsl))) as [L|L].
    - symmetry. now apply compile_with_more.
    - apply compile_with_more; [exact L | apply compile_fuel_suffices]. }
  rewrite E in *. destruct (compile dsl); try reflexivity. contradiction.
Qed.

(** The room a well-formed tree needs in the compiler: one call more
    than its depth, the nested call for the array under a [not]. *)
Lemma tree_fuel (t : ltree) :
  well_formed t = true ->
  forall fuel, (depth t < fuel)%nat ->
    fuel_free (if Compiler._isCondition (encode t) then _compileCondition (encode t)
               else (s <- _compileFilter fuel (encode t) ;; ret ("(" ++ s ++ ")")%string))
    /\ (is_node t = true -> fuel_free (_compileFilter fuel (encode t))).
Proof.
  induction t as [c|op l IH] using ltree_induction; intros W fuel D;
    cbn [well_formed] in W; apply andb_true_iff in W as [W1 W2].
  - cbn [encode is_node]. split; [|discriminate].
    rewrite (validator_condition_is_compiler_condition c W1). apply ff_compileCondition.
  - cbn [encode is_node].
    assert (K : fuel_free (_compileFilter fuel (VObj [(op, VArr (map encode l))]))).
    { destruct fuel as [|[|room]]; [lia | cbn [depth] in D; lia |].
      assert (F : Forall (fun t => (depth t <= room)%nat) l)
        by (apply (depth_node_le op); lia).
      assert (L : forall joiner,
                 fuel_free (_compileLogical_with (_compileFilter (S room))
                              (VArr (map encode l)) joiner)).
      { intros joiner. unfold _compileLogical_with.
        apply ff_bind; [|intros ?; apply ff_ret].
        apply ff_mapM. intros x Hx. apply in_map_iff in Hx as [t [<- Ht]].
        rewrite Forall_forall in IH, F. apply (IH t Ht).
        - rewrite forallb_forall in W2. now apply W2.
        - specialize (F t Ht). lia. }
      apply str_in_In in W1.
      destruct W1 as [<-|[<-|[<-|[]]]]; cbn [_compileFilter]; read_props;
        cbn [truthy negb]; try apply L.
      cbn [Compiler._isCondition get truthy String.eqb Ascii.eqb Bool.eqb orb andb].
      apply ff_bind; [|intros ?; apply ff_ret].
      intros ctx. discriminate. }
    split; [|intros _; exact K].
    rewrite (node_not_compiler_condition op _ W1).
    apply ff_bind; [exact K | intros ?; apply ff_ret].
Qed.

(** A result [compile] returns on a finite stack is the result
    [Compiler.compile] computes. *)
Lemma run_compile_returns (stack : nat) (dsl : value) (r : compiled) :
  Run.compile stack dsl = Ok r -> compile dsl = Ok r.
Proof.
  intros H. rewrite <- (run_compile stack dsl); [exact H|].
  unfold Run.compile in H. destruct (compile_with stack dsl); congruence.
Qed.

(** X8: a well-formed tree of conditions in which no condition uses
    [all_quarters] is accepted by the validator and compiled by
    [compile] without an exception, on call stacks with room for its
    depth: [depth t] nested calls of [_validateFilter], and one more of
    [_compileFilter]. *)
Theorem trees_without_all_quarters_compile (vstack cstack : nat) (t : ltree) :
  is_node t = true -> well_formed t = true -> uses_operator "all_quarters" t = false ->
  (depth t <= vstack)%nat -> (depth t < cstack)%nat ->
  Run.accepts vstack (rule (encode t)) = true
  /\ exists r, Run.compile cstack (rule (encode t)) = Ok r.
Proof.
  intros N W U Dv Dc. split.
  - unfold Run.accepts. rewrite (run_validate_tree vstack t N W).
    apply Nat.leb_le in Dv. rewrite Dv. reflexivity.
  - assert (F : compile_with cstack (rule (encode t)) <> NoFuel).
    { destruct (tree_fuel t W cstack Dc) as [_ K]. specialize (K N).
      unfold compile_with, rule. cbn [nullish]. read_props.
      unfold bind at 1.
      specialize (K (mkContext [] 1 ["companies"] [])).
      destruct (_compileFilter cstack (encode t) (mkContext [] 1 ["companies"] []))
        as [[w c]| | |]; try discriminate. contradiction. }
    rewrite (run_compile _ _ F).
    destruct (tree_compiles t W U) as [_ K]. specialize (K N).
    pose proof (compile_fuel_suffices (rule (encode t))) as NF.
    unfold compile, compile_with in *. unfold rule in *. cbn [nullish] in *.
    cbn [get assoc String.eqb Ascii.eqb Bool.eqb] in *.
    unfold bind at 1. unfold bind at 1 in NF.
    destruct (K (S (vdepth (VObj [("filter", encode t)]))) (mkContext [] 1 ["companies"] []))
      as [[w [ctx E]]|E]; rewrite E in *.
    + cbn [truthy obind]. eexists. reflexivity.
    + exfalso. apply NF. reflexivity.
Qed.

Lemma trees_without_all_quarters_compile_witness :
  Run.accepts 2 (rule (encode mixed_tree)) = true
  /\ exists r, Run.compile 3 (rule (encode mixed_tree)) = Ok r.
Proof.
  apply (trees_without_all_quarters_compile 2 3 mixed_tree); try reflexivity; cbn; lia.
Defined.

Lemma assoc_del_other (k k' : string) (props : list (string * value)) :
  k <> k' -> assoc k (assoc_del k' props) = assoc k props.
Proof.
  intros N. induction props as [|[x y] r IH]; cbn [assoc_del assoc]; [reflexivity|].
  destruct (String.eqb_spec k' x) as [->|Nx]; cbn [assoc].
  - destruct (String.eqb_spec k x); [contradiction | exact IH].
  - destruct (String.eqb k x); [reflexivity | exact IH].
Qed.

Lemma assoc_del_same (k : string) (props : list (string * value)) :
  assoc k (assoc_del k props) = VUndef.
Proof.
  induction props as [|[x y] r IH]; cbn [assoc_del assoc]; [reflexivity|].
  destruct (String.eqb_spec k x) as [->|Nx]; cbn [assoc]; [exact IH|].
  destruct (String.eqb_spec k x); [contradiction | exact IH].
Qed.

Lemma get_del_other (c : value) (k k' : string) :
  k <> k' -> get (del c k') k = get c k.
Proof. intros N. destruct c; cbn [del get]; auto. now apply assoc_del_other. Qed.

(** X10: on a condition with a [timeframe] and no [period],
    [_validateCondition] does what it does on the condition without the
    timeframe (the same errors, or the same exception from a message
    that cannot be built) and, when it returns, leaves the condition with
    the timeframe replaced by a period of type [last_n_quarters] built
    from it, with 1 and [all] as defaults, and its other properties as
    they were: the period it writes is not itself checked. *)
Theorem legacy_timeframe_is_not_checked (c : value) :
  truthy (get c "timeframe") = true -> truthy (get c "period") = false ->
  exists c',
    get c' "period"
    = VObj [ ("type", VStr "last_n_quarters");
             ("n", or_else (get (get c "timeframe") "period") (VNum 1));
             ("aggregation", or_else (get (get c "timeframe") "aggregation") (VStr "all")) ]
    /\ get c' "timeframe" = VUndef
    /\ (forall k, k <> "period" -> k <> "timeframe" -> get c' k = get c k)
    /\ Run._validateCondition c
       = obind (Run._validateCondition (del c "timeframe")) (fun r => Ok (fst r, c')).
Proof.
  intros T P.
  assert (exists props, c = VObj props) as [props ->].
  { destruct c; cbn in T; try discriminate T. now exists props. }
  pose (c' := del (set (VObj props) "period"
                     (VObj [ ("type", VStr "last_n_quarters");
                             ("n", or_else (get (get (VObj props) "timeframe") "period")
                                     (VNum 1));
                             ("aggregation",
                              or_else (get (get (VObj props) "timeframe") "aggregation")
                                (VStr "all")) ]))
                "timeframe").
  assert (V : Validator._validateCondition (VObj props)
              = (fst (Validator._validateCondition (del (VObj props) "timeframe")), c')).
  { unfold Validator._validateCondition. cbv zeta. cbn [fst].
    rewrite !(get_del_other (VObj props)) by discriminate. rewrite T, P. reflexivity. }
  exists c'. split; [|split; [|split]].
  - unfold c'. rewrite get_del_other by discriminate. cbn [set get]. apply assoc_set_same.
  - unfold c'. cbn [set del get]. apply assoc_del_same.
  - intros k N1 N2. unfold c'. rewrite get_del_other by auto. now apply get_set_other.
  - unfold Run._validateCondition. rewrite V. cbn [fst].
    destruct (Run.messages (fst (Validator._validateCondition (del (VObj props) "timeframe"))));
      reflexivity.
Qed.

Lemma legacy_timeframe_is_not_checked_witness :
  exists c',
    get c' "period"
    = VObj [ ("type", VStr "last_n_quarters"); ("n", VNum 50); ("aggregation", VStr "all") ]
    /\ Run._validateCondition legacy_condition = Ok ([], c').
Proof.
  destruct (legacy_timeframe_is_not_checked legacy_condition) as [c' [P [_ [_ E]]]]; [reflexivity | reflexivity |].
  exists c'. split; [exact P | rewrite E; reflexivity].
Defined.

Lemma js_le_integers (a b : Z) :
  js_le (VNum (inject_Z a)) (VNum (inject_Z b)) = Ok (a <=? b)%Z.
Proof.
  unfold js_le, js_compare. cbn [ToNumber obind]. f_equal.
  unfold Qcompare, inject_Z. cbn [Qnum Qden]. rewrite !Z.mul_1_r.
  unfold Z.leb. destruct (a ?= b)%Z; reflexivity.
Qed.

Lemma integer_truthy (k : Z) : truthy (VNum (inject_Z k)) = negb (k =? 0)%Z.
Proof.
  cbn [truthy]. f_equal. unfold Qeq_bool, inject_Z. cbn [Qnum Qden].
  rewrite Z.mul_1_r. destruct k; reflexivity.
Qed.

(** X11: with [days_before] the integer [k], [checkEarningsUpcoming]
    answers true exactly when [k] is not 0 and the earnings date is less
    than a day behind the clock and at most [k] days ahead of it. *)
Theorem earnings_alert_window (today date k : Z) (condition : value) :
  get condition "days_before" = VNum (inject_Z k) ->
  checkEarningsUpcoming today condition date = Ok true
  <-> (k <> 0 /\ - day < date - today /\ date - today <= k * day)%Z.
Proof.
  intros E. unfold checkEarningsUpcoming. rewrite E, integer_truthy, js_le_integers.
  cbn [obind]. unfold ceil_div, day.
  pose proof (Z.div_mod (- (date - today)) 86400000 ltac:(lia)) as D.
  pose proof (Z.mod_pos_bound (- (date - today)) 86400000 ltac:(lia)) as B.
  destruct (Z.eqb_spec k 0) as [->|N]; cbn [negb].
  - split; [discriminate | lia].
  - split.
    + intros [= H]. apply andb_true_iff in H as [H1 H2].
      apply Z.leb_le in H1, H2. lia.
    + intros [_ [H1 H2]]. f_equal. apply andb_true_iff. split; apply Z.leb_le; lia.
Qed.

Lemma earnings_alert_window_witness :
  checkEarningsUpcoming 0 (VObj [("days_before", VNum 3)]) (-3600000) = Ok true.
Proof.
  apply (earnings_alert_window 0 (-3600000) 3 (VObj [("days_before", VNum 3)]));
    [reflexivity|]. unfold day. lia.
Defined.

(** X12: with [days_lookback] the integer [k], [checkBuybackAnnounced]
    answers true exactly when [k] is not 0 and the buyback date is not
    after the clock and less than [k + 1] days before it. *)
Theorem buyback_alert_window (today date k : Z) (condition : value) :
  get condition "days_lookback" = VNum (inject_Z k) ->
  checkBuybackAnnounced today condition date = Ok true
  <-> (k <> 0 /\ 0 <= today - date /\ today - date < (k + 1) * day)%Z.
Proof.
  intros E. unfold checkBuybackAnnounced. rewrite E, integer_truthy, js_le_integers.
  cbn [obind]. unfold floor_div, day.
  pose proof (Z.div_mod (today - date) 86400000 ltac:(lia)) as D.
  pose proof (Z.mod_pos_bound (today - date) 86400000 ltac:(lia)) as B.
  destruct (Z.eqb_spec k 0) as [->|N]; cbn [negb].
  - split; [discriminate | lia].
  - split.
    + intros [= H]. apply andb_true_iff in H as [H1 H2].
      apply Z.leb_le in H1, H2. lia.
    + intros [_ [H1 H2]]. f_equal. apply andb_true_iff. split; apply Z.leb_le; lia.
Qed.

Lemma buyback_alert_window_witness :
  checkBuybackAnnounced 691199999 (VObj [("days_lookback", VNum 7)]) 0 = Ok true.
Proof.
  apply (buyback_alert_window 691199999 0 7 (VObj [("days_lookback", VNum 7)]));
    [reflexivity|]. unfold day. lia.
Defined.

(** An invariant of the store that every evaluation keeps is kept by a
    whole ticker group. *)
Lemma process_group_keeps (P : world -> Prop) (g : list alert) (q : value)
  (m : option metadata) (f : value) :
  (forall a w w', In a g -> P w -> evaluateAlert a q m f w = Ok w' -> P w') ->
  forall w w', P w -> process_group g q m f w = Ok w' -> P w'.
Proof.
  intros H w w' Pw. unfold process_group. destruct (_ && _); [now intros [= <-]|].
  revert w Pw. induction g as [|a g IH]; intros w Pw; cbn [fold_left].
  - now intros [= <-].
  - cbn [obind]. destruct (evaluateAlert a q m f w) as [w1| | |] eqn:E.
    + apply IH; [intros b u u' Hb; apply H; now right | eapply H; eauto; now left].
    + intros Hf. exfalso. eapply fold_not_ok; [|exact Hf]. discriminate.
    + intros Hf. exfalso. eapply fold_not_ok; [|exact Hf]. discriminate.
    + intros Hf. exfalso. eapply fold_not_ok; [|exact Hf]. discriminate.
Qed.

Lemma count_for_snoc (i : nat) (ns : list notification) (n : notification) :
  count_for i (ns ++ [n])
  = (count_for i ns + if (n_alert_id n =? i)%nat then 1 else 0)%nat.
Proof.
  unfold count_for. rewrite filter_app, length_app. cbn [filter].
  destruct (n_alert_id n =? i)%nat; reflexivity.
Qed.

Lemma counted_trigger (rows : list alert) (a : alert) (msg : message) (w : world) :
  counted rows w -> counted rows (triggerAlert a msg w).
Proof.
  unfold counted, triggerAlert. cbn [alert_subscriptions notifications].
  induction 1 as [|a0 r rows0 rs [Hid Hc] _ IH]; cbn [map]; constructor; [|exact IH].
  rewrite count_for_snoc. cbn [n_alert_id].
  destruct (id r =? id a)%nat eqn:E; rewrite Hid in E; rewrite (Nat.eqb_sym (id a) (id a0)), E;
    cbn [id trigger_count]; split; auto; lia.
Qed.

Lemma counted_evaluate (rows : list alert) (a : alert) (q : value) (m : option metadata)
  (f : value) (w w' : world) :
  counted rows w -> evaluateAlert a q m f w = Ok w' -> counted rows w'.
Proof.
  intros H. unfold evaluateAlert.
  destruct (evaluation (clock w) a q m f) as [[[|] msg]| e | |]; intros [= <-];
    [now apply counted_trigger | exact H | exact H].
Qed.

Lemma counted_step (rows : list alert) (s s' : system) (e : event) :
  counted rows (store s) -> step s e = Ok s' -> counted rows (store s').
Proof.
  intros H. destruct e as [d|c|c q m f]; cbn [step].
  - destruct (0 <=? d)%Z; intros [= <-]; exact H.
  - destruct (timer_due s <=? clock (store s))%Z; intros [= <-]; exact H.
  - destruct (take_group c (running s)) as [[g rs']|]; [|intros [= <-]; exact H].
    destruct (process_group g q m f (store s)) as [w1| | |] eqn:Hp; try discriminate.
    intros [= <-]. cbn [store].
    eapply (process_group_keeps (counted rows)); [|exact H|exact Hp].
    intros a w w' _. apply counted_evaluate.
Qed.

Lemma run_keeps (P : system -> Prop) :
  (forall s s' e, P s -> step s e = Ok s' -> P s') ->
  forall trace s s', P s -> run s trace = Ok s' -> P s'.
Proof.
  intros H. induction trace as [|e trace IH]; intros s s' Ps Hrun.
  - injection Hrun as <-. exact Ps.
  - rewrite run_cons in Hrun.
    destruct (step s e) as [s1| | |] eqn:Hs; try discriminate.
    cbn [obind] in Hrun. eapply IH; [eapply H; eauto | exact Hrun].
Qed.

(** X13: however the calls of [processAlerts] interleave, the store
    keeps the rows it started with, in order, and the [trigger_count] of
    each has grown by the number of notifications made for its id. *)
Theorem trigger_count_counts_notifications (t0 : Z) (rows : list alert)
  (trace : list event) (s : system) :
  run (started t0 rows) trace = Ok s ->
  Forall2 (fun a r =>
             id r = id a
             /\ trigger_count r
                = (trigger_count a + count_for (id a) (notifications (store s)))%nat)
    rows (alert_subscriptions (store s)).
Proof.
  intros Hrun.
  apply (run_keeps (fun s => counted rows (store s))
           (counted_step rows) trace (started t0 rows) s); [|exact Hrun].
  unfold counted, started. cbn [store alert_subscriptions notifications].
  clear. induction rows as [|a rows IH]; [constructor|].
  constructor; [|exact IH]. split; [reflexivity | cbn; lia].
Qed.

Lemma trigger_count_counts_notifications_witness :
  exists s,
    run (started 0 [infy_above_100; price_above_100]) overlapping_calls = Ok s
    /\ Forall2 (fun a r =>
                  id r = id a
                  /\ trigger_count r
                     = (trigger_count a + count_for (id a) (notifications (store s)))%nat)
         [infy_above_100; price_above_100] (alert_subscriptions (store s)).
Proof.
  assert (R : exists s, run (started 0 [infy_above_100; price_above_100]) overlapping_calls = Ok s)
    by (eexists; vm_compute; reflexivity).
  destruct R as [s R]. exists s. split; [exact R|].
  exact (trigger_count_counts_notifications 0 _ _ s R).
Defined.

Lemma evaluation_true_type (today : Z) (a : alert) (q : value) (m : option metadata)
  (f : value) (msg : message) :
  evaluation today a q m f = Ok (true, msg) -> In (alert_type a) EVALUATED_TYPES.
Proof.
  unfold evaluation, EVALUATED_TYPES.
  destruct (String.eqb_spec (alert_type a) "price_threshold") as [->|_];
    [intros _; now left|].
  destruct (String.eqb_spec (alert_type a) "price_below_buy_price") as [->|_];
    [intros _; right; now left|].
  cbn [orb].
  destruct (String.eqb_spec (alert_type a) "price_vs_analyst") as [->|_]; [discriminate|].
  destruct (String.eqb_spec (alert_type a) "earnings_upcoming") as [->|_];
    [intros _; do 2 right; now left|].
  destruct (String.eqb_spec (alert_type a) "buyback_announced") as [->|_];
    [intros _; do 3 right; now left|].
  destruct (String.eqb_spec (alert_type a) "fundamental_condition") as [->|_];
    [intros _; do 4 right; now left | discriminate].
Qed.

Lemma known_after_trigger (rows : list alert) (a : alert) (now : Z) (r : alert) :
  known rows r ->
  known rows (if (id r =? id a)%nat then
                mkAlert (id r) (user_id r) (ticker r) (alert_name r) (alert_type r)
                  (condition_json r) (is_active r) (Some now) (S (trigger_count r))
                  (Some now)
              else r).
Proof.
  intros [a0 [H0 S0]]. destruct (id r =? id a)%nat; [|now exists a0].
  exists a0. split; [exact H0|]. exact S0.
Qed.

Lemma sound_evaluate (rows : list alert) (a : alert) (q : value) (m : option metadata)
  (f : value) (w w' : world) :
  selected rows a -> sound_store rows w -> evaluateAlert a q m f w = Ok w' ->
  sound_store rows w'.
Proof.
  intros [Ha [Ht [a0 [H0 [S1 [S2 [S3 [S4 S5]]]]]]]] [Hr Hn]. unfold evaluateAlert.
  destruct (evaluation (clock w) a q m f) as [[[|] msg]| e | |] eqn:E; intros [= <-];
    try (split; assumption).
  unfold triggerAlert. split; cbn [alert_subscriptions notifications].
  - rewrite Forall_forall in *. intros r Hin. apply in_map_iff in Hin as [r0 [<- Hin]].
    apply known_after_trigger. now apply Hr.
  - apply Forall_app. split; [exact Hn|]. constructor; [|constructor].
    exists a0. cbn [n_alert_id n_user_id n_ticker].
    repeat split; auto; try congruence.
    + unfold has_ticker in *. now rewrite <- S3.
    + rewrite <- S4. eapply evaluation_true_type. exact E.
Qed.

Lemma sound_step (rows : list alert) (s s' : system) (e : event) :
  sound rows s -> step s e = Ok s' -> sound rows s'.
Proof.
  intros [[Hr Hn] Hp]. destruct e as [d|c|c q m f]; cbn [step].
  - destruct (0 <=? d)%Z; intros [= <-]; repeat split; assumption.
  - destruct (timer_due s <=? clock (store s))%Z; intros [= <-];
      [|repeat split; assumption].
    split; [split; assumption|]. cbn [running].
    unfold pending. rewrite flat_map_app. apply Forall_app. split; [exact Hp|].
    cbn [flat_map snd]. rewrite app_nil_r.
    rewrite Forall_forall in *. intros p Hin.
    eapply Permutation_in in Hin; [|apply selected_perm].
    apply filter_In in Hin as [Hin Tk]. unfold select_due in Hin.
    apply filter_In in Hin as [Hin Du]. unfold due in Du.
    apply andb_true_iff in Du as [Ac _].
    repeat split; auto.
  - destruct (take_group c (running s)) as [[g rs']|] eqn:Ht;
      [|intros [= <-]; repeat split; assumption].
    destruct (process_group g q m f (store s)) as [w1| | |] eqn:Hg; try discriminate.
    intros [= <-]. cbn [store running].
    pose proof (take_group_perm _ _ _ _ Ht) as P.
    rewrite Forall_forall in Hp.
    split.
    + eapply (process_group_keeps (sound_store rows)); [|split; eassumption|exact Hg].
      intros a w w' Ha. apply sound_evaluate. apply Hp.
      eapply Permutation_in; [symmetry; exact P|]. apply in_or_app. now left.
    + rewrite Forall_forall. intros p Hin. apply Hp.
      eapply Permutation_in; [symmetry; exact P|]. apply in_or_app. now right.
Qed.

(** X14: however the calls of [processAlerts] interleave, every
    notification carries the id, user and ticker of a subscription the
    processor started with, one that is active, has a ticker and is of a
    type [evaluateAlert] has an evaluation for. *)
Theorem notifications_only_for_selected_alerts (t0 : Z) (rows : list alert)
  (trace : list event) (s : system) :
  run (started t0 rows) trace = Ok s ->
  Forall (notified_for rows) (notifications (store s)).
Proof.
  intros Hrun.
  apply (run_keeps (sound rows) (sound_step rows) trace (started t0 rows) s); [|exact Hrun].
  unfold sound, sound_store, started.
  cbn [store running alert_subscriptions notifications pending flat_map].
  repeat split; try constructor.
  rewrite Forall_forall. intros r Hr. exists r. repeat split; auto.
Qed.

Lemma notifications_only_for_selected_alerts_witness :
  exists s,
    run (started 0 [price_above_100]) calls_in_turn = Ok s
    /\ Forall (notified_for [price_above_100]) (notifications (store s)).
Proof.
  assert (R : exists s, run (started 0 [price_above_100]) calls_in_turn = Ok s)
    by (eexists; vm_compute; reflexivity).
  destruct R as [s R]. exists s. split; [exact R|].
  exact (notifications_only_for_selected_alerts 0 _ _ s R).
Defined.

Lemma lookup_In {A} (k : string) (m : list (string * A)) (v : A) :
  Translator.lookup k m = Some v -> In v (map snd m).
Proof.
  induction m as [|[x y] m IH]; cbn [Translator.lookup map snd]; [discriminate|].
  destruct (String.eqb k x); [intros [= ->]; now left | intros H; right; now apply IH].
Qed.

Lemma metric_fields_allowed (f : string) :
  In f (map snd Translator.METRIC_MAP) -> In f ALLOWED_FIELDS.
Proof.
  intros H. apply str_in_In.
  cbn [map snd Translator.METRIC_MAP] in H.
  repeat (destruct H as [<-|H]; [reflexivity|]). destruct H.
Qed.

(** X15: for a phrase whose normalised form is not [constructor] (the
    one name [METRIC_MAP] inherits that a normalised phrase can spell),
    [findMetricField] returns [null] or a field the validator allows. *)
Theorem findMetricField_names_allowed_fields (phrase : string) :
  Translator.normalizePhrase phrase <> "constructor" ->
  exists o, Translator.findMetricField phrase = Ok o
            /\ forall f, o = Some f -> In f ALLOWED_FIELDS.
Proof.
  intros N. unfold Translator.findMetricField.
  destruct (String.eqb_spec (Translator.normalizePhrase phrase) "constructor") as [E|_];
    [contradiction|].
  generalize (Translator.normalizePhrase phrase). intros normalized.
  destruct (Translator.lookup normalized Translator.METRIC_MAP) as [g|] eqn:L.
  - eexists. split; [reflexivity|]. intros f [= ->].
    apply metric_fields_allowed. eapply lookup_In. exact L.
  - eexists. split; [reflexivity|].
    generalize Translator.keys_longest_first. intros keys.
    induction keys as [|key r IH]; [discriminate|].
    destruct (str_contains key normalized); [|exact IH].
    intros f H. apply metric_fields_allowed. eapply lookup_In. exact H.
Qed.

Lemma findMetricField_names_allowed_fields_witness :
  Translator.findMetricField "Debt-to-Equity" = Ok (Some "debt_to_equity")
  /\ In "debt_to_equity" ALLOWED_FIELDS.
Proof.
  destruct (findMetricField_names_allowed_fields "Debt-to-Equity") as [o [E H]]; [vm_compute; discriminate|].
  assert (O : o = Some "debt_to_equity").
  { assert (V : Translator.findMetricField "Debt-to-Equity" = Ok (Some "debt_to_equity"))
      by (vm_compute; reflexivity).
    congruence. }
  split; [congruence | exact (H _ O)].
Defined.

(** X16: on a text that, trimmed and in lower case, is not the name
    of a property every object inherits, [normalizeOperator] returns one
    of the six comparisons or the text as it was given, and normalising
    its result again changes nothing. *)
Theorem normalizeOperator_gives_comparison_or_input (op : string) :
  str_in (trim (toLowerCase op)) prototype_keys = false ->
  (In (Translator.normalizeOperator op) comparisons
   \/ Translator.normalizeOperator op = op)
  /\ Translator.normalizeOperator (Translator.normalizeOperator op)
     = Translator.normalizeOperator op.
Proof.
  intros _. unfold Translator.normalizeOperator at 1 2 4 5.
  match goal with |- context [Translator.lookup ?k ?m] =>
    destruct (Translator.lookup k m) as [o|] eqn:L end.
  - apply lookup_In in L. cbn [map snd] in L.
    repeat (destruct L as [<-|L];
            [split; [left; apply str_in_In; reflexivity | reflexivity]|]).
    destruct L.
  - split; [now right|]. unfold Translator.normalizeOperator. now rewrite L.
Qed.

Lemma normalizeOperator_gives_comparison_or_input_witness :
  str_in (trim (toLowerCase "At Least")) prototype_keys = false
  /\ (In (Translator.normalizeOperator "At Least") comparisons
      \/ Translator.normalizeOperator "At Least" = "At Least")
  /\ Translator.normalizeOperator (Translator.normalizeOperator "At Least")
     = Translator.normalizeOperator "At Least".
Proof.
  split; [reflexivity|].
  apply (normalizeOperator_gives_comparison_or_input "At Least"). reflexivity.
Defined.

(** X17: for a query of ASCII characters, [translateNLToDSL] gives the
    same result for the query and for the query in upper case. *)
Theorem translation_ignores_letter_case (query : string) :
  ascii_text query = true ->
  Translator.translateNLToDSL (toUpperCase query) = Translator.translateNLToDSL query.
Proof.
  intros _. unfold Translator.translateNLToDSL. now rewrite toLowerCase_toUpperCase.
Qed.

Lemma translation_ignores_letter_case_witness :
  Translator.translateNLToDSL "PE BELOW 15" = Translator.translateNLToDSL "pe below 15".
Proof. apply (translation_ignores_letter_case "pe below 15"). reflexivity. Defined.

Lemma join_snoc2 (sep : string) (l : list string) (x y : string) :
  l <> [] ->
  join sep (l ++ [x; y]) = (join sep l ++ sep ++ x ++ sep ++ y)%string.
Proof.
  intros H. change (l ++ [x; y]) with (l ++ [x] ++ [y]). rewrite app_assoc.
  rewrite join_snoc by (destruct l; [contradiction | discriminate]).
  rewrite join_snoc by exact H. now rewrite !append_assoc.
Qed.

Ltac list_init2 l :=
  lazymatch l with
  | [?x; ?y] => constr:(@nil string)
  | ?x :: ?r => let r' := list_init2 r in constr:(x :: r')
  end.
Ltac list_last2 l :=
  lazymatch l with
  | [?x; ?y] => constr:([x; y])
  | _ :: ?r => list_last2 r
  end.

Lemma compile_counter (dsl : value) (r : compiled) :
  compile dsl = Ok r ->
  exists w ctx,
    _compileFilter (S (vdepth dsl)) (get dsl "filter") context0 = Ok (w, ctx)
    /\ sql_params r = params ctx ++ [or_else (get dsl "limit") (VNum 100)]
    /\ paramCounter ctx = length (sql_params r).
Proof.
  intros H. destruct (compile_inv dsl r H) as [w [ctx [F [P _]]]].
  exists w, ctx. split; [exact F|]. split; [exact P|].
  pose proof (shifts_compileFilter _ _ _ _ _ F) as L. unfold lead in L.
  cbn [context0 paramCounter params length] in L.
  rewrite P, length_app. cbn [length]. lia.
Qed.

Lemma compile_rule_text_tail (x : value) (r : compiled) :
  compile (rule x) = Ok r ->
  exists w ctx,
    _compileFilter (S (vdepth (rule x))) x context0 = Ok (w, ctx)
    /\ exists head,
         sql_text r
         = (head ++ nl ++ "ORDER BY c.market_cap DESC NULLS LAST" ++ nl
              ++ "LIMIT $" ++ string_of_nat (paramCounter ctx))%string.
Proof.
  unfold compile, compile_with. fold context0.
  change (nullish (rule x)) with false. change (get (rule x) "filter") with x.
  change (get (rule x) "sort") with VUndef. change (get (rule x) "limit") with VUndef.
  cbv iota. unfold bind at 1.
  destruct (_compileFilter (S (vdepth (rule x))) x context0) as [[w c]| | |] eqn:E;
    try discriminate.
  unfold bind, add_table, ret.
  cbn [obind params paramCounter requiredTables periodSubqueries truthy or_else].
  intros H.
  apply (f_equal (fun o => match o with Ok y => y | _ => r end)) in H.
  cbv beta iota in H. subst r. exists w, c. split; [reflexivity|].
  cbn [sql_text].
  match goal with |- exists head, join nl (filter ?p ?L) = _ =>
    let A := list_init2 L in let z := list_last2 L in
    change L with (A ++ z); rewrite filter_app;
    change (filter p z) with z
  end.
  eexists. apply join_snoc2. apply filter_head_kept. reflexivity.
Qed.

(** A rule without [sort] and [limit]: the default order and limit. *)
Lemma compile_rule_tail (x : value) (r : compiled) :
  compile (rule x) = Ok r ->
  exists head ps,
    sql_text r
    = (head ++ nl ++ "ORDER BY c.market_cap DESC NULLS LAST" ++ nl
         ++ "LIMIT $" ++ string_of_nat (length (sql_params r)))%string
    /\ sql_params r = ps ++ [VNum 100].
Proof.
  intros H.
  destruct (compile_counter (rule x) r H) as [w0 [ctx [F [P K]]]].
  destruct (compile_rule_text_tail x r H) as [w1 [ctx1 [F1 [head T]]]].
  change (get (rule x) "filter") with x in F. rewrite F in F1. injection F1 as _ <-.
  exists head, (params ctx). split; [now rewrite <- K | exact P].
Qed.

Lemma translation_is_a_rule (query : string) (d : value) :
  Translator.translateNLToDSL query = Ok d ->
  exists x, d = rule x
    /\ (x = VObj [] \/ exists c cs, x = VObj [("and", VArr (c :: cs))]).
Proof.
  unfold Translator.translateNLToDSL. cbv zeta.
  destruct (Translator.extractMetricConditions _) as [metricConditions| | |];
    cbn [obind]; try discriminate.
  match goal with |- match ?l with _ => _ end = _ -> _ => destruct l as [|c cs] end;
    intros [= <-]; eexists; (split; [reflexivity|]); [now left | right; now exists c, cs].
Qed.

(** X18: whatever the query, the document [translateNLToDSL]
    returns for it compiles, when it does, to a text ending with the
    default order [c.market_cap DESC NULLS LAST] and the limit, the limit
    being the parameter 100. *)
Theorem translated_queries_get_default_order_and_limit (query : string) (d : value)
  (r : compiled) :
  Translator.translateNLToDSL query = Ok d -> compile d = Ok r ->
  exists head ps,
    sql_text r
    = (head ++ nl ++ "ORDER BY c.market_cap DESC NULLS LAST" ++ nl
         ++ "LIMIT $" ++ string_of_nat (length (sql_params r)))%string
    /\ sql_params r = ps ++ [VNum 100].
Proof.
  intros T C. destruct (translation_is_a_rule query d T) as [x [-> _]].
  exact (compile_rule_tail x r C).
Qed.

Lemma translated_queries_get_default_order_and_limit_witness :
  exists d r,
    Translator.translateNLToDSL "PE below 15 and ROE above 20" = Ok d
    /\ compile d = Ok r
    /\ exists head ps,
         sql_text r
         = (head ++ nl ++ "ORDER BY c.market_cap DESC NULLS LAST" ++ nl
              ++ "LIMIT $" ++ string_of_nat (length (sql_params r)))%string
         /\ sql_params r = ps ++ [VNum 100].
Proof.
  eexists. eexists. split; [vm_compute; reflexivity|]. split; [vm_compute; reflexivity|].
  eapply (translated_queries_get_default_order_and_limit "PE below 15 and ROE above 20");
    vm_compute; reflexivity.
Defined.

Lemma number_truthy (q : Q) : ~ q == 0 -> truthy (VNum q) = true.
Proof.
  intros N. cbn [truthy]. destruct (Qeq_bool q 0) eqn:E; [|reflexivity].
  apply Qeq_bool_iff in E. contradiction.
Qed.

(** X19: for a threshold other than 0 and a numeric price,
    [checkPriceThreshold] answers true under [>], [>=], [<], [<=] and [=]
    exactly when the price compares so with the threshold, and answers
    false under any other operator, [!=] among them. *)
Theorem price_alert_fires_iff_comparison_holds (op : string) (p v : Q) (condition : value) :
  get condition "operator" = VStr op -> get condition "value" = VNum v -> ~ v == 0 ->
  (In op [">"; ">="; "<"; "<="; "="] ->
   (checkPriceThreshold condition (VNum p) = Ok true <-> holds op p v))
  /\ (~ In op [">"; ">="; "<"; "<="; "="] ->
      checkPriceThreshold condition (VNum p) = Ok false).
Proof.
  intros Eo Ev N. unfold checkPriceThreshold. rewrite Eo, Ev, (number_truthy v N).
  cbn [negb andb is_str]. rewrite andb_false_r.
  unfold js_gt, js_ge, js_lt, js_le, js_compare. cbn [ToNumber obind strict_eq].
  split.
  - intros H. destruct H as [<-|[<-|[<-|[<-|[<-|[]]]]]];
      cbn [String.eqb Ascii.eqb Bool.eqb holds]; rewrite ?Qeq_bool_iff.
    + rewrite (Qgt_alt p v). destruct (Qcompare p v) eqn:C; split; congruence.
    + rewrite (Qle_alt v p), <- (Qcompare_antisym p v).
      destruct (Qcompare p v) eqn:C; cbn [CompOpp]; split; congruence.
    + rewrite (Qlt_alt p v). destruct (Qcompare p v) eqn:C; split; congruence.
    + rewrite (Qle_alt p v). destruct (Qcompare p v) eqn:C; split; congruence.
    + split; [intros [= H]; now apply Qeq_bool_iff | intros H; f_equal; now apply Qeq_bool_iff].
  - intros H. cbn [In] in H.
    repeat match goal with |- context [String.eqb op ?s] =>
      destruct (String.eqb_spec op s); [exfalso; apply H; subst; tauto|] end.
    reflexivity.
Qed.

Lemma price_alert_fires_iff_comparison_holds_witness :
  (checkPriceThreshold (VObj [("operator", VStr ">="); ("value", VNum 100)]) (VNum 100)
   = Ok true <-> holds ">=" 100 100)
  /\ checkPriceThreshold (VObj [("operator", VStr "!="); ("value", VNum 100)]) (VNum 150)
     = Ok false.
Proof.
  split.
  - apply (price_alert_fires_iff_comparison_holds ">=" 100 100
             (VObj [("operator", VStr ">="); ("value", VNum 100)]));
      [reflexivity | reflexivity | discriminate | apply str_in_In; reflexivity].
  - apply (price_alert_fires_iff_comparison_holds "!=" 150 100
             (VObj [("operator", VStr "!="); ("value", VNum 100)]));
      [reflexivity | reflexivity | discriminate |].
    intros H. apply str_in_In in H. discriminate H.
Defined.

Lemma negb_Qle_bool (x y : Q) : negb (Qle_bool x y) = true <-> y < x.
Proof.
  rewrite negb_true_iff. split.
  - intros H. apply Qnot_le_lt. intros L. apply Qle_bool_iff in L. congruence.
  - intros H. destruct (Qle_bool x y) eqn:E; [|reflexivity].
    apply Qle_bool_iff in E. exfalso. exact (Qlt_not_le _ _ H E).
Qed.

(** X20: for a named metric with a numeric value and a target other
    than 0, [checkFundamentalCondition] answers true exactly when the
    operator is [above] and the value exceeds the target, [below] and the
    value is under it, or [equals] and the two are equal. *)
Theorem fundamental_alert_fires_iff (m op : string) (a t : Q)
  (condition fundamentals : value) :
  get condition "fundamental_metric" = VStr m -> m <> "" ->
  get condition "fundamental_operator" = VStr op ->
  get condition "fundamental_value" = VNum t -> ~ t == 0 ->
  get fundamentals m = VNum a ->
  (checkFundamentalCondition condition fundamentals = Ok true
   <-> (op = "above" /\ t < a) \/ (op = "below" /\ a < t) \/ (op = "equals" /\ a == t)).
Proof.
  intros Em Nm Eo Ev N Ea. unfold checkFundamentalCondition.
  assert (Tm : truthy (VStr m) = true).
  { cbn. destruct (String.eqb_spec m ""); [contradiction | reflexivity]. }
  assert (Tf : truthy fundamentals = true).
  { destruct fundamentals; cbn in Ea; try discriminate Ea; [|reflexivity].
    destruct (_ || _); discriminate. }
  rewrite Em, Eo, Ev, Tm, Tf, (number_truthy t N). cbn [negb orb read_metric].
  rewrite Ea. cbn [obind ToNumber isNaN is_str].
  destruct (String.eqb_spec op "above") as [->|Na].
  { split.
    - intros [= H]. left. split; [reflexivity | now apply negb_Qle_bool].
    - intros [[_ H]|[[H _]|[H _]]]; try discriminate H. f_equal. now apply negb_Qle_bool. }
  destruct (String.eqb_spec op "below") as [->|Nb].
  { split.
    - intros [= H]. right. left. split; [reflexivity | now apply negb_Qle_bool].
    - intros [[H _]|[[_ H]|[H _]]]; try discriminate H. f_equal. now apply negb_Qle_bool. }
  destruct (String.eqb_spec op "equals") as [->|Ne].
  { split.
    - intros [= H]. right. right. split; [reflexivity | now apply Qeq_bool_iff].
    - intros [[H _]|[[H _]|[_ H]]]; try discriminate H. f_equal. now apply Qeq_bool_iff. }
  split; [discriminate|]. intros [[H _]|[[H _]|[H _]]]; contradiction.
Qed.

Lemma fundamental_alert_fires_iff_witness :
  checkFundamentalCondition roe_above_15 (VObj [("roe", VNum 18)]) = Ok true.
Proof.
  apply (fundamental_alert_fires_iff "roe" "above" 18 15 roe_above_15
           (VObj [("roe", VNum 18)]));
    [reflexivity | discriminate | reflexivity | reflexivity | discriminate | reflexivity |].
  left. split; reflexivity.
Defined.

Lemma quote_cases (v : value) :
  Run.quote v = Ok tt \/ Run.quote v = Throw TypeError \/ Run.quote v = Beyond.
Proof.
  destruct v as [| | | | | |items|props|]; cbn [Run.quote]; auto.
  - induction items as [|x items IH]; cbn [Run.quote_items]; auto.
    destruct x as [| | | | | |i2|p2|]; cbn [Run.quote_item obind]; auto.
    destruct (Run.has_key "toString" p2); cbn [obind]; auto.
  - destruct (Run.has_key "toString" props); auto.
Qed.

(** A sort array with a malformed item ends [_validateSort] with a
    [TypeError], whatever stands before the item. *)
Lemma run_sort_items_malformed (items : list value) :
  Exists malformed_sort_item items ->
  Forall sort_field_quotable items ->
  Run.sort_items items = Throw TypeError.
Proof.
  induction items as [|s r IH]; intros E F; [inversion E|].
  inversion F as [|? ? Fs Fr]; subst.
  cbn [Run.sort_items]. destruct (nullish s) eqn:N; [reflexivity|].
  assert (K : forall e1 : list verror,
             obind
               (if truthy (get s "direction") then
                  match get s "direction" with
                  | VStr d =>
                      Ok (if negb (str_in (toLowerCase d) ["asc"; "desc"])
                          then [EInvalidSortDirection (get s "direction")] else [])
                  | _ => Throw TypeError
                  end
                else Ok [])
               (fun e2 => obind (Run.sort_items r) (fun es => Ok (e1 ++ e2 ++ es)))
             = Throw TypeError).
  { intros e1. inversion E as [? ? [Hn|[Ht Hd]]|? ? Er]; subst.
    - congruence.
    - rewrite Ht. destruct (get s "direction"); try reflexivity.
      exfalso. now apply (Hd s0).
    - rewrite (IH Er Fr).
      destruct (truthy (get s "direction")); [|reflexivity].
      destruct (get s "direction"); reflexivity. }
  destruct (negb (truthy (get s "field"))); cbn [obind]; [apply K|].
  destruct (negb (includes ALLOWED_FIELDS (get s "field"))); cbn [obind]; [|apply K].
  destruct (quote_cases (get s "field")) as [Q|[Q|Q]]; [| |contradiction];
    rewrite Q; cbn [obind]; [apply K | reflexivity].
Qed.

(** X21: on an object whose filter the validator accepts, a sort array
    that holds a [null] or [undefined] item, or an item with a truthy
    direction that is not a string, makes [validate] throw a [TypeError]
    instead of returning a result (sort fields that are arrays of arrays
    set aside). *)
Theorem malformed_sort_item_makes_validate_throw (stack : nat) (dsl : value) (items : list value) :
  truthy dsl = true -> typeof dsl = TObject ->
  Run.accepts stack (rule (get dsl "filter")) = true ->
  get dsl "sort" = VArr items ->
  Exists malformed_sort_item items ->
  Forall sort_field_quotable items ->
  Run.validate stack dsl = Throw TypeError.
Proof.
  intros Td Ty A Es E F.
  unfold Run.accepts, Run.validate, rule in A.
  cbn [get assoc String.eqb Ascii.eqb Bool.eqb truthy typeof jstype_eqb negb orb] in A.
  unfold Run.validate. rewrite Td, Ty. cbn [jstype_eqb negb orb].
  destruct (truthy (get dsl "filter")); cbn [negb] in *; [|discriminate A].
  destruct (Run._validateFilter stack (get dsl "filter")) as [[fe f']| | |];
    try discriminate A.
  cbn [obind]. rewrite Es. cbn [truthy Run._validateSort].
  rewrite (run_sort_items_malformed items E F). reflexivity.
Qed.

Lemma malformed_sort_item_makes_validate_throw_witness :
  Run.validate 1 null_sort_rule = Throw TypeError.
Proof.
  apply (malformed_sort_item_makes_validate_throw 1 null_sort_rule [ VObj [("field", VStr "roe")]; VNull ]);
    try reflexivity.
  - constructor 2. constructor. left. reflexivity.
  - repeat constructor; discriminate.
Defined.

Lemma compile_rule_filter (x x' : value) :
  _compileFilter (S (vdepth (rule x))) x context0
  = _compileFilter (S (vdepth (rule x'))) x' context0 ->
  compile (rule x) = compile (rule x').
Proof.
  intros E. unfold compile, compile_with. fold context0.
  change (nullish (rule x)) with false. change (nullish (rule x')) with false.
  change (get (rule x) "filter") with x. change (get (rule x') "filter") with x'.
  change (get (rule x) "sort") with VUndef. change (get (rule x') "sort") with VUndef.
  change (get (rule x) "limit") with VUndef. change (get (rule x') "limit") with VUndef.
  cbv iota. unfold bind at 1 4. now rewrite E.
Qed.

(** X22: where a filter has a truthy [and], [compile] never looks
    at an [or] beside it: the result is that of the filter without it. *)
Theorem or_beside_and_is_ignored (a o : value) :
  truthy a = true ->
  compile (rule (VObj [("and", a); ("or", o)])) = compile (rule (VObj [("and", a)])).
Proof.
  intros T. apply compile_rule_filter.
  set (x := VObj [("and", a); ("or", o)]). set (x' := VObj [("and", a)]).
  assert (E : forall fuel, _compileFilter fuel x = _compileFilter fuel x').
  { intros [|fuel]; [reflexivity|]. rewrite !compileFilter_S. subst x x'.
    cbn [truthy negb get assoc String.eqb Ascii.eqb Bool.eqb]. now rewrite T. }
  rewrite E.
  assert (L : (S (vdepth (rule x')) <= S (vdepth (rule x)))%nat).
  { subst x x'. unfold rule. cbn [vdepth fold_right snd]. lia. }
  apply (compileFilter_fuel_le _ _ x' L context0).
  apply ff_compileFilter. apply vdepth_rule.
Qed.

Lemma or_beside_and_is_ignored_witness :
  accepts (rule and_or_rule) = true
  /\ compile (rule and_or_rule)
     = compile (rule (VObj [("and", VArr [cond "pe_ratio" "<" (VNum 15)])])).
Proof.
  split; [reflexivity|].
  apply (or_beside_and_is_ignored (VArr [cond "pe_ratio" "<" (VNum 15)])
           (VArr [cond "roe" ">" (VNum 10)])).
  reflexivity.
Defined.

Lemma kt_weaken {A} (m : M A) (Q R : A -> Prop) :
  keeps_tables m Q -> (forall a, Q a -> R a) -> keeps_tables m R.
Proof. intros H HQ c a c' P E. destruct (H c a c' P E). split; auto. Qed.
Lemma kt_ret {A} (a : A) (Q : A -> Prop) : Q a -> keeps_tables (ret a) Q.
Proof. intros H c a' c' P [= <- <-]. now split. Qed.
Lemma kt_throw {A} (e : exn) (Q : A -> Prop) : keeps_tables (throw e) Q.
Proof. intros c a c' P H. discriminate H. Qed.
Lemma kt_beyond {A} (Q : A -> Prop) : keeps_tables beyond Q.
Proof. intros c a c' P H. discriminate H. Qed.
Lemma kt_push (v : value) : keeps_tables (push v) (fun _ => True).
Proof. intros c a c' P [= <- <-]. now split. Qed.
Lemma kt_placeholder : keeps_tables placeholder (fun _ => True).
Proof. intros c a c' P [= <- <-]. now split. Qed.
Lemma kt_counter : keeps_tables counter (fun _ => True).
Proof. intros c a c' P [= <- <-]. now split. Qed.
Lemma kt_add_table (t : string) :
  In t SCHEMA_TABLES -> keeps_tables (add_table t) (fun _ => In t SCHEMA_TABLES).
Proof.
  intros Ht c a c' [N [I C]] [= <- <-]. split; [|exact Ht].
  unfold tables_ok. cbn [requiredTables].
  destruct (str_in t (requiredTables c)) eqn:E; [now repeat split|].
  repeat split.
  - apply NoDup_app; [exact N | repeat constructor; intros [] |].
    intros x Hx [<-|[]]. apply str_in_In in Hx. congruence.
  - intros x Hx. apply in_app_or in Hx as [Hx|[<-|[]]]; auto.
  - apply in_or_app. now left.
Qed.
Lemma kt_bind {A B} (m : M A) (f : A -> M B) (Q : A -> Prop) (R : B -> Prop) :
  keeps_tables m Q -> (forall a, Q a -> keeps_tables (f a) R) -> keeps_tables (bind m f) R.
Proof.
  intros Hm Hf c b c' P. unfold bind.
  destruct (m c) as [[a c1]| | |] eqn:E; try discriminate.
  destruct (Hm c a c1 P E) as [P1 Qa]. now apply Hf.
Qed.
Lemma kt_mapM {A B} (f : A -> M B) (l : list A) :
  (forall x, keeps_tables (f x) (fun _ => True)) -> keeps_tables (mapM f l) (fun _ => True).
Proof.
  intros H. induction l as [|x l IH]; cbn [mapM]; [now apply kt_ret|].
  eapply kt_bind; [apply H|]. intros y _.
  eapply kt_bind; [apply IH|]. intros ys _. now apply kt_ret.
Qed.

Lemma field_table_in_schema (k : value) :
  keeps_tables (lift (lookup_field k))
    (fun ofi => forall fi, ofi = Some fi -> In (table fi) SCHEMA_TABLES).
Proof.
  intros c a c' P. unfold lift.
  destruct (lookup_field k) as [ofi| | |] eqn:E; cbn [obind]; try discriminate.
  intros [= <- <-]. split; [exact P|]. intros fi ->.
  destruct k; cbn [lookup_field] in E; try discriminate E.
  destruct (str_in s prototype_keys); [discriminate E|].
  assert (F : find_field s FIELD_TABLE_MAP = Some fi) by congruence.
  clear E. apply find_field_In in F. unfold FIELD_TABLE_MAP, plain in F.
  repeat (destruct F as [F|F]; [injection F as _ <-; apply str_in_In; reflexivity|]).
  destruct F.
Qed.

Ltac kt_step :=
  lazymatch goal with
  | |- keeps_tables (ret _) _ => apply kt_ret; exact I
  | |- keeps_tables (throw _) _ => apply kt_throw
  | |- keeps_tables beyond _ => apply kt_beyond
  | |- keeps_tables (push _) _ => apply kt_push
  | |- keeps_tables placeholder _ => apply kt_placeholder
  | |- keeps_tables counter _ => apply kt_counter
  | |- keeps_tables (add_table _) _ =>
      eapply kt_weaken; [apply kt_add_table; assumption | intros ? _; exact I]
  | |- keeps_tables (bind _ _) _ => apply kt_bind with (Q := fun _ => True); [|intros ? _]
  | |- keeps_tables (mapM _ _) _ => apply kt_mapM; intros ?
  | |- keeps_tables (if ?b then _ else _) _ => destruct b
  | |- keeps_tables (match ?x with _ => _ end) _ => destruct x
  end.
Ltac kt := repeat kt_step.

Lemma kt_index (v : value) (i : nat) : keeps_tables (index v i) (fun _ => True).
Proof. unfold index. kt. Qed.
Lemma kt_op_text (v : value) : keeps_tables (op_text v) (fun _ => True).
Proof. unfold op_text. kt. Qed.
Lemma kt_compileOperator (colRef : string) (c : value) :
  keeps_tables (_compileOperator colRef c) (fun _ => True).
Proof. unfold _compileOperator. kt; apply kt_index. Qed.
Lemma kt_compilePeriodCondition (c : value) (fi : fieldInfo) :
  In (table fi) SCHEMA_TABLES ->
  keeps_tables (_compilePeriodCondition c fi) (fun _ => True).
Proof.
  intros H. unfold _compilePeriodCondition.
  kt; try apply kt_op_text; apply kt_compileOperator.
Qed.
Lemma kt_compileCondition (c : value) :
  keeps_tables (_compileCondition c) (fun _ => True).
Proof.
  unfold _compileCondition.
  eapply kt_bind; [apply field_table_in_schema | intros ofi H].
  destruct ofi as [fi|]; [|apply kt_throw].
  specialize (H fi eq_refl).
  destruct (truthy (get c "value_is_field")).
  { eapply kt_bind; [apply field_table_in_schema | intros oo H'].
    destruct oo as [gi|]; [|apply kt_throw]. specialize (H' gi eq_refl).
    kt. apply kt_op_text. }
  destruct (includes _ (get c "field")). { kt. apply kt_compileOperator. }
  destruct (includes _ (get c "field") && _). { kt. }
  destruct (derived fi). { kt; apply kt_compileOperator. }
  destruct (truthy (get c "period") && _). { now apply kt_compilePeriodCondition. }
  destruct (String.eqb (table fi) _); kt; apply kt_compileOperator.
Qed.

Lemma kt_compileFilter (fuel : nat) :
  forall filter, keeps_tables (_compileFilter fuel filter) (fun _ => True).
Proof.
  induction fuel as [|fuel IH]; intros filter; [intros c a c' _ H; discriminate H|].
  assert (L : forall conditions joiner,
             keeps_tables (_compileLogical_with (_compileFilter fuel) conditions joiner)
               (fun _ => True)).
  { intros conditions joiner. unfold _compileLogical_with.
    destruct conditions; try apply kt_throw.
    eapply kt_bind; [|intros ? ?; now apply kt_ret].
    apply kt_mapM. intros x.
    destruct (Compiler._isCondition x); [apply kt_compileCondition|].
    eapply kt_bind; [apply IH | intros ? ?; now apply kt_ret]. }
  cbn [_compileFilter].
  destruct (negb (truthy filter)); [now apply kt_ret|].
  destruct (truthy (get filter "and")); [apply L|].
  destruct (truthy (get filter "or")); [apply L|].
  destruct (truthy (get filter "not")); [|now apply kt_ret].
  eapply kt_bind; [|intros ? ?; now apply kt_ret].
  destruct (Compiler._isCondition (get filter "not")); [apply kt_compileCondition | apply IH].
Qed.

Lemma compile_tables (dsl : value) (r : compiled) :
  compile dsl = Ok r ->
  exists w ctx,
    _compileFilter (S (vdepth dsl)) (get dsl "filter") context0 = Ok (w, ctx)
    /\ (w' <- ret w ;; add_table "price_history" ;;;
        add_table "fundamentals_quarterly" ;;; ret w') ctx
       = Ok (w, mkContext (params ctx) (paramCounter ctx) (sql_tables r) (periodSubqueries ctx)).
Proof.
  unfold compile, compile_with. fold context0.
  destruct (nullish dsl); [discriminate|].
  unfold bind at 1.
  destruct (_compileFilter (S (vdepth dsl)) (get dsl "filter") context0) as [[w c]| | |] eqn:E;
    try discriminate.
  unfold bind, add_table, ret. cbn [obind params paramCounter requiredTables periodSubqueries].
  destruct (if truthy (get dsl "sort") then _compileSort (get dsl "sort")
            else Ok "c.market_cap DESC NULLS LAST") as [orderBy| | |]; try discriminate.
  cbn [obind]. intros H.
  apply (f_equal (fun o => match o with Ok x => x | _ => r end)) in H.
  cbv beta iota in H. subst r. exists w, c. split; reflexivity.
Qed.

(** X23: for a document the validator accepts, the tables [compile]
    returns are tables of the schema, each once, and [companies],
    [price_history] and [fundamentals_quarterly] are always among
    them. *)
Theorem compile_reads_schema_tables_only (dsl : value) (r : compiled) :
  accepts dsl = true -> compile dsl = Ok r ->
  NoDup (sql_tables r) /\ incl (sql_tables r) SCHEMA_TABLES
  /\ incl ["companies"; "price_history"; "fundamentals_quarterly"] (sql_tables r).
Proof.
  intros _ H. destruct (compile_tables dsl r H) as [w [ctx [F A]]].
  assert (P0 : tables_ok context0).
  { repeat split; [repeat constructor; intros [] | | now left].
    intros x [<-|[]]. now left. }
  destruct (kt_compileFilter _ _ _ _ _ P0 F) as [P1 _].
  assert (K : keeps_tables (w' <- ret w ;; add_table "price_history" ;;;
                            add_table "fundamentals_quarterly" ;;; ret w')
                (fun _ => True)).
  { assert (In "price_history" SCHEMA_TABLES) by (apply str_in_In; reflexivity).
    assert (In "fundamentals_quarterly" SCHEMA_TABLES) by (apply str_in_In; reflexivity).
    kt. }
  destruct (K _ _ _ P1 A) as [[N [I C]] _]. cbn [requiredTables] in *.
  split; [exact N|]. split; [exact I|].
  unfold bind, ret, add_table in A.
  cbn [params paramCounter requiredTables periodSubqueries] in A.
  injection A as A.
  assert (Hp : In "price_history" (sql_tables r)).
  { rewrite <- A.
    destruct (str_in "price_history" (requiredTables ctx)) eqn:E1;
      destruct (str_in "fundamentals_quarterly" _) eqn:E2;
      rewrite ?in_app_iff; cbn [In]; rewrite <- ?str_in_In; auto. }
  assert (Hf : In "fundamentals_quarterly" (sql_tables r)).
  { rewrite <- A.
    destruct (str_in "fundamentals_quarterly" _) eqn:E2;
      [now apply str_in_In | apply in_or_app; right; now left]. }
  intros x [<-|[<-|[<-|[]]]]; assumption.
Qed.

Lemma compile_reads_schema_tables_only_witness :
  exists r, accepts price_target_rule = true /\ compile price_target_rule = Ok r
    /\ sql_tables r
       = ["companies"; "price_history"; "analyst_estimates"; "fundamentals_quarterly"]
    /\ NoDup (sql_tables r) /\ incl (sql_tables r) SCHEMA_TABLES
    /\ incl ["companies"; "price_history"; "fundamentals_quarterly"] (sql_tables r).
Proof.
  eexists. split; [reflexivity|]. split; [vm_compute; reflexivity|].
  split; [reflexivity|].
  apply (compile_reads_schema_tables_only price_target_rule);
    [reflexivity | vm_compute; reflexivity].
Defined.


Lemma prefix_split (sub s : string) :
  String.prefix sub s = true -> exists post, s = (sub ++ post)%string.
Proof.
  revert s. induction sub as [|a sub IH]; intros s.
  - intros _. now exists s.
  - destruct s as [|b s]; cbn [String.prefix]; [discriminate|].
    destruct (ascii_dec a b) as [->|]; [|discriminate].
    intros H. destruct (IH s H) as [post ->]. now exists post.
Qed.

Lemma str_contains_split (sub s : string) :
  str_contains sub s = true -> exists pre post, s = (pre ++ sub ++ post)%string.
Proof.
  induction s as [|c s IH]; cbn [str_contains]; intros H;
    apply orb_true_iff in H as [H|H]; try discriminate.
  - destruct (prefix_split _ _ H) as [post E]. now exists "", post.
  - destruct (prefix_split _ _ H) as [post E]. now exists "", post.
  - destruct (IH H) as [pre [post ->]]. now exists (String c pre), post.
Qed.

Lemma list_ascii_of_string_app (a b : string) :
  list_ascii_of_string (a ++ b) = list_ascii_of_string a ++ list_ascii_of_string b.
Proof. induction a as [|c a IH]; cbn; [reflexivity | now rewrite IH]. Qed.

(** A match somewhere ahead makes the search succeed. *)
Lemma search_finds (icase : bool) (r : Regex.re) (pre : list ascii) :
  forall bef rst,
    Regex.match_here icase r (rev pre ++ bef) rst <> None ->
    Regex.search icase r bef (pre ++ rst) <> None.
Proof.
  induction pre as [|x pre IH]; intros bef rst H.
  - cbn [app rev] in *. destruct rst; cbn [Regex.search];
      destruct (Regex.match_here icase r bef _); congruence.
  - cbn [app Regex.search].
    destruct (Regex.match_here icase r bef (x :: pre ++ rst)); [discriminate|].
    apply IH. cbn [rev] in H. now rewrite <- app_assoc in H.
Qed.

Lemma extractBuyback_keyword (query : string) :
  str_contains "buyback" query = true ->
  Translator.extractBuyback query
  = Some (Translator.cond "last_buyback_date" "exists" (VBool true)).
Proof.
  intros H. destruct (str_contains_split _ _ H) as [pre [post ->]].
  unfold Translator.extractBuyback, Regex.test.
  rewrite !list_ascii_of_string_app.
  match goal with |- context [Regex.search ?i ?r ?b ?l] =>
    pose proof (search_finds i r (list_ascii_of_string pre) []
                  (list_ascii_of_string "buyback" ++ list_ascii_of_string post)) as S;
    destruct (Regex.search i r b l) end.
  - reflexivity.
  - exfalso. apply S; [|reflexivity]. vm_compute. intros E. discriminate E.
Qed.

(** X25: where the query, trimmed and in lower case, has [buyback]
    in it, the document [translateNLToDSL] returns has, among the
    conditions of its [and], that a [last_buyback_date] exists. *)
Theorem buyback_queries_ask_for_a_buyback_date (query : string) (d : value) :
  str_contains "buyback" (trim (toLowerCase query)) = true ->
  Translator.translateNLToDSL query = Ok d ->
  exists conditions,
    get (get d "filter") "and" = VArr conditions /\
    In (Translator.cond "last_buyback_date" "exists" (VBool true)) conditions.
Proof.
  intros H T. unfold Translator.translateNLToDSL in T.
  rewrite (extractBuyback_keyword _ H) in T.
  destruct (Translator.extractMetricConditions _) as [ms| | |];
    cbn [obind] in T; try discriminate T.
  match type of T with
  | match ?l with [] => _ | _ => _ end = _ =>
      assert (I : In (Translator.cond "last_buyback_date" "exists" (VBool true)) l)
        by (rewrite !in_app_iff; do 4 right; left; left; reflexivity);
      destruct l as [|c cs]; [destruct I|]
  end.
  injection T as <-. exists (c :: cs). split; [reflexivity | exact I].
Qed.

Lemma buyback_queries_ask_for_a_buyback_date_witness :
  exists d conditions,
    Translator.translateNLToDSL "Companies with a BUYBACK and PE below 15" = Ok d /\
    get (get d "filter") "and" = VArr conditions /\
    In (Translator.cond "last_buyback_date" "exists" (VBool true)) conditions.
Proof.
  exists (match Translator.translateNLToDSL "Companies with a BUYBACK and PE below 15"
          with Ok d => d | _ => VNull end).
  destruct (buyback_queries_ask_for_a_buyback_date
              "Companies with a BUYBACK and PE below 15"
              (match Translator.translateNLToDSL "Companies with a BUYBACK and PE below 15"
               with Ok d => d | _ => VNull end)) as [cs [G I]];
    [vm_compute; reflexivity | vm_compute; reflexivity |].
  exists cs. split; [vm_compute; reflexivity |]. split; [exact G | exact I].
Defined.
